(** * The components of the portfolio site: a shallow embedding

    The development models the stateful code of the site:

    - [CardSwap] (components/CardSwap.jsx): the card stack whose front card
      is periodically sent to the back.  The model follows the body of the
      component's [useEffect]: [makeSlot], the [swap] closure that builds a
      GSAP timeline, the [setInterval] timer, and the [pause]/[resume]
      handlers registered when [pauseOnHover] is set.
    - [AboutSection] (components/AboutSection.jsx): the IntersectionObserver
      callback that selects the active card, the classes of the three cards
      and the observer's set-up and cleanup.
    - [CursorFollow] (components/CursorFollow.jsx): the animation-frame loop
      that moves the cursor towards the pointer.
    - [ImageModal] (components/ImageModal.jsx): the effect that registers
      the Escape listener and locks scrolling, and the click handlers.
    - [Home] (the page): the theme and the selected image.

    Conventions.
    - In [CardSwap], JavaScript numbers that hold pixel distances are exact
      rationals ([Qc]); rounding of doubles is not modelled there.  Indices
      and counts are integers ([Z] or [nat]).
    - In [CursorFollow], numbers are IEEE 754 doubles ([Number.t]): every
      operation rounds its exact result to the nearest double, ties to
      even ([round64]), and a result too large to be a finite double is an
      infinity.
    - Time is discrete, one step per millisecond.  GSAP durations, which the
      source gives in seconds, are written in milliseconds ([durDrop = 2]
      becomes [2000]); the dimensionless factors [promoteOverlap] and
      [returnDelay] are written in percent ([0.9] becomes [90]).  Within a
      millisecond the animation frame runs before the timers; in no result
      below do the end of a timeline and the firing of a timer fall on the
      same millisecond, so this order plays no role.
    - A timeline follows GSAP's placement rules: a child added without a
      position starts at the current end of the timeline, ["-=x"] is
      relative to that end, ["label+=x"] to a label; [tl.call] adds a
      callback that runs when the playhead crosses its position.
    - A [null] ref is [None]; reading a property of [undefined] raises
      [TypeError].
    - An effect runs when its component is committed and one of its
      dependencies has changed; the cleanup it returned before runs first. *)

From stdpp Require Import prelude strings gmap.
From Stdlib Require Import QArith Qcanon Qround Qabs Qpower Ascii Lqa.

Open Scope Z_scope.

(** ** Exceptions *)

Inductive result (A : Type) : Type :=
| Ok (a : A)
| TypeError.
Arguments Ok {A} a.
Arguments TypeError {A}.

Global Instance result_ret : MRet result := fun A a => Ok a.
Global Instance result_bind : MBind result := fun A B f m =>
  match m with
  | Ok a => f a
  | TypeError => TypeError
  end.

Global Instance result_fmap : FMap result := fun A B f m =>
  match m with
  | Ok a => Ok (f a)
  | TypeError => TypeError
  end.

(** ** Slots *)

Record Slot := {
  slot_x : Qc;
  slot_y : Qc;
  slot_z : Qc;
  slot_zIndex : Z
}.

(** [makeSlot(i, distX, distY, total)] *)
Definition makeSlot (i : Z) (distX distY : Qc) (total : Z) : Slot :=
  {| slot_x := (Qc_of_Z i * distX)%Qc;
     slot_y := (- Qc_of_Z i * distY)%Qc;
     slot_z := (- Qc_of_Z i * distX * Q2Qc (3 # 2))%Qc;
     slot_zIndex := total - i |}.

(** ** GSAP timelines *)

(** The DOM node of a card; the node rendered for child [i] is [i]. *)
Definition Element := nat.

(** What a tween animates: the DROP tween moves [y] by a relative amount,
    the other tweens move to the coordinates of a slot. *)
Inductive Vars :=
| DropBy (dy : Z)
| MoveTo (s : Slot).

(** The closures passed to [tl.call]. *)
Inductive Callback :=
| CbSetFront (el : Element) (front : bool)
    (* el.setAttribute('data-is-front', ...) and the light-theme colours *)
| CbSetZ (el : Element) (zIndex : Z)
    (* gsap.set(elFront, { zIndex: backSlot.zIndex }) *)
| CbCommit (new_order : list nat).
    (* order.current = [...rest, front] *)

Inductive Action :=
| To (el : Element) (vars : Vars) (ease : string)   (* tl.to *)
| SetZ (el : Element) (zIndex : Z)                  (* tl.set *)
| Call (cb : Callback).                             (* tl.call *)

Record Child := {
  ch_start : Z;
  ch_dur : Z;
  ch_act : Action
}.

Record Timeline := {
  tl_children : list Child;
  tl_labels : gmap string Z;
  tl_time : Z;        (* playhead *)
  tl_paused : bool
}.

(** Position parameters used by the component: none (the end of the
    timeline), ["-=x"] (relative to the end) and ["label+=x"]. *)
Inductive Position :=
| AtEnd
| FromEnd (offset : Z)
| AtLabel (label : string) (offset : Z).

(** [gsap.timeline()]: empty, playing. *)
Definition timeline : Timeline :=
  {| tl_children := []; tl_labels := ∅; tl_time := 0; tl_paused := false |}.

Definition child_end (c : Child) : Z := ch_start c + ch_dur c.

(** The latest end among some children. *)
Definition span (cs : list Child) : Z :=
  foldr (fun c m => Z.max (child_end c) m) 0 cs.

(** [tl.duration()] *)
Definition duration (tl : Timeline) : Z := span (tl_children tl).

(** A label that does not exist resolves to the end of the timeline. *)
Definition resolve (tl : Timeline) (pos : Position) : Z :=
  match pos with
  | AtEnd => duration tl
  | FromEnd off => duration tl + off
  | AtLabel l off => default (duration tl) (tl_labels tl !! l) + off
  end.

Definition tl_add (act : Action) (dur : Z) (pos : Position) (tl : Timeline)
  : Timeline :=
  {| tl_children :=
       tl_children tl ++ [{| ch_start := resolve tl pos; ch_dur := dur; ch_act := act |}];
     tl_labels := tl_labels tl;
     tl_time := tl_time tl;
     tl_paused := tl_paused tl |}.

Definition tl_to (el : Element) (vars : Vars) (dur : Z) (ease : string)
  (pos : Position) (tl : Timeline) : Timeline :=
  tl_add (To el vars ease) dur pos tl.

Definition tl_set (el : Element) (zIndex : Z) (pos : Position) (tl : Timeline)
  : Timeline :=
  tl_add (SetZ el zIndex) 0 pos tl.

Definition tl_call (cb : Callback) (pos : Position) (tl : Timeline) : Timeline :=
  tl_add (Call cb) 0 pos tl.

Definition tl_addLabel (l : string) (pos : Position) (tl : Timeline) : Timeline :=
  {| tl_children := tl_children tl;
     tl_labels := <[l := resolve tl pos]> (tl_labels tl);
     tl_time := tl_time tl;
     tl_paused := tl_paused tl |}.

Definition tl_pause (tl : Timeline) : Timeline :=
  {| tl_children := tl_children tl; tl_labels := tl_labels tl;
     tl_time := tl_time tl; tl_paused := true |}.

Definition tl_play (tl : Timeline) : Timeline :=
  {| tl_children := tl_children tl; tl_labels := tl_labels tl;
     tl_time := tl_time tl; tl_paused := false |}.

Definition finished (tl : Timeline) : bool := bool_decide (duration tl ≤ tl_time tl).

(** The callbacks whose position the playhead crosses when it moves from
    [t] to [t']. *)
Definition due (t t' : Z) (c : Child) : option Callback :=
  match ch_act c with
  | Call cb =>
      if bool_decide (t < ch_start c ∧ ch_start c ≤ t') then Some cb else None
  | _ => None
  end.

(** One millisecond of playback: a paused or finished timeline does not
    move; otherwise the playhead advances and the callbacks it crosses are
    returned in insertion order. *)
Definition tl_tick (tl : Timeline) : Timeline * list Callback :=
  if tl_paused tl || finished tl then (tl, [])
  else
    ({| tl_children := tl_children tl; tl_labels := tl_labels tl;
        tl_time := tl_time tl + 1; tl_paused := tl_paused tl |},
     omap (due (tl_time tl) (tl_time tl + 1)) (tl_children tl)).

(** ** Props and animation config *)

Inductive ChildNode :=
| ElementNode (has_onClick : bool)   (* isValidElement(child) *)
| TextNode.                          (* a string or number child *)

Record Props := {
  cardDistance : Qc;
  verticalDistance : Qc;
  delay : Z;
  pauseOnHover : bool;
  has_onCardClick : bool;
  easing : string;
  children : list ChildNode
}.

Record Config := {
  ease : string;
  durDrop : Z;
  durMove : Z;
  durReturn : Z;
  promoteOverlap : Z;
  returnDelay : Z
}.

Definition config (p : Props) : Config :=
  if bool_decide (easing p = "elastic")
  then {| ease := "elastic.out(0.6,0.9)";
          durDrop := 2000; durMove := 2000; durReturn := 2000;
          promoteOverlap := 90; returnDelay := 5 |}
  else {| ease := "power1.inOut";
          durDrop := 800; durMove := 800; durReturn := 800;
          promoteOverlap := 45; returnDelay := 20 |}.

(** ** Engine state *)

Record Interval := {
  iv_id : nat;
  iv_elapsed : Z
}.

Record Engine := {
  order : list nat;                 (* order.current *)
  refs : list (option Element);     (* refs[i].current *)
  tlRef : option nat;               (* tlRef.current, an index into [timelines] *)
  timelines : list Timeline;        (* every timeline created so far *)
  intervalRef : option nat;         (* intervalRef.current, a timer id *)
  intervals : list Interval;        (* the active window.setInterval timers *)
  next_timer : nat;                 (* the id the next setInterval returns *)
  listening : bool                  (* mouseenter/mouseleave listeners attached *)
}.

Definition set_order (o : list nat) (e : Engine) : Engine :=
  {| order := o; refs := refs e; tlRef := tlRef e; timelines := timelines e;
     intervalRef := intervalRef e; intervals := intervals e;
     next_timer := next_timer e; listening := listening e |}.

Definition set_refs (r : list (option Element)) (e : Engine) : Engine :=
  {| order := order e; refs := r; tlRef := tlRef e; timelines := timelines e;
     intervalRef := intervalRef e; intervals := intervals e;
     next_timer := next_timer e; listening := listening e |}.

Definition set_timelines (tls : list Timeline) (e : Engine) : Engine :=
  {| order := order e; refs := refs e; tlRef := tlRef e; timelines := tls;
     intervalRef := intervalRef e; intervals := intervals e;
     next_timer := next_timer e; listening := listening e |}.

Definition set_intervals (ivs : list Interval) (e : Engine) : Engine :=
  {| order := order e; refs := refs e; tlRef := tlRef e; timelines := timelines e;
     intervalRef := intervalRef e; intervals := ivs;
     next_timer := next_timer e; listening := listening e |}.

Definition set_listening (b : bool) (e : Engine) : Engine :=
  {| order := order e; refs := refs e; tlRef := tlRef e; timelines := timelines e;
     intervalRef := intervalRef e; intervals := intervals e;
     next_timer := next_timer e; listening := b |}.

(** [tlRef.current = tl] for a freshly created timeline. *)
Definition new_timeline (tl : Timeline) (e : Engine) : Engine :=
  {| order := order e; refs := refs e;
     tlRef := Some (length (timelines e)); timelines := timelines e ++ [tl];
     intervalRef := intervalRef e; intervals := intervals e;
     next_timer := next_timer e; listening := listening e |}.

(** [intervalRef.current = window.setInterval(swap, delay)] *)
Definition setInterval (e : Engine) : Engine :=
  {| order := order e; refs := refs e; tlRef := tlRef e; timelines := timelines e;
     intervalRef := Some (next_timer e);
     intervals := intervals e ++ [{| iv_id := next_timer e; iv_elapsed := 0 |}];
     next_timer := S (next_timer e); listening := listening e |}.

(** [clearInterval(intervalRef.current)]; [clearInterval(undefined)] does
    nothing. *)
Definition clearInterval (e : Engine) : Engine :=
  match intervalRef e with
  | Some id => set_intervals (filter (fun iv => iv_id iv ≠ id) (intervals e)) e
  | None => e
  end.

(** ** The effect body of [CardSwap] *)

Section CardSwap.
Context (p : Props).

(** [childArr.map(() => React.createRef())] after the first commit: the
    ref of an element child holds its node ([Card] forwards its ref), the
    ref created for any other child is never attached. *)
Definition initial_refs : list (option Element) :=
  imap (fun i child =>
          match child with
          | ElementNode _ => Some i
          | TextNode => None
          end) (children p).

(** The state when the effect first runs:
    [order = Array.from({ length: childArr.length }, (_, i) => i)]. *)
Definition initial : Engine :=
  {| order := seq 0 (length (children p));
     refs := initial_refs;
     tlRef := None; timelines := [];
     intervalRef := None; intervals := [];
     next_timer := 0; listening := false |}.

(** [rest.forEach((idx, i) => ...)]: the PROMOTE phase. *)
Fixpoint promote (rfs : list (option Element)) (rest : list nat) (i : Z)
  (tl : Timeline) : result Timeline :=
  match rest with
  | [] => Ok tl
  | idx :: rest' =>
      match rfs !! idx with
      | None => TypeError
      | Some None => promote rfs rest' (i + 1) tl
      | Some (Some el) =>
          let slot :=
            makeSlot i (cardDistance p) (verticalDistance p) (Z.of_nat (length rfs)) in
          let tl := tl_set el (slot_zIndex slot) (AtLabel "promote" 0) tl in
          let tl :=
            tl_to el (MoveTo slot) (durMove (config p)) (ease (config p))
              (AtLabel "promote" (i * 150)) tl in
          let tl := tl_call (CbSetFront el (bool_decide (i = 0))) (AtLabel "promote" 0) tl in
          promote rfs rest' (i + 1) tl
      end
  end.

(** The timeline that [swap] builds once the front element is known. *)
Definition build (rfs : list (option Element)) (front : nat) (rest : list nat)
  (elFront : Element) : result Timeline :=
  let tl := timeline in
  (* DROP *)
  let tl := tl_to elFront (DropBy 500) (durDrop (config p)) (ease (config p)) AtEnd tl in
  (* PROMOTE *)
  let tl :=
    tl_addLabel "promote" (FromEnd (- (durDrop (config p) * promoteOverlap (config p) / 100))) tl in
  tl ← promote rfs rest 0 tl;
  (* RETURN *)
  let backSlot :=
    makeSlot (Z.of_nat (length rfs) - 1) (cardDistance p) (verticalDistance p)
      (Z.of_nat (length rfs)) in
  let tl :=
    tl_addLabel "return" (AtLabel "promote" (durMove (config p) * returnDelay (config p) / 100)) tl in
  let tl := tl_call (CbSetZ elFront (slot_zIndex backSlot)) (AtLabel "return" 0) tl in
  let tl :=
    tl_to elFront (MoveTo backSlot) (durReturn (config p)) (ease (config p)) (AtLabel "return" 0) tl in
  let tl := tl_call (CbSetFront elFront false) (AtLabel "return" 0) tl in
  (* UPDATE *)
  let tl := tl_call (CbCommit (rest ++ [front])) AtEnd tl in
  Ok tl.

(** [swap] *)
Definition swap (e : Engine) : result Engine :=
  if bool_decide (length (order e) < 2)%nat then Ok e
  else
    match order e with
    | [] => Ok e
    | front :: rest =>
        match refs e !! front with
        | None => TypeError
        | Some None => Ok e
        | Some (Some elFront) =>
            tl ← build (refs e) front rest elFront;
            Ok (new_timeline tl e)
        end
    end.

(** The effect of a callback on the engine state.  Only the UPDATE
    callback touches it; the others write to the DOM. *)
Definition run_callback (e : Engine) (cb : Callback) : Engine :=
  match cb with
  | CbCommit o => set_order o e
  | _ => e
  end.

(** One animation frame: every timeline advances, in creation order. *)
Definition animate (e : Engine) : Engine :=
  let ticked := map tl_tick (timelines e) in
  foldl run_callback (set_timelines (map fst ticked) e) (concat (map snd ticked)).

(** A timer fires when [delay] milliseconds have passed since it was
    armed or last fired. *)
Definition iv_fires (iv : Interval) : bool :=
  bool_decide (delay p ≤ iv_elapsed iv + 1).

Definition iv_tick (iv : Interval) : Interval :=
  {| iv_id := iv_id iv;
     iv_elapsed := if iv_fires iv then 0 else iv_elapsed iv + 1 |}.

Fixpoint swap_times (n : nat) (e : Engine) : result Engine :=
  match n with
  | O => Ok e
  | S n' => e' ← swap e; swap_times n' e'
  end.

Definition run_timers (e : Engine) : result Engine :=
  let fired := length (filter (fun iv => iv_fires iv = true) (intervals e)) in
  swap_times fired (set_intervals (map iv_tick (intervals e)) e).

(** One millisecond: the animation frame, then the timers. *)
Definition tick (e : Engine) : result Engine :=
  run_timers (animate e).

(** [pause] and [resume], the hover handlers *)
Definition pause (e : Engine) : Engine :=
  let e :=
    match tlRef e with
    | Some i => set_timelines (alter tl_pause i (timelines e)) e
    | None => e
    end in
  clearInterval e.

Definition resume (e : Engine) : Engine :=
  let e :=
    match tlRef e with
    | Some i => set_timelines (alter tl_play i (timelines e)) e
    | None => e
    end in
  setInterval e.

(** The effect: place the cards (DOM only), swap once, arm the timer and,
    when [pauseOnHover] is set, attach the hover listeners. *)
Definition mount (e : Engine) : result Engine :=
  e ← swap e;
  let e := setInterval e in
  Ok (if pauseOnHover p then set_listening true e else e).

(** The cleanup returned by the effect. *)
Definition cleanup (e : Engine) : Engine :=
  clearInterval (set_listening false e).

(** What can happen to a mounted component. *)
Inductive Event :=
| Tick                (* a millisecond passes *)
| MouseEnter
| MouseLeave
| Detach (i : nat)    (* React sets refs[i].current to null *)
| Unmount             (* the cleanup runs *)
| Rerun.              (* a dependency changes: cleanup, then the effect again *)

Definition step (e : Engine) (ev : Event) : result Engine :=
  match ev with
  | Tick => tick e
  | MouseEnter => Ok (if listening e then pause e else e)
  | MouseLeave => Ok (if listening e then resume e else e)
  | Detach i => Ok (set_refs (<[i := None]> (refs e)) e)
  | Unmount => Ok (cleanup e)
  | Rerun => mount (cleanup e)
  end.

Fixpoint run (evs : list Event) (e : Engine) : result Engine :=
  match evs with
  | [] => Ok e
  | ev :: evs' => e' ← step e ev; run evs' e'
  end.

(** [n] milliseconds without any other event. *)
Fixpoint elapse (n : nat) (e : Engine) : result Engine :=
  match n with
  | O => Ok e
  | S n' => e' ← tick e; elapse n' e'
  end.

(** The rendered children: clicking child [i] calls the child's own
    handler, if any, and then [onCardClick(i)]. *)
Inductive ClickCall :=
| ChildOnClick (i : nat)
| OnCardClick (arg : nat).

Definition rendered : list (option (list ClickCall)) :=
  imap (fun i child =>
          match child with
          | ElementNode has_onClick =>
              Some ((if has_onClick then [ChildOnClick i] else [])
                      ++ (if has_onCardClick p then [OnCardClick i] else []))
          | TextNode => None
          end) (children p).

End CardSwap.

(** The position at which card [i] is displayed: its index in the order. *)
Fixpoint display_position (i : nat) (o : list nat) : option nat :=
  match o with
  | [] => None
  | j :: o' => if bool_decide (j = i) then Some 0%nat else S <$> display_position i o'
  end.

(** The props used on the home page, for [n] plain [Card] children. *)
Definition defaults (n : nat) : Props :=
  {| cardDistance := Qc_of_Z 60; verticalDistance := Qc_of_Z 70; delay := 5000;
     pauseOnHover := false; has_onCardClick := false; easing := "elastic";
     children := replicate n (ElementNode false) |}.

Definition with_hover (p : Props) : Props :=
  {| cardDistance := cardDistance p; verticalDistance := verticalDistance p;
     delay := delay p; pauseOnHover := true; has_onCardClick := has_onCardClick p;
     easing := easing p; children := children p |}.

Definition with_onCardClick (p : Props) : Props :=
  {| cardDistance := cardDistance p; verticalDistance := verticalDistance p;
     delay := delay p; pauseOnHover := pauseOnHover p; has_onCardClick := true;
     easing := easing p; children := children p |}.

(** The component right after its effect has run. *)
Definition started (p : Props) : result Engine := mount p (initial p).

(** The number of rotation cycles that have run to completion: a cycle is
    complete when its timeline has played to the end. *)
Definition completed (e : Engine) : nat :=
  length (filter (fun tl => finished tl = true) (timelines e)).

(** ** The scroll-activated highlighter of [AboutSection] *)

Module AboutSection.

Inductive JsNumber :=
| Num (n : Z)
| NaN.

Definition digit (a : Ascii.ascii) : option Z :=
  let n := Z.of_nat (Ascii.nat_of_ascii a) in
  if bool_decide (48 ≤ n ≤ 57) then Some (n - 48) else None.

Fixpoint digits (s : string) (acc : option Z) : option Z :=
  match s with
  | EmptyString => acc
  | String a s' =>
      match digit a with
      | Some d => digits s' (Some (10 * default 0 acc + d))
      | None => acc
      end
  end.

(** [parseInt] on the result of [getAttribute]: the leading decimal
    digits, [NaN] when there are none or the attribute is missing.
    (Leading blanks, signs and radix prefixes are not modelled.) *)
Definition parseInt (s : option string) : JsNumber :=
  match s with
  | None => NaN
  | Some s =>
      match digits s None with
      | Some n => Num n
      | None => NaN
      end
  end.

(** An observed node, with its [data-card-index] attribute. *)
Record Target := { data_card_index : option string }.

Definition card0 : Target := {| data_card_index := Some "0" |}.
Definition card1 : Target := {| data_card_index := Some "1" |}.
Definition card2 : Target := {| data_card_index := Some "2" |}.

(** [const refs = [card0Ref, card1Ref, card2Ref]], all observed. *)
Definition observed : list Target := [card0; card1; card2].

Record Entry := {
  isIntersecting : bool;
  target : Target
}.

(** [useState(0)] *)
Definition initial : JsNumber := Num 0.

(** The observer callback; the calls to [setActiveCard] made while one
    batch of entries is processed leave the value of the last one. *)
Definition callback (activeCard : JsNumber) (entries : list Entry) : JsNumber :=
  foldl (fun active entry =>
           if isIntersecting entry
           then parseInt (data_card_index (target entry))
           else active)
        activeCard entries.

Definition enters (t : Target) : Entry := {| isIntersecting := true; target := t |}.
Definition leaves (t : Target) : Entry := {| isIntersecting := false; target := t |}.

(** The last entry of a batch that reports an intersection, if any. *)
Definition last_entered (entries : list Entry) : option Target :=
  target <$> last (filter (fun entry => isIntersecting entry = true) entries).

End AboutSection.

(** ** Notions used in the statements *)

(** The length of the timeline [swap] builds when every card has its
    element: the latest of the end of DROP, the end of the last PROMOTE
    tween and the end of RETURN. *)
Definition cycle_ms (p : Props) : Z :=
  let c := config p in
  let n := Z.of_nat (length (children p)) in
  let promote_at := durDrop c - durDrop c * promoteOverlap c / 100 in
  let return_at := promote_at + durMove c * returnDelay c / 100 in
  Z.max (Z.max (durDrop c) (promote_at + 150 * (n - 2) + durMove c))
        (return_at + durReturn c).

(** The element a timeline child acts on. *)
Definition target (a : Action) : option Element :=
  match a with
  | To el _ _ => Some el
  | SetZ el _ => Some el
  | Call (CbSetFront el _) => Some el
  | Call (CbSetZ el _) => Some el
  | Call (CbCommit _) => None
  end.

(** The order an UPDATE child assigns. *)
Definition commit_of (c : Child) : option (list nat) :=
  match ch_act c with
  | Call (CbCommit o) => Some o
  | _ => None
  end.

Definition commit_child (start : Z) (o : list nat) : Child :=
  {| ch_start := start; ch_dur := 0; ch_act := Call (CbCommit o) |}.

(** The order assigned by the last UPDATE callback of a batch. *)
Definition last_commit (cbs : list Callback) : option (list nat) :=
  last (omap (fun cb => match cb with CbCommit o => Some o | _ => None end) cbs).


(** The same timeline with further children. *)
Definition tl_extend (cs : list Child) (tl : Timeline) : Timeline :=
  {| tl_children := tl_children tl ++ cs; tl_labels := tl_labels tl;
     tl_time := tl_time tl; tl_paused := tl_paused tl |}.

(** [tl] is the timeline of a cycle that ends by assigning [o]: its last
    child is the UPDATE callback, placed at the end of the timeline, and no
    other child is an UPDATE. *)
Definition cycle_of (tl : Timeline) (o : list nat) : Prop :=
  ∃ cs, tl_children tl = cs ++ [commit_child (duration tl) o]
        ∧ Forall (fun c => commit_of c = None) cs.

(** Well-formed engine states for [n] cards: the order and every order a
    pending UPDATE may assign are permutations of [0..n-1], and there is one
    ref per card. *)
Record wf (n : nat) (e : Engine) : Prop := {
  wf_order : order e ≡ₚ seq 0 n;
  wf_refs : length (refs e) = n;
  wf_commits :
    Forall (fun tl =>
              Forall (fun c => ∀ o, commit_of c = Some o → o ≡ₚ seq 0 n) (tl_children tl))
           (timelines e)
}.

(** Hover events arrive alternately, beginning with [MouseEnter] when the
    pointer starts outside, and the effect neither is cleaned up nor runs
    again. *)
Fixpoint disciplined (inside : bool) (evs : list Event) : bool :=
  match evs with
  | [] => true
  | MouseEnter :: evs' => negb inside && disciplined true evs'
  | MouseLeave :: evs' => inside && disciplined false evs'
  | Unmount :: _ => false
  | Rerun :: _ => false
  | _ :: evs' => disciplined inside evs'
  end.

(** Whether the pointer is inside the container after the events. *)
Fixpoint hovering (inside : bool) (evs : list Event) : bool :=
  match evs with
  | [] => inside
  | MouseEnter :: evs' => hovering true evs'
  | MouseLeave :: evs' => hovering false evs'
  | _ :: evs' => hovering inside evs'
  end.

(** The state of an undisturbed run, [r] milliseconds after the timer
    fired for the [k]-th time ([k = 0]: after the effect ran). *)
Record Steady (p : Props) (k : nat) (r : Z) (e : Engine) : Prop := {
  st_r : 0 ≤ r < delay p;
  st_order :
    order e =
      rotate (k + (if decide (r < cycle_ms p) then 0 else 1)) (seq 0 (length (children p)));
  st_refs : refs e = initial_refs p;
  st_intervals : intervals e = [{| iv_id := 0; iv_elapsed := r |}];
  st_timelines :
    ∃ past tl,
      timelines e = past ++ [tl]
      ∧ length past = k
      ∧ Forall (fun tl => finished tl = true) past
      ∧ tl_paused tl = false
      ∧ tl_time tl = Z.min r (cycle_ms p)
      ∧ duration tl = cycle_ms p
      ∧ cycle_of tl (rotate (k + 1) (seq 0 (length (children p))))
}.

(** The states of a mounted component under [disciplined] events; [paused]
    tells whether the hover handlers have paused it.  Either no timer is
    armed and the timeline [tlRef] holds is paused, or the one timer is the
    one [intervalRef] holds and the timeline [tlRef] holds has played at
    least as long as that timer has run.  Every other timeline has
    finished, and none is longer than [cycle_ms]. *)
Record Calm (p : Props) (paused : bool) (e : Engine) : Prop := {
  calm_wf : wf (length (children p)) e;
  calm_listening : listening e = pauseOnHover p;
  calm_timelines :
    ∀ i tl, timelines e !! i = Some tl →
      duration tl ≤ cycle_ms p ∧ 0 ≤ tl_time tl
      ∧ (finished tl = true ∨ tlRef e = Some i);
  calm_mode :
    if paused
    then intervals e = []
         ∧ ∀ i tl, tlRef e = Some i → timelines e !! i = Some tl → tl_paused tl = true
    else ∃ id r,
        intervals e = [{| iv_id := id; iv_elapsed := r |}]
        ∧ intervalRef e = Some id
        ∧ 0 ≤ r < delay p
        ∧ ∀ i tl, tlRef e = Some i → timelines e !! i = Some tl →
            tl_paused tl = false ∧ Z.min r (duration tl) ≤ tl_time tl
}.

(** Cycles that ran one after the other: [tlRef] holds the timeline created
    last, the [i]-th timeline ends by assigning the identity rotated by
    [i + 1], and the order is the identity rotated by the number of
    completed cycles. *)
Record Serial (p : Props) (e : Engine) : Prop := {
  ser_last :
    match tlRef e with
    | None => timelines e = []
    | Some i => S i = length (timelines e)
    end;
  ser_cycles :
    ∀ i tl, timelines e !! i = Some tl →
      cycle_of tl (rotate (S i) (seq 0 (length (children p))));
  ser_order : order e = rotate (completed e) (seq 0 (length (children p)))
}.

(** ** The schedule of a cycle *)

(** The children a timeline holds for one element, in insertion order. *)
Definition children_for (el : Element) (tl : Timeline) : list Child :=
  filter (fun c => target (ch_act c) = Some el) (tl_children tl).

(** The children the PROMOTE loop adds for the cards [rest], the first of
    them being the [i]-th of the loop, to a timeline whose label [promote]
    is at [P]. *)
Fixpoint promoted (p : Props) (rfs : list (option Element)) (rest : list nat)
  (i : Z) (P : Z) : list Child :=
  match rest with
  | [] => []
  | idx :: rest' =>
      match rfs !! idx with
      | Some (Some el) =>
          let slot :=
            makeSlot i (cardDistance p) (verticalDistance p) (Z.of_nat (length rfs)) in
          [ {| ch_start := P; ch_dur := 0; ch_act := SetZ el (slot_zIndex slot) |};
            {| ch_start := P + i * 150; ch_dur := durMove (config p);
               ch_act := To el (MoveTo slot) (ease (config p)) |};
            {| ch_start := P; ch_dur := 0;
               ch_act := Call (CbSetFront el (bool_decide (i = 0))) |} ]
            ++ promoted p rfs rest' (i + 1) P
      | _ => promoted p rfs rest' (i + 1) P
      end
  end.

(** The refs of a mounted component: the ref of child [i] holds node [i]
    or has been cleared. *)
Definition refs_ok (e : Engine) : Prop :=
  ∀ i el, refs e !! i = Some (Some el) → el = i.

(** What a timeline leaves on an element once it has played to its end:
    the slot of the last tween that moves the element to a slot, the last
    [zIndex] written, and the last value of [data-is-front]. *)
Definition slot_after (el : Element) (tl : Timeline) : option Slot :=
  last (omap (fun c => match ch_act c with
                       | To _ (MoveTo s) _ => Some s
                       | _ => None
                       end) (children_for el tl)).

Definition zIndex_after (el : Element) (tl : Timeline) : option Z :=
  last (omap (fun c => match ch_act c with
                       | SetZ _ z => Some z
                       | Call (CbSetZ _ z) => Some z
                       | _ => None
                       end) (children_for el tl)).

Definition is_front_after (el : Element) (tl : Timeline) : option bool :=
  last (omap (fun c => match ch_act c with
                       | Call (CbSetFront _ b) => Some b
                       | _ => None
                       end) (children_for el tl)).

(** ** Timers *)

(** The state of a component all of whose children are elements, [r]
    milliseconds after the timer fired for the [k]-th time: one timer, and
    [k + 1] timelines created so far. *)
Record Punctual (p : Props) (k : nat) (r : Z) (e : Engine) : Prop := {
  pu_wf : wf (length (children p)) e;
  pu_refs : refs e = initial_refs p;
  pu_intervals : intervals e = [{| iv_id := 0; iv_elapsed := r |}];
  pu_r : 0 ≤ r < delay p;
  pu_count : length (timelines e) = S k
}.

(** Hover events arrive alternately, beginning with [MouseEnter] when the
    pointer starts outside; the effect runs again only while the pointer is
    outside, and it is not cleaned up for good. *)
Fixpoint orderly (inside : bool) (evs : list Event) : bool :=
  match evs with
  | [] => true
  | MouseEnter :: evs' => negb inside && orderly true evs'
  | MouseLeave :: evs' => inside && orderly false evs'
  | Unmount :: _ => false
  | Rerun :: evs' => negb inside && orderly false evs'
  | _ :: evs' => orderly inside evs'
  end.

(** The timers of a mounted component under [orderly] events: none while
    the hover handlers have paused it, otherwise exactly the one that
    [intervalRef] holds. *)
Record Tidy (p : Props) (paused : bool) (e : Engine) : Prop := {
  tidy_wf : wf (length (children p)) e;
  tidy_listening : listening e = pauseOnHover p;
  tidy_timers :
    if paused then intervals e = []
    else ∃ id r, intervals e = [{| iv_id := id; iv_elapsed := r |}]
                 ∧ intervalRef e = Some id
}.

(** ** The cards of [AboutSection] *)

(** [activeCard === k] *)
Definition strict_eq (activeCard : AboutSection.JsNumber) (k : Z) : bool :=
  match activeCard with
  | AboutSection.Num n => bool_decide (n = k)
  | AboutSection.NaN => false
  end.

(** The filter class of the card with index [k]:
    [activeCard === k ? 'grayscale-0' : 'grayscale']. *)
Definition card_filter (activeCard : AboutSection.JsNumber) (k : Z) : string :=
  if strict_eq activeCard k then "grayscale-0" else "grayscale".

(** The filter classes of the three cards, as rendered. *)
Definition card_filters (activeCard : AboutSection.JsNumber) : list string :=
  [card_filter activeCard 0; card_filter activeCard 1; card_filter activeCard 2].

(** The state after the observer has delivered the batches, one call of
    the callback per batch. *)
Definition deliveries (batches : list (list AboutSection.Entry)) : AboutSection.JsNumber :=
  foldl AboutSection.callback AboutSection.initial batches.

(** The observer of the effect: the nodes it observes.  Observing a node
    twice has no further effect. *)
Global Instance Target_eq_dec : EqDecision AboutSection.Target.
Proof. solve_decision. Defined.

Definition observe (t : AboutSection.Target) (observing : list AboutSection.Target)
  : list AboutSection.Target :=
  if decide (t ∈ observing) then observing else observing ++ [t].

Definition unobserve (t : AboutSection.Target) (observing : list AboutSection.Target)
  : list AboutSection.Target :=
  filter (fun t' => t' ≠ t) observing.

(** [refs.forEach(ref => { if (ref.current) observer.observe(ref.current) })],
    for the values [ref.current] has when the effect runs. *)
Definition observe_refs (refs : list (option AboutSection.Target))
  (observing : list AboutSection.Target) : list AboutSection.Target :=
  foldl (fun obs r => match r with Some t => observe t obs | None => obs end) observing refs.

(** The cleanup, for the values [ref.current] has when the cleanup runs. *)
Definition unobserve_refs (refs : list (option AboutSection.Target))
  (observing : list AboutSection.Target) : list AboutSection.Target :=
  foldl (fun obs r => match r with Some t => unobserve t obs | None => obs end) observing refs.

(** ** JavaScript numbers: IEEE 754 doubles

    A finite double is a rational [m * 2^q] with [|m| < 2^53] and
    [-1074 <= q].  Every arithmetic operation returns the exact result
    rounded to the nearest such number, ties to the one with an even [m];
    a result that rounds to [2^1024] or beyond is infinite. *)

Definition pow2 (k : Z) : Q := (2 ^ k)%Q.

(** The nearest integer, ties to the even one. *)
Definition rne (x : Q) : Z :=
  let f := Qfloor x in
  match (x - inject_Z f ?= 1 # 2)%Q with
  | Lt => f
  | Gt => f + 1
  | Eq => if Z.even f then f else f + 1
  end.

(** The binary exponent of [a > 0]: [2^(ilog2 a) <= a < 2^(ilog2 a + 1)]. *)
Definition ilog2 (a : Q) : Z :=
  let k := Z.log2 (Qnum a) - Z.log2 (Z.pos (Qden a)) in
  if Qle_bool (pow2 k) a then k else k - 1.

(** The exponent of the last place of a double near [a]: 52 binary places
    below the leading one, and never below that of the subnormal numbers. *)
Definition quantum (a : Q) : Z := Z.max (ilog2 a) (-1022) - 52.

(** [a] rounded to a multiple of [2^q]. *)
Definition at_scale (q : Z) (a : Q) : Q := (inject_Z (rne (a / pow2 q)) * pow2 q)%Q.

(** [a > 0] rounded at its own scale. *)
Definition rpos (a : Q) : Q := at_scale (quantum a) a.

(** Rounding to nearest, ties to even, with unbounded exponent range
    upwards; [Number.of_Q] turns what is too large into an infinity. *)
Definition round64 (x : Q) : Q :=
  if Qeq_bool x 0 then 0%Q
  else if Qle_bool 0 x then rpos (Qabs x) else (- rpos (Qabs x))%Q.

Module Number.

(** A JavaScript number.  The sign of a zero is not kept: of the
    operations used below ([+], [-], [*], conversion to a string) none
    tells [-0] from [0]. *)
Inductive t :=
| Finite (q : Qc)
| PosInfinity
| NegInfinity
| NaN.

(** The double nearest to a rational: a numeric literal, or the result of
    an operation on finite operands. *)
Definition of_Q (x : Q) : t :=
  let r := round64 x in
  if Qle_bool (pow2 1024) (Qabs r)
  then (if Qle_bool 0 r then PosInfinity else NegInfinity)
  else Finite (Q2Qc r).

(** [a + b] *)
Definition add (a b : t) : t :=
  match a, b with
  | NaN, _ | _, NaN => NaN
  | PosInfinity, NegInfinity | NegInfinity, PosInfinity => NaN
  | PosInfinity, _ | _, PosInfinity => PosInfinity
  | NegInfinity, _ | _, NegInfinity => NegInfinity
  | Finite p, Finite q => of_Q (p + q)
  end.

(** [a - b] *)
Definition sub (a b : t) : t :=
  match a, b with
  | NaN, _ | _, NaN => NaN
  | PosInfinity, PosInfinity | NegInfinity, NegInfinity => NaN
  | PosInfinity, _ | _, NegInfinity => PosInfinity
  | NegInfinity, _ | _, PosInfinity => NegInfinity
  | Finite p, Finite q => of_Q (p - q)
  end.

Definition sign (a : t) : comparison :=
  match a with
  | Finite q => (q ?= 0)%Q
  | PosInfinity => Gt
  | NegInfinity => Lt
  | NaN => Eq
  end.

(** [a * b] *)
Definition mul (a b : t) : t :=
  match a, b with
  | NaN, _ | _, NaN => NaN
  | Finite p, Finite q => of_Q (p * q)
  | _, _ =>
      match sign a, sign b with
      | Eq, _ | _, Eq => NaN
      | Gt, Gt | Lt, Lt => PosInfinity
      | _, _ => NegInfinity
      end
  end.

(** [a <= b] *)
Definition le (a b : t) : bool :=
  match a, b with
  | NaN, _ | _, NaN => false
  | NegInfinity, _ | _, PosInfinity => true
  | _, NegInfinity | PosInfinity, _ => false
  | Finite p, Finite q => Qle_bool p q
  end.

(** A double of absolute value at most [2^1022]: the difference of two
    such numbers does not overflow.  Coordinates of a viewport are of this
    kind. *)
Definition moderate (a : t) : bool :=
  match a with
  | Finite q => Qeq_bool (round64 q) q && Qle_bool (Qabs q) (pow2 1022)
  | _ => false
  end.

End Number.

(** ** [CursorFollow]: the cursor that trails the pointer *)

Module CursorFollow.

Record Point := { x : Number.t; y : Number.t }.

Record State := {
  positionRef : Point;          (* positionRef.current *)
  targetRef : Point;            (* targetRef.current *)
  animationRef : option nat;    (* animationRef.current: null, or a request id *)
  transform : option Point;     (* cursor.style.transform: translate(x px, y px) *)
  frames : list nat;            (* the requests of [animate] the browser holds *)
  next_frame : nat;             (* the id the next requestAnimationFrame returns *)
  listening : bool              (* the mousemove listener is attached *)
}.

(** Before the effect runs.  Request ids are positive. *)
Definition initial : State :=
  {| positionRef := {| x := Number.Finite 0; y := Number.Finite 0 |};
     targetRef := {| x := Number.Finite 0; y := Number.Finite 0 |};
     animationRef := None; transform := None;
     frames := []; next_frame := 1; listening := false |}.

(** [const speed = 0.15]: the double nearest to 15/100. *)
Definition speed : Number.t := Number.of_Q (15 # 100).

(** [handleMouseMove] *)
Definition handleMouseMove (clientX clientY : Number.t) (s : State) : State :=
  {| positionRef := positionRef s; targetRef := {| x := clientX; y := clientY |};
     animationRef := animationRef s; transform := transform s;
     frames := frames s; next_frame := next_frame s; listening := listening s |}.

(** [animationRef.current = requestAnimationFrame(animate)] *)
Definition requestAnimationFrame (s : State) : State :=
  {| positionRef := positionRef s; targetRef := targetRef s;
     animationRef := Some (next_frame s); transform := transform s;
     frames := frames s ++ [next_frame s]; next_frame := S (next_frame s);
     listening := listening s |}.

(** One step towards the target:
    [position += (target - position) * speed]. *)
Definition approach (position target : Number.t) : Number.t :=
  Number.add position (Number.mul (Number.sub target position) speed).

(** [animate] *)
Definition animate (s : State) : State :=
  let position :=
    {| x := approach (x (positionRef s)) (x (targetRef s));
       y := approach (y (positionRef s)) (y (targetRef s)) |} in
  requestAnimationFrame
    {| positionRef := position; targetRef := targetRef s;
       animationRef := animationRef s; transform := Some position;
       frames := frames s; next_frame := next_frame s; listening := listening s |}.

(** The effect, for a cursor node that exists. *)
Definition effect (s : State) : State :=
  requestAnimationFrame
    {| positionRef := positionRef s; targetRef := targetRef s;
       animationRef := animationRef s; transform := transform s;
       frames := frames s; next_frame := next_frame s; listening := true |}.

(** The cleanup: the listener is removed, and the request
    [animationRef.current] names is cancelled unless that value is falsy
    ([null] or 0). *)
Definition cleanup (s : State) : State :=
  {| positionRef := positionRef s; targetRef := targetRef s;
     animationRef := animationRef s; transform := transform s;
     frames :=
       match animationRef s with
       | Some id => if bool_decide (id = 0%nat) then frames s
                    else filter (fun f => f ≠ id) (frames s)
       | None => frames s
       end;
     next_frame := next_frame s; listening := false |}.

Inductive Event :=
| MouseMove (clientX clientY : Number.t)
| Frame       (* the browser runs the animation-frame callbacks it holds *)
| Unmount.

(** A frame runs the callbacks requested before it; a request made while
    they run waits for the next frame. *)
Definition frame (s : State) : State :=
  foldl (fun s _ => animate s)
    {| positionRef := positionRef s; targetRef := targetRef s;
       animationRef := animationRef s; transform := transform s;
       frames := []; next_frame := next_frame s; listening := listening s |}
    (frames s).

Definition step (s : State) (ev : Event) : State :=
  match ev with
  | MouseMove clientX clientY =>
      if listening s then handleMouseMove clientX clientY s else s
  | Frame => frame s
  | Unmount => cleanup s
  end.

Definition run (evs : list Event) (s : State) : State := foldl step s evs.

(** The component with its cursor node, after the effect has run. *)
Definition started : State := effect initial.

End CursorFollow.

(** ** [ImageModal] *)

Module ImageModal.

(** What the effect touches of the document.  A [handleEscape] closure is
    named by the number of the effect run that created it. *)
Record Document := {
  keydown : list nat;          (* the keydown listeners of the document *)
  overflow : option string     (* document.body.style.overflow, once set *)
}.

(** The effect body, for the closure [h] it creates. *)
Definition effect (isOpen : bool) (h : nat) (d : Document) : Document :=
  if isOpen
  then {| keydown := keydown d ++ [h]; overflow := Some "hidden" |}
  else d.

(** The cleanup the effect returns. *)
Definition cleanup (h : nat) (d : Document) : Document :=
  {| keydown := filter (fun h' => h' ≠ h) (keydown d); overflow := Some "unset" |}.

(** [handleEscape]: whether it calls [onClose]. *)
Definition handleEscape (key : string) : bool := bool_decide (key = "Escape").

(** A mounted modal: the document, the closure of the effect run in force
    (its cleanup is pending), and the number of the next effect run. *)
Record Mounted := {
  doc : Document;
  pending : option nat;
  next_run : nat
}.

Definition fresh : Mounted :=
  {| doc := {| keydown := []; overflow := None |}; pending := None; next_run := 0 |}.

Definition run_cleanup (m : Mounted) : Document :=
  match pending m with
  | Some h => cleanup h (doc m)
  | None => doc m
  end.

(** A commit in which the effect runs (the first one, or one for which
    [isOpen] or [onClose] has changed): the pending cleanup, then the
    effect. *)
Definition commit (m : Mounted) (isOpen : bool) : Mounted :=
  {| doc := effect isOpen (next_run m) (run_cleanup m);
     pending := Some (next_run m);
     next_run := S (next_run m) |}.

Definition unmount (m : Mounted) : Mounted :=
  {| doc := run_cleanup m; pending := None; next_run := next_run m |}.

(** The number of calls of [onClose] a key press makes: one per listener
    when the key is Escape. *)
Definition keypress (key : string) (m : Mounted) : nat :=
  if handleEscape key then length (keydown (doc m)) else 0%nat.

(** The nodes rendered while the modal is open. *)
Inductive Node :=
| Backdrop          (* the outer div, onClick={onClose} *)
| Window            (* the inner div, onClick stops propagation *)
| Header
| Dots
| CloseDot          (* the red button, onClick={onClose} *)
| MinimizeDot
| MaximizeDot
| Title
| CloseButton       (* the button at the right, onClick={onClose} *)
| CloseIcon
| ImageContainer
| Picture.

Definition parent (n : Node) : option Node :=
  match n with
  | Backdrop => None
  | Window => Some Backdrop
  | Header => Some Window
  | Dots => Some Header
  | CloseDot => Some Dots
  | MinimizeDot => Some Dots
  | MaximizeDot => Some Dots
  | Title => Some Header
  | CloseButton => Some Header
  | CloseIcon => Some CloseButton
  | ImageContainer => Some Window
  | Picture => Some ImageContainer
  end.

Inductive Handler :=
| CallOnClose
| StopPropagation.

Definition onClick (n : Node) : option Handler :=
  match n with
  | Backdrop => Some CallOnClose
  | Window => Some StopPropagation
  | CloseDot => Some CallOnClose
  | CloseButton => Some CallOnClose
  | _ => None
  end.

(** A click bubbles from its target towards the root and runs the click
    handlers on its way, until one stops the propagation; the result is
    the number of calls of [onClose].  The tree is five nodes deep. *)
Fixpoint bubble (depth : nat) (n : Node) : nat :=
  match depth with
  | O => 0%nat
  | S depth' =>
      let up := match parent n with
                | Some n' => bubble depth' n'
                | None => 0%nat
                end in
      match onClick n with
      | Some CallOnClose => S up
      | Some StopPropagation => 0%nat
      | None => up
      end
  end.

Definition click (n : Node) : nat := bubble 6 n.

End ImageModal.

(** ** The home page: theme and image modal *)

Module Home.

Record Image := { src : string; alt : string }.

Record State := {
  modalImage : option Image;         (* useState(null) *)
  theme : string;                    (* useState('dark') *)
  backgroundColor : option string;   (* document.body.style.backgroundColor *)
  className : option string;         (* document.body.className *)
  modal : ImageModal.Mounted         (* the [ImageModal] the page renders *)
}.

(** The effect that depends on [theme]. *)
Definition theme_effect (s : State) : State :=
  {| modalImage := modalImage s; theme := theme s;
     backgroundColor := Some (if bool_decide (theme s = "dark") then "black" else "white");
     className := Some (theme s);
     modal := modal s |}.

(** [isOpen={!!modalImage}] *)
Definition isOpen (s : State) : bool :=
  match modalImage s with
  | Some _ => true
  | None => false
  end.

(** The commit of a render.  [ImageModal] gets a new [onClose] closure on
    every render of the page, so its effect runs on every commit. *)
Definition commit (s : State) : State :=
  {| modalImage := modalImage s; theme := theme s;
     backgroundColor := backgroundColor s; className := className s;
     modal := ImageModal.commit (modal s) (isOpen s) |}.

(** The page after its first commit. *)
Definition mounted : State :=
  theme_effect
    (commit
       {| modalImage := None; theme := "dark";
          backgroundColor := None; className := None;
          modal := ImageModal.fresh |}).

(** [setModalImage]: setting [null] while the state is [null] causes no
    render; an image object is always a new value. *)
Definition setModalImage (v : option Image) (s : State) : State :=
  match v, modalImage s with
  | None, None => s
  | _, _ =>
      commit
        {| modalImage := v; theme := theme s;
           backgroundColor := backgroundColor s; className := className s;
           modal := modal s |}
  end.

(** [toggleTheme], with the render it causes. *)
Definition toggleTheme (s : State) : State :=
  theme_effect
    (commit
       {| modalImage := modalImage s;
          theme := if bool_decide (theme s = "dark") then "light" else "dark";
          backgroundColor := backgroundColor s; className := className s;
          modal := modal s |}).

(** [onClose={() => setModalImage(null)}] *)
Definition onClose (s : State) : State := setModalImage None s.

Inductive Event :=
| ToggleTheme
| ClickScreenshot (img : Image)
| KeyDown (key : string)
| Click (n : ImageModal.Node).    (* a click on a node of the open modal *)

Definition step (s : State) (ev : Event) : State :=
  match ev with
  | ToggleTheme => toggleTheme s
  | ClickScreenshot img => setModalImage (Some img) s
  | KeyDown key =>
      if bool_decide (0 < ImageModal.keypress key (modal s))%nat then onClose s else s
  | Click n =>
      if isOpen s && bool_decide (0 < ImageModal.click n)%nat then onClose s else s
  end.

Definition run (evs : list Event) (s : State) : State := foldl step s evs.

(** The number of [ToggleTheme] events. *)
Fixpoint toggles (evs : list Event) : nat :=
  match evs with
  | [] => 0%nat
  | ToggleTheme :: evs' => S (toggles evs')
  | _ :: evs' => toggles evs'
  end.

End Home.

(** ** Where the cards rest *)

(** [tl] has the children of the timeline that [swap] builds from the
    order [o] when every card has its element. *)
Definition built (p : Props) (o : list nat) (tl : Timeline) : Prop :=
  ∃ front rest tl0,
    o = front :: rest ∧ rest ≠ []
    ∧ build p (initial_refs p) front rest front = Ok tl0
    ∧ tl_children tl = tl_children tl0.

(** ** The placement loop of the effect *)

(** What the effect writes for one card before it calls [swap]: the slot
    [placeNow] puts the element in, and [data-is-front]. *)
Record Placed := {
  pl_el : Element;
  pl_slot : Slot;
  pl_front : bool
}.

(** [refs.forEach((r, i) => { placeNow(r.current, makeSlot(i, ...), skewAmount); ... })],
    for the refs that hold an element. *)
Definition place (p : Props) (rfs : list (option Element)) : list Placed :=
  omap id
    (imap (fun i r =>
             (fun el =>
                {| pl_el := el;
                   pl_slot :=
                     makeSlot (Z.of_nat i) (cardDistance p) (verticalDistance p)
                       (Z.of_nat (length rfs));
                   pl_front := bool_decide (i = 0%nat) |}) <$> r)
          rfs).

(** The effect body together with what its placement loop writes: the
    loop runs first, then [swap], the timer and the listeners. *)
Definition effect (p : Props) (e : Engine) : result (list Placed * Engine) :=
  let placed := place p (refs e) in
  e' ← mount p e;
  Ok (placed, e').

(** * Properties *)

(** ** Slot geometry *)

(** C2. [makeSlot] is a total function of its arguments.  For every
    position [i] and every [total] the slot has x = i·distX, y = −(i·distY),
    z = −(i·distX·1.5) and zIndex = total − i.  The zIndex strictly
    decreases with the position; for the positions [0 ≤ i < total] it lies
    between 1 (the last position, [total − 1]) and [total] (position 0),
    and only position 0 has the highest one. *)
Theorem makeSlot_geometry (i j total : Z) (distX distY : Qc) :
  slot_x (makeSlot i distX distY total) = (Qc_of_Z i * distX)%Qc
  ∧ slot_y (makeSlot i distX distY total) = (- (Qc_of_Z i * distY))%Qc
  ∧ slot_z (makeSlot i distX distY total) = (- (Qc_of_Z i * distX * Q2Qc (3 # 2)))%Qc
  ∧ slot_zIndex (makeSlot i distX distY total) = total - i
  ∧ (i < j →
     slot_zIndex (makeSlot j distX distY total) < slot_zIndex (makeSlot i distX distY total))
  ∧ (0 ≤ i < total → 1 ≤ slot_zIndex (makeSlot i distX distY total) ≤ total)
  ∧ slot_zIndex (makeSlot (total - 1) distX distY total) = 1
  ∧ slot_zIndex (makeSlot 0 distX distY total) = total
  ∧ (slot_zIndex (makeSlot i distX distY total) = total ↔ i = 0).
Proof.
  cbn [makeSlot slot_x slot_y slot_z slot_zIndex].
  repeat split; try ring; lia.
Qed.

(** The last of three slots, the one the RETURN phase moves the front card
    to, and the only slot of a single card. *)
Lemma makeSlot_geometry_witness :
  makeSlot 2 (Qc_of_Z 60) (Qc_of_Z 70) 3 =
    {| slot_x := Qc_of_Z 120; slot_y := Qc_of_Z (-140); slot_z := Qc_of_Z (-180);
       slot_zIndex := 1 |}
  ∧ slot_zIndex (makeSlot 0 (Qc_of_Z 60) (Qc_of_Z 70) 1) = 1.
Proof.
  destruct (makeSlot_geometry 2 2 3 (Qc_of_Z 60) (Qc_of_Z 70))
    as (Hx & Hy & Hz & Hi & _).
  destruct (makeSlot_geometry 0 0 1 (Qc_of_Z 60) (Qc_of_Z 70))
    as (_ & _ & _ & Hi0 & _).
  split; [|exact Hi0].
  destruct (makeSlot 2 (Qc_of_Z 60) (Qc_of_Z 70) 3) as [x y z zi].
  cbn [slot_x slot_y slot_z slot_zIndex] in Hx, Hy, Hz, Hi.
  rewrite Hx, Hy, Hz, Hi.
  f_equal; by apply Qc_is_canon.
Defined.

(** ** The scroll-activated highlighter *)

Lemma callback_snoc active entries entry :
  AboutSection.callback active (entries ++ [entry]) =
    if AboutSection.isIntersecting entry
    then AboutSection.parseInt (AboutSection.data_card_index (AboutSection.target entry))
    else AboutSection.callback active entries.
Proof. unfold AboutSection.callback. by rewrite foldl_app. Qed.

(** C9. The highlighter state is one index, initially 0.  After a batch of
    observer entries it is the index of the last region reported as
    intersecting, and it is unchanged when the batch reports none; the
    three observed regions carry the indices 0, 1 and 2.  Region 2 entering
    makes 2 active, region 0 entering afterwards makes 0 active. *)
Theorem active_card_last_entered (active : AboutSection.JsNumber)
  (entries : list AboutSection.Entry) :
  AboutSection.initial = AboutSection.Num 0
  ∧ AboutSection.callback active entries =
      match AboutSection.last_entered entries with
      | Some t => AboutSection.parseInt (AboutSection.data_card_index t)
      | None => active
      end
  ∧ map (fun t => AboutSection.parseInt (AboutSection.data_card_index t))
        AboutSection.observed
    = [AboutSection.Num 0; AboutSection.Num 1; AboutSection.Num 2]
  ∧ AboutSection.callback AboutSection.initial [AboutSection.enters AboutSection.card2]
    = AboutSection.Num 2
  ∧ AboutSection.callback
      (AboutSection.callback AboutSection.initial [AboutSection.enters AboutSection.card2])
      [AboutSection.enters AboutSection.card0]
    = AboutSection.Num 0.
Proof.
  split; [done|]. split; [|by vm_compute].
  induction entries as [|entry entries IH] using rev_ind; [done|].
  rewrite callback_snoc. unfold AboutSection.last_entered in *.
  rewrite filter_app, filter_cons, filter_nil.
  destruct (AboutSection.isIntersecting entry) eqn:He.
  - rewrite decide_True by done. by rewrite last_snoc.
  - rewrite decide_False by done. by rewrite app_nil_r.
Qed.

(** ** [swap] when nothing can rotate *)

Lemma swap_short p e : (length (order e) < 2)%nat → swap p e = Ok e.
Proof. intros H. unfold swap. by rewrite bool_decide_eq_true_2. Qed.

Lemma swap_times_short p k e : (length (order e) < 2)%nat → swap_times p k e = Ok e.
Proof.
  intros H. induction k as [|k IH]; [done|].
  cbn [swap_times]. by rewrite swap_short.
Qed.

Lemma swap_front_null p e front rest :
  order e = front :: rest → refs e !! front = Some None → swap p e = Ok e.
Proof.
  intros Ho Hf. unfold swap. rewrite Ho, Hf. by case_bool_decide.
Qed.

(** C10. When the ref of the front card is null, [swap] returns the state
    it was given: no timeline is created for any card, no UPDATE is
    scheduled and the order is unchanged. *)
Theorem swap_skips_cycle_without_front (p : Props) (e : Engine)
  (front : nat) (rest : list nat) :
  order e = front :: rest →
  refs e !! front = Some None →
  swap p e = Ok e.
Proof.
  apply swap_front_null.
Qed.

Lemma swap_skips_cycle_without_front_witness :
  swap (defaults 3) (set_refs [None; Some 1%nat; Some 2%nat] (initial (defaults 3)))
  = Ok (set_refs [None; Some 1%nat; Some 2%nat] (initial (defaults 3))).
Proof.
  apply (swap_skips_cycle_without_front (defaults 3) _ 0%nat [1; 2]%nat); reflexivity.
Defined.

(** ** Timelines *)

Lemma span_nonneg cs : 0 ≤ span cs.
Proof.
  induction cs as [|c cs IH]; [done|].
  change (span (c :: cs)) with (Z.max (child_end c) (span cs)). lia.
Qed.

Lemma span_app cs1 cs2 : span (cs1 ++ cs2) = Z.max (span cs1) (span cs2).
Proof.
  induction cs1 as [|c cs1 IH].
  - change (span ([] ++ cs2)) with (span cs2). change (span []) with 0.
    pose proof (span_nonneg cs2). lia.
  - change (span ((c :: cs1) ++ cs2)) with (Z.max (child_end c) (span (cs1 ++ cs2))).
    change (span (c :: cs1)) with (Z.max (child_end c) (span cs1)). lia.
Qed.

Lemma span_elem c cs : c ∈ cs → child_end c ≤ span cs.
Proof.
  induction cs as [|c' cs IH]; [by rewrite elem_of_nil|].
  rewrite elem_of_cons. change (span (c' :: cs)) with (Z.max (child_end c') (span cs)).
  intros [-> | H]; [lia|]. specialize (IH H). lia.
Qed.

Lemma span_upper cs m : 0 ≤ m → Forall (fun c => child_end c ≤ m) cs → span cs ≤ m.
Proof.
  intros Hm. induction 1 as [|c cs Hc _ IH]; [done|].
  change (span (c :: cs)) with (Z.max (child_end c) (span cs)). lia.
Qed.

Lemma config_cases p :
  config p = {| ease := "elastic.out(0.6,0.9)";
                durDrop := 2000; durMove := 2000; durReturn := 2000;
                promoteOverlap := 90; returnDelay := 5 |}
  ∨ config p = {| ease := "power1.inOut";
                  durDrop := 800; durMove := 800; durReturn := 800;
                  promoteOverlap := 45; returnDelay := 20 |}.
Proof. unfold config. case_bool_decide; auto. Qed.

Lemma config_bounds p :
  0 < durDrop (config p)
  ∧ 0 ≤ durMove (config p)
  ∧ 0 ≤ durReturn (config p)
  ∧ 0 ≤ durDrop (config p) * promoteOverlap (config p) / 100 ≤ durDrop (config p)
  ∧ 0 ≤ durMove (config p) * returnDelay (config p) / 100.
Proof. destruct (config_cases p) as [-> | ->]; repeat split; by vm_compute. Qed.

Lemma tl_extend_extend cs1 cs2 tl :
  tl_extend cs2 (tl_extend cs1 tl) = tl_extend (cs1 ++ cs2) tl.
Proof. unfold tl_extend. cbn. by rewrite app_assoc. Qed.

Lemma tl_add_extend act d pos tl :
  tl_add act d pos tl =
    tl_extend [{| ch_start := resolve tl pos; ch_dur := d; ch_act := act |}] tl.
Proof. done. Qed.

Lemma duration_tl_extend cs tl :
  duration (tl_extend cs tl) = Z.max (duration tl) (span cs).
Proof. unfold duration, tl_extend. cbn. apply span_app. Qed.

(** What the PROMOTE loop adds to a timeline that carries the label
    [promote] at [P]: nothing for a card whose ref is null, three children
    for every other card, none of them an UPDATE. *)
Lemma promote_spec p rfs rest i tl P :
  tl_labels tl !! "promote" = Some P →
  Forall (fun idx => (idx < length rfs)%nat) rest →
  0 ≤ i →
  ∃ added,
    promote p rfs rest i tl = Ok (tl_extend added tl)
    ∧ Forall (fun c =>
                commit_of c = None
                ∧ (∀ el, target (ch_act c) = Some el → Some el ∈ rfs)
                ∧ P ≤ child_end c
                    ≤ P + (i + Z.of_nat (length rest) - 1) * 150 + durMove (config p))
             added
    ∧ Forall (fun idx => ∀ el, rfs !! idx = Some (Some el) →
                ∃ c, c ∈ added ∧ target (ch_act c) = Some el) rest
    ∧ (Forall (fun idx => ∃ el, rfs !! idx = Some (Some el)) rest → rest ≠ [] →
       ∃ c, c ∈ added
            ∧ child_end c = P + (i + Z.of_nat (length rest) - 1) * 150 + durMove (config p)).
Proof.
  intros HP Hrest. revert i tl HP.
  induction Hrest as [|idx rest Hidx Hrest IH]; intros i tl HP Hi.
  { exists []. split; [|by repeat split].
    cbn. f_equal. destruct tl; unfold tl_extend; cbn. by rewrite app_nil_r. }
  pose proof (config_bounds p) as (_ & Hmove & _).
  cbn [promote]. apply lookup_lt_is_Some_2 in Hidx as [[el|] Hel]; rewrite Hel.
  - set (slot := makeSlot i (cardDistance p) (verticalDistance p) (Z.of_nat (length rfs))).
    unfold tl_set, tl_to, tl_call. rewrite !tl_add_extend, !tl_extend_extend.
    cbn [resolve tl_extend tl_labels]. rewrite HP.
    change (default ?d (Some P)) with P. cbn [app].
    match goal with |- context [promote _ _ _ _ ?tl'] => set (tl1 := tl') end.
    destruct (IH (i + 1) tl1) as (added & Hrun & Hall & Hsched & Hlast); [done|lia|].
    rewrite Hrun. unfold tl1. rewrite tl_extend_extend. cbn [app].
    eexists. split; [reflexivity|]. cbn [length]. split; [|split].
    + repeat (apply Forall_cons_2;
        [unfold child_end; cbn [ch_start ch_dur ch_act commit_of target];
         split; [done|split; [intros ? [= <-]; apply list_elem_of_lookup; eauto | lia]] |]).
      eapply Forall_impl; [exact Hall|]. cbn beta. intros c (? & ? & ?).
      repeat split; [done..|lia|lia].
    + apply Forall_cons. split.
      * intros el' Hel'. rewrite Hel in Hel'. injection Hel' as <-.
        eexists. split; [apply list_elem_of_here|done].
      * eapply Forall_impl; [exact Hsched|]. cbn. intros idx' H el' Hel'.
        destruct (H el' Hel') as (c & Hc & Ht). exists c. split; [|done].
        rewrite !elem_of_cons. auto.
    + intros Hpres _. apply Forall_cons in Hpres as [_ Hpres].
      destruct rest as [|idx' rest'].
      * eexists. split; [apply list_elem_of_further, list_elem_of_here|].
        unfold child_end; cbn. lia.
      * destruct (Hlast Hpres) as (c & Hc & Hend); [done|].
        exists c. split; [rewrite !elem_of_cons; auto|]. rewrite Hend. cbn [length]. lia.
  - destruct (IH (i + 1) tl) as (added & Hrun & Hall & Hsched & Hlast); [done|lia|].
    rewrite Hrun. exists added. split; [done|]. cbn [length]. split; [|split].
    + eapply Forall_impl; [exact Hall|]. cbn beta. intros c (? & ? & ?).
      repeat split; [done..|lia|lia].
    + apply Forall_cons. split; [intros el' Hel'; congruence|done].
    + intros Hpres _. apply Forall_cons in Hpres as [[el Hel'] _]. congruence.
Qed.

Lemma cycle_of_children tl o c :
  cycle_of tl o → c ∈ tl_children tl → ∀ o', commit_of c = Some o' → o' = o.
Proof.
  intros (cs & Hcs & Hno) Hc o' Ho'. rewrite Hcs in Hc.
  apply elem_of_app in Hc as [Hc | Hc].
  - rewrite Forall_forall in Hno. rewrite (Hno _ Hc) in Ho'. done.
  - apply list_elem_of_singleton in Hc as ->. cbn in Ho'. congruence.
Qed.

(** The timeline built by [swap] for a front element [elFront]: it starts
    playing at 0, acts only on elements held by a ref, ends with the UPDATE
    that assigns [rest ++ [front]], and is at most as long as the timeline
    of a cycle in which every card has its element. *)
Lemma build_spec p rfs front rest elFront :
  Forall (fun idx => (idx < length rfs)%nat) rest →
  Some elFront ∈ rfs →
  let c := config p in
  let promote_at := durDrop c - durDrop c * promoteOverlap c / 100 in
  let return_at := promote_at + durMove c * returnDelay c / 100 in
  let full :=
    Z.max (Z.max (durDrop c) (promote_at + 150 * (Z.of_nat (length rest) - 1) + durMove c))
          (return_at + durReturn c) in
  ∃ tl,
    build p rfs front rest elFront = Ok tl
    ∧ tl_time tl = 0
    ∧ tl_paused tl = false
    ∧ cycle_of tl (rest ++ [front])
    ∧ Forall (fun c => ∀ el, target (ch_act c) = Some el → Some el ∈ rfs) (tl_children tl)
    ∧ Forall (fun idx => ∀ el, rfs !! idx = Some (Some el) →
                ∃ c, c ∈ tl_children tl ∧ target (ch_act c) = Some el) rest
    ∧ 0 < duration tl ≤ full
    ∧ (Forall (fun idx => ∃ el, rfs !! idx = Some (Some el)) rest → rest ≠ [] →
       duration tl = full).
Proof.
  intros Hrest Hfront c promote_at return_at full.
  pose proof (config_bounds p) as (Hdrop & Hmove & Hret & Hover & Hdelay).
  fold c in Hdrop, Hmove, Hret, Hover, Hdelay.
  unfold build. fold c.
  set (drop := {| ch_start := 0; ch_dur := durDrop c;
                  ch_act := To elFront (DropBy 500) (ease c) |}).
  set (tl2 := tl_addLabel _ _ _).
  assert (tl_children tl2 = [drop]) as Hch2 by done.
  assert (duration tl2 = durDrop c) as Hd2.
  { unfold duration. rewrite Hch2. cbn. unfold child_end. cbn. lia. }
  assert (tl_labels tl2 !! "promote" = Some promote_at) as Hl2.
  { unfold tl2, tl_addLabel. cbn [tl_labels]. rewrite lookup_insert_eq. f_equal.
    cbn [resolve]. change (duration (tl_to _ _ _ _ _ _)) with (duration tl2).
    rewrite Hd2. unfold promote_at. lia. }
  destruct (promote_spec p rfs rest 0 tl2 promote_at Hl2 Hrest)
    as (added & Hrun & Hall & Hsched & Hlast); [lia|].
  rewrite Hrun. cbn [mbind result_bind].
  set (tl3 := tl_extend added tl2).
  set (tl4 := tl_addLabel "return" _ tl3).
  assert (tl_labels tl4 !! "return" = Some return_at) as Hl4.
  { unfold tl4, tl_addLabel. cbn [tl_labels]. rewrite lookup_insert_eq. f_equal.
    cbn [resolve tl3 tl_extend tl_labels]. rewrite Hl2. done. }
  unfold tl_call, tl_to. rewrite !tl_add_extend.
  cbn [resolve tl_extend tl_labels]. rewrite Hl4.
  change (default ?d (Some return_at)) with return_at.
  rewrite !tl_extend_extend. cbn [app].
  match goal with
  | |- context [tl_extend [?a; ?b; ?c'; ?d] tl4] =>
      set (c5 := a); set (c6 := b); set (c7 := c')
  end.
  assert (duration tl4 = Z.max (durDrop c) (span added)) as Hd4.
  { change (duration tl4) with (duration tl3). unfold tl3.
    by rewrite duration_tl_extend, Hd2. }
  assert (span [c5; c6; c7] = return_at + durReturn c) as Hs567.
  { cbn. unfold child_end. cbn. lia. }
  assert (span added ≤ full) as Hadd_le.
  { assert (full = Z.max (Z.max (durDrop c)
               (promote_at + 150 * (Z.of_nat (length rest) - 1) + durMove c))
               (return_at + durReturn c)) as Hfull by done.
    apply span_upper; [lia|]. eapply Forall_impl; [exact Hall|].
    cbn beta. fold c. intros ? (_ & _ & ?). lia. }
  set (D7 := duration (tl_extend [c5; c6; c7] tl4)).
  assert (D7 = Z.max (Z.max (durDrop c) (span added)) (return_at + durReturn c)) as HD7.
  { unfold D7. by rewrite duration_tl_extend, Hd4, Hs567. }
  set (tl := tl_extend _ tl4).
  assert (duration tl = D7) as Hdur.
  { unfold tl. rewrite duration_tl_extend.
    change (span [c5; c6; c7; ?x]) with (span ([c5; c6; c7] ++ [x])).
    rewrite span_app, Hs567, Hd4. change (span [?x]) with (Z.max (child_end x) 0).
    unfold child_end. cbn [ch_start ch_dur]. lia. }
  assert (tl_children tl = (([drop] ++ added) ++ [c5; c6; c7])
                             ++ [commit_child D7 (rest ++ [front])]) as Hch.
  { unfold tl, tl_extend. cbn [tl_children].
    change (tl_children tl4) with (tl_children tl2 ++ added). rewrite Hch2.
    by rewrite <-!app_assoc. }
  exists tl. split; [done|]. split; [done|]. split; [done|].
  assert (Forall (fun c0 => ∀ el, target (ch_act c0) = Some el → Some el ∈ rfs)
            (([drop] ++ added) ++ [c5; c6; c7])) as Htargets.
  { rewrite !Forall_app. split; [split|].
    - apply Forall_singleton. cbn. by intros ? [= <-].
    - eapply Forall_impl; [exact Hall|]. by intros ? (_ & ? & _).
    - repeat apply Forall_cons_2; try apply Forall_nil_2; cbn; by intros ? [= <-]. }
  split; [|split; [|split; [|split]]].
  - exists (([drop] ++ added) ++ [c5; c6; c7]). rewrite Hdur. split; [done|].
    rewrite !Forall_app. split; [split|].
    + by apply Forall_singleton.
    + eapply Forall_impl; [exact Hall|]. by intros ? (? & _).
    + by repeat apply Forall_cons_2.
  - rewrite Hch, Forall_app. split; [done|].
    apply Forall_singleton. by cbn.
  - eapply Forall_impl; [exact Hsched|]. cbn beta. intros idx H el Hel.
    destruct (H el Hel) as (c0 & Hc0 & Ht). exists c0. split; [|done].
    rewrite Hch, !elem_of_app. auto.
  - rewrite Hdur, HD7. unfold full, return_at in *. lia.
  - intros Hpres Hne. rewrite Hdur, HD7.
    destruct (Hlast Hpres Hne) as (c0 & Hc0 & Hend).
    apply span_elem in Hc0. rewrite Hend in Hc0. fold c in Hc0.
    assert (span added = promote_at + (0 + Z.of_nat (length rest) - 1) * 150 + durMove c)
      as ->; [|unfold full, return_at, promote_at in *; lia].
    apply Z.le_antisymm; [|done].
    apply span_upper; [destruct rest; [done|]; cbn [length]; unfold promote_at; lia|].
    eapply Forall_impl; [exact Hall|]. cbn beta. fold c. intros ? (_ & _ & ?). lia.
Qed.

(** ** One tick of a timeline *)

Lemma tl_tick_frozen tl :
  tl_paused tl = true ∨ finished tl = true → tl_tick tl = (tl, []).
Proof. unfold tl_tick. by intros [-> | ->]; rewrite ?orb_true_r. Qed.

Lemma tl_tick_children tl : tl_children (tl_tick tl).1 = tl_children tl.
Proof. unfold tl_tick. by destruct (_ || _). Qed.

Lemma tl_tick_duration tl : duration (tl_tick tl).1 = duration tl.
Proof. unfold duration. by rewrite tl_tick_children. Qed.

Lemma tl_tick_paused tl : tl_paused (tl_tick tl).1 = tl_paused tl.
Proof. unfold tl_tick. by destruct (_ || _). Qed.

Lemma tl_tick_time tl :
  tl_time (tl_tick tl).1 =
    if tl_paused tl || finished tl then tl_time tl else tl_time tl + 1.
Proof. unfold tl_tick. by destruct (_ || _). Qed.

Lemma tl_tick_callbacks tl cb :
  cb ∈ (tl_tick tl).2 →
  ∃ c, c ∈ tl_children tl ∧ ch_act c = Call cb
       ∧ tl_time tl < ch_start c ≤ tl_time tl + 1.
Proof.
  unfold tl_tick. destruct (_ || _); cbn; [by rewrite elem_of_nil|].
  rewrite list_elem_of_omap. intros (c & Hc & Hdue). exists c. split; [done|].
  unfold due in Hdue. destruct (ch_act c); try done.
  case_bool_decide; [|done]. by injection Hdue as ->.
Qed.

Lemma last_commit_snoc cbs cb :
  last_commit (cbs ++ [cb]) =
    match cb with CbCommit o => Some o | _ => last_commit cbs end.
Proof.
  unfold last_commit. rewrite omap_app. destruct cb; cbn [omap].
  - by rewrite app_nil_r.
  - by rewrite app_nil_r.
  - apply last_snoc.
Qed.

Lemma last_commit_elem cbs o : last_commit cbs = Some o → CbCommit o ∈ cbs.
Proof.
  induction cbs as [|cb cbs IH] using rev_ind; [done|].
  rewrite last_commit_snoc, elem_of_app, list_elem_of_singleton.
  destruct cb; [auto..|]. intros [= ->]. auto.
Qed.

Lemma omap_due_commit t t' s o :
  omap (due t t') [commit_child s o] =
    if bool_decide (t < s ∧ s ≤ t') then [CbCommit o] else [].
Proof. cbn. unfold due. cbn. by case_bool_decide. Qed.

(** The playhead of a cycle's timeline crosses the UPDATE exactly when it
    reaches the end. *)
Lemma cycle_tick tl o :
  cycle_of tl o →
  last_commit (tl_tick tl).2 =
    if decide (tl_paused tl = false ∧ tl_time tl + 1 = duration tl) then Some o else None.
Proof.
  intros (cs & Hcs & Hno). unfold tl_tick, finished.
  destruct (tl_paused tl) eqn:Hp; cbn [orb].
  { rewrite decide_False; [done|]. by intros [? _]. }
  case_bool_decide as Hfin; cbn [snd].
  { rewrite decide_False; [done|]. intros [_ ?]. lia. }
  rewrite Hcs, omap_app, omap_due_commit.
  assert (last_commit (omap (due (tl_time tl) (tl_time tl + 1)) cs) = None) as Hcs_none.
  { destruct (last_commit _) as [o'|] eqn:Hl; [|done].
    apply last_commit_elem, list_elem_of_omap in Hl as (c & Hc & Hdue).
    rewrite Forall_forall in Hno. specialize (Hno c Hc).
    unfold due in Hdue. unfold commit_of in Hno. destruct (ch_act c); try done.
    case_bool_decide; [|done]. injection Hdue as ->. done. }
  case_bool_decide as Hdue.
  - rewrite last_commit_snoc. rewrite decide_True; [done|]. split; [done|]. lia.
  - rewrite app_nil_r, Hcs_none. rewrite decide_False; [done|].
    intros [_ ?]. apply Hdue. lia.
Qed.

(** ** Engine steps *)

Lemma elem_of_concat {A} (x : A) (ls : list (list A)) :
  x ∈ concat ls → ∃ l, x ∈ l ∧ l ∈ ls.
Proof.
  induction ls as [|l ls IH]; cbn; [by rewrite elem_of_nil|].
  rewrite elem_of_app. intros [H | H].
  - exists l. split; [done|apply list_elem_of_here].
  - destruct (IH H) as (l' & ? & ?). exists l'. split; [done|].
    by apply list_elem_of_further.
Qed.

Lemma set_order_same e : set_order (order e) e = e.
Proof. by destruct e. Qed.

Lemma set_timelines_same e : set_timelines (timelines e) e = e.
Proof. by destruct e. Qed.

Lemma set_intervals_same e : set_intervals (intervals e) e = e.
Proof. by destruct e. Qed.

Lemma foldl_run_callback e cbs :
  foldl run_callback e cbs = set_order (default (order e) (last_commit cbs)) e.
Proof.
  induction cbs as [|cb cbs IH] using rev_ind.
  - cbn. by rewrite set_order_same.
  - rewrite foldl_app, IH, last_commit_snoc. cbn. by destruct cb.
Qed.

Lemma animate_eq e :
  animate e =
    set_order
      (default (order e) (last_commit (concat (map snd (map tl_tick (timelines e))))))
      (set_timelines (map fst (map tl_tick (timelines e))) e).
Proof. unfold animate. by rewrite foldl_run_callback. Qed.

(** When every timeline is paused or finished, a frame changes nothing. *)
Lemma animate_frozen e :
  Forall (fun tl => tl_paused tl = true ∨ finished tl = true) (timelines e) →
  animate e = e.
Proof.
  intros H. rewrite animate_eq.
  assert (map tl_tick (timelines e) = map (fun tl => (tl, [])) (timelines e)) as ->.
  { apply map_ext_Forall. eapply Forall_impl; [exact H|]. apply tl_tick_frozen. }
  rewrite !map_map. cbn. rewrite map_id.
  assert (concat (map (fun _ : Timeline => @nil Callback) (timelines e)) = []) as ->.
  { clear H. induction (timelines e) as [|? ? IH]; [done|]. cbn. exact IH. }
  cbn. by rewrite set_timelines_same, set_order_same.
Qed.

(** The order after a frame is the order before it, or the order assigned
    by an UPDATE child of one of the timelines. *)
Lemma animate_order e :
  order (animate e) = order e
  ∨ ∃ tl c, tl ∈ timelines e ∧ c ∈ tl_children tl
            ∧ commit_of c = Some (order (animate e)).
Proof.
  rewrite animate_eq. cbn [order set_order set_timelines].
  destruct (last_commit _) as [o|] eqn:Hl; [right|by left]. cbn.
  apply last_commit_elem, elem_of_concat in Hl as (cbs & Ho & Hcbs).
  rewrite map_map in Hcbs. apply list_elem_of_fmap in Hcbs as (tl & -> & Htl).
  apply tl_tick_callbacks in Ho as (c & Hc & Hact & _).
  exists tl, c. repeat split; [done..|]. unfold commit_of. by rewrite Hact.
Qed.

Lemma swap_runs p e front rest elFront :
  order e = front :: rest → rest ≠ [] →
  refs e !! front = Some (Some elFront) →
  Forall (fun idx => (idx < length (refs e))%nat) rest →
  ∃ tl, build p (refs e) front rest elFront = Ok tl
        ∧ swap p e = Ok (new_timeline tl e).
Proof.
  intros Ho Hne Hf Hrest.
  destruct (build_spec p (refs e) front rest elFront) as (tl & Hb & _); [done| |].
  { apply list_elem_of_lookup. eauto. }
  exists tl. split; [done|]. unfold swap. rewrite Ho, Hf, Hb.
  rewrite bool_decide_eq_false_2; [done|]. destruct rest; [done|]. cbn. lia.
Qed.

(** [swap] either returns its argument or adds the timeline of a cycle. *)
Lemma swap_cases p e :
  Forall (fun idx => (idx < length (refs e))%nat) (order e) →
  swap p e = Ok e
  ∨ ∃ front rest elFront tl,
      order e = front :: rest ∧ rest ≠ []
      ∧ refs e !! front = Some (Some elFront)
      ∧ build p (refs e) front rest elFront = Ok tl
      ∧ swap p e = Ok (new_timeline tl e).
Proof.
  intros Hord. destruct (order e) as [|front rest] eqn:Ho.
  { left. apply swap_short. rewrite Ho. cbn. lia. }
  destruct rest as [|idx rest].
  { left. apply swap_short. rewrite Ho. cbn. lia. }
  apply Forall_cons in Hord as [Hfront Hrest].
  apply lookup_lt_is_Some_2 in Hfront as [[elFront|] Hf].
  - right. destruct (swap_runs p e front (idx :: rest) elFront) as (tl & ? & ?);
      [done..|]. by exists front, (idx :: rest), elFront, tl.
  - left. by eapply swap_front_null.
Qed.

(** ** Well-formed states *)

Lemma wf_bound n e : wf n e → Forall (fun idx => (idx < length (refs e))%nat) (order e).
Proof. intros [Ho Hr _]. rewrite Ho, Hr. apply Forall_seq. lia. Qed.

Lemma wf_initial p : wf (length (children p)) (initial p).
Proof.
  split; cbn; [done| |done]. unfold initial_refs. apply length_imap.
Qed.

Lemma build_unique p rfs front rest elFront tl :
  Forall (fun idx => (idx < length rfs)%nat) rest →
  Some elFront ∈ rfs →
  build p rfs front rest elFront = Ok tl →
  tl_time tl = 0 ∧ tl_paused tl = false ∧ cycle_of tl (rest ++ [front])
  ∧ Forall (fun c => ∀ el, target (ch_act c) = Some el → Some el ∈ rfs) (tl_children tl)
  ∧ Forall (fun idx => ∀ el, rfs !! idx = Some (Some el) →
              ∃ c, c ∈ tl_children tl ∧ target (ch_act c) = Some el) rest.
Proof.
  intros Hrest Hfront Hb.
  destruct (build_spec p rfs front rest elFront Hrest Hfront)
    as (tl' & Hb' & ? & ? & ? & ? & ? & _).
  rewrite Hb in Hb'. by injection Hb' as <-.
Qed.

Lemma wf_new_timeline n e tl o :
  wf n e → cycle_of tl o → o ≡ₚ seq 0 n → wf n (new_timeline tl e).
Proof.
  intros [Ho Hr Hc] Hcycle Hperm. split; cbn; [done..|].
  apply Forall_app. split; [done|]. apply Forall_singleton, Forall_forall.
  intros c Hin o' Ho'. by rewrite (cycle_of_children tl o c Hcycle Hin o' Ho').
Qed.

Lemma wf_swap p n e : wf n e → ∃ e', swap p e = Ok e' ∧ wf n e'.
Proof.
  intros Hwf. pose proof (wf_bound n e Hwf) as Hb.
  destruct (swap_cases p e Hb) as [Hs | (front & rest & elFront & tl & Ho & _ & Hf & Hbuild & Hs)].
  { by exists e. }
  exists (new_timeline tl e). split; [done|].
  rewrite Ho in Hb. apply Forall_cons in Hb as [_ Hrest].
  destruct (build_unique p (refs e) front rest elFront tl) as (_ & _ & Hcycle & _); [done| |done|].
  { apply list_elem_of_lookup. eauto. }
  eapply wf_new_timeline; [done..|].
  rewrite <-(wf_order n e Hwf), Ho. by rewrite Permutation_app_comm.
Qed.

Lemma wf_swap_times p n k e : wf n e → ∃ e', swap_times p k e = Ok e' ∧ wf n e'.
Proof.
  revert e. induction k as [|k IH]; intros e Hwf; [by exists e|].
  destruct (wf_swap p n e Hwf) as (e1 & Hs & Hwf1).
  destruct (IH e1 Hwf1) as (e2 & He2 & Hwf2).
  exists e2. split; [|done]. cbn [swap_times]. by rewrite Hs.
Qed.

Lemma wf_animate n e : wf n e → wf n (animate e).
Proof.
  intros Hwf. pose proof Hwf as [Ho Hr Hc]. split.
  - destruct (animate_order e) as [-> | (tl & c & Htl & Hin & Hcommit)]; [done|].
    rewrite Forall_forall in Hc. specialize (Hc tl Htl).
    rewrite Forall_forall in Hc. by apply (Hc c Hin).
  - by rewrite animate_eq.
  - rewrite animate_eq. cbn. rewrite map_map, Forall_fmap.
    eapply Forall_impl; [exact Hc|]. cbn. intros tl. by rewrite tl_tick_children.
Qed.

Lemma wf_alter n e f i :
  (∀ tl, tl_children (f tl) = tl_children tl) →
  wf n e → wf n (set_timelines (alter f i (timelines e)) e).
Proof.
  intros Hf [Ho Hr Hc]. split; cbn; [done..|].
  apply Forall_alter; [done|]. intros tl _. by rewrite Hf.
Qed.

Lemma wf_same n e e' :
  order e' = order e → refs e' = refs e → timelines e' = timelines e →
  wf n e → wf n e'.
Proof. intros Ho Hr Ht [? ? ?]. split; by rewrite ?Ho, ?Hr, ?Ht. Qed.

Lemma wf_clearInterval n e : wf n e → wf n (clearInterval e).
Proof. apply wf_same; unfold clearInterval; by destruct (intervalRef e). Qed.

Lemma wf_setInterval n e : wf n e → wf n (setInterval e).
Proof. by apply wf_same. Qed.

Lemma wf_pause n e : wf n e → wf n (pause e).
Proof.
  intros Hwf. unfold pause. apply wf_clearInterval.
  destruct (tlRef e); [by apply wf_alter|done].
Qed.

Lemma wf_resume n e : wf n e → wf n (resume e).
Proof.
  intros Hwf. unfold resume. apply wf_setInterval.
  destruct (tlRef e); [by apply wf_alter|done].
Qed.

Lemma wf_tick p n e : wf n e → ∃ e', tick p e = Ok e' ∧ wf n e'.
Proof.
  intros Hwf. unfold tick, run_timers. apply wf_swap_times.
  by apply (wf_same n (animate e)), wf_animate.
Qed.

Lemma wf_mount p n e : wf n e → ∃ e', mount p e = Ok e' ∧ wf n e'.
Proof.
  intros Hwf. unfold mount.
  destruct (wf_swap p n e Hwf) as (e1 & -> & Hwf1).
  eexists. split; [done|]. apply wf_setInterval in Hwf1.
  destruct (pauseOnHover p); [by apply (wf_same _ (setInterval e1))|done].
Qed.

Lemma wf_step p n e ev : wf n e → ∃ e', step p e ev = Ok e' ∧ wf n e'.
Proof.
  intros Hwf. destruct ev; cbn [step].
  - by apply wf_tick.
  - eexists. split; [done|]. destruct (listening e); [by apply wf_pause|done].
  - eexists. split; [done|]. destruct (listening e); [by apply wf_resume|done].
  - eexists. split; [done|]. destruct Hwf. split; cbn; [done| |done].
    by rewrite length_insert.
  - eexists. split; [done|]. unfold cleanup. apply wf_clearInterval.
    by apply (wf_same n e).
  - apply wf_mount. unfold cleanup. apply wf_clearInterval.
    by apply (wf_same n e).
Qed.

Lemma wf_run p n evs e : wf n e → ∃ e', run p evs e = Ok e' ∧ wf n e'.
Proof.
  revert e. induction evs as [|ev evs IH]; intros e Hwf; [by exists e|].
  destruct (wf_step p n e ev Hwf) as (e1 & Hs & Hwf1).
  destruct (IH e1 Hwf1) as (e2 & He2 & Hwf2).
  exists e2. split; [|done]. cbn [run]. by rewrite Hs.
Qed.

Lemma wf_started p : ∃ e, started p = Ok e ∧ wf (length (children p)) e.
Proof. apply wf_mount, wf_initial. Qed.

(** C4. Whatever happens to a mounted component (time passing, pointer
    enter and leave, refs being cleared, the effect running again, its
    cleanup), no step throws and the
    order stays a permutation of [0..N-1]: it has length N, no duplicates,
    and contains exactly the indices below N. *)
Theorem order_is_always_a_permutation (p : Props) (evs : list Event) :
  ∃ e, (started p ≫= run p evs) = Ok e
       ∧ order e ≡ₚ seq 0 (length (children p))
       ∧ length (order e) = length (children p)
       ∧ NoDup (order e)
       ∧ ∀ i, i ∈ order e ↔ (i < length (children p))%nat.
Proof.
  destruct (wf_started p) as (e0 & -> & Hwf0).
  destruct (wf_run p _ evs e0 Hwf0) as (e & He & [Ho _ _]).
  exists e. split; [done|]. split; [done|]. split; [|split].
  - by rewrite Ho, length_seq.
  - rewrite Ho. apply NoDup_seq.
  - intros i. rewrite Ho, elem_of_seq. lia.
Qed.

(** ** Fewer than two cards *)

Lemma idle_swap_times p k e :
  (length (children p) < 2)%nat → order e = seq 0 (length (children p)) →
  swap_times p k e = Ok e.
Proof.
  intros HN Ho. apply swap_times_short. by rewrite Ho, length_seq.
Qed.

Lemma idle_mount p e :
  (length (children p) < 2)%nat →
  order e = seq 0 (length (children p)) → timelines e = [] →
  ∃ e', mount p e = Ok e'
        ∧ order e' = seq 0 (length (children p)) ∧ timelines e' = [].
Proof.
  intros HN Ho Htl. unfold mount. rewrite swap_short by by rewrite Ho, length_seq.
  cbn [mbind result_bind]. eexists. split; [done|].
  by destruct (pauseOnHover p).
Qed.

Lemma idle_step p e ev :
  (length (children p) < 2)%nat →
  order e = seq 0 (length (children p)) → timelines e = [] →
  ∃ e', step p e ev = Ok e'
        ∧ order e' = seq 0 (length (children p)) ∧ timelines e' = [].
Proof.
  intros HN Ho Htl. destruct ev; cbn [step].
  - unfold tick. rewrite animate_frozen by (rewrite Htl; constructor).
    unfold run_timers. rewrite idle_swap_times by done. eauto.
  - eexists. split; [done|]. unfold pause, clearInterval.
    destruct (listening e); [|done].
    destruct (tlRef e); cbn; destruct (intervalRef e); cbn; by rewrite ?Htl.
  - eexists. split; [done|]. unfold resume.
    destruct (listening e); [|done]. destruct (tlRef e); cbn; by rewrite ?Htl.
  - eauto.
  - eexists. split; [done|]. unfold cleanup, clearInterval. cbn.
    by destruct (intervalRef e).
  - apply idle_mount; [done|..]; unfold cleanup, clearInterval; cbn;
      by destruct (intervalRef e).
Qed.

Lemma idle_run p evs e :
  (length (children p) < 2)%nat →
  order e = seq 0 (length (children p)) → timelines e = [] →
  ∃ e', run p evs e = Ok e'
        ∧ order e' = seq 0 (length (children p)) ∧ timelines e' = [].
Proof.
  intros HN. revert e. induction evs as [|ev evs IH]; intros e Ho Htl; [by exists e|].
  destruct (idle_step p e ev HN Ho Htl) as (e1 & Hs & Ho1 & Htl1).
  destruct (IH e1 Ho1 Htl1) as (e2 & ? & ? & ?).
  exists e2. split; [|done]. cbn [run]. by rewrite Hs.
Qed.

(** C7. With fewer than two cards, calling [swap] any number of times
    returns the state it was given: the order is unchanged and no timeline
    is created.  This holds from the initial state and from any state whose
    order has as many entries as there are cards.  Accordingly, whatever
    happens to the mounted component, its order stays the initial one and
    no timeline ever exists. *)
Theorem swap_noop_below_two_cards (p : Props) (k : nat) (evs : list Event) :
  (length (children p) < 2)%nat →
  swap_times p k (initial p) = Ok (initial p)
  ∧ (∀ e, length (order e) = length (children p) → swap_times p k e = Ok e)
  ∧ ∃ e, (started p ≫= run p evs) = Ok e
         ∧ order e = seq 0 (length (children p))
         ∧ timelines e = [].
Proof.
  intros HN. split; [|split].
  - apply swap_times_short. cbn. by rewrite length_seq.
  - intros e He. apply swap_times_short. by rewrite He.
  - destruct (idle_mount p (initial p) HN) as (e0 & He0 & Ho0 & Htl0); [done..|].
    unfold started. rewrite He0. cbn [mbind result_bind]. by apply idle_run.
Qed.

Lemma swap_noop_below_two_cards_witness :
  swap_times (defaults 1) 5 (initial (defaults 1)) = Ok (initial (defaults 1)).
Proof.
  destruct (swap_noop_below_two_cards (defaults 1) 5 [Tick; Tick]) as [H _];
    [cbn; lia | exact H].
Defined.

(** ** When the order is updated *)




(** ** Clicks *)

Lemma display_position_seq i j n :
  (i < n)%nat → display_position (j + i) (seq j n) = Some i.
Proof.
  revert i j. induction n as [|n IH]; intros i j Hi; [lia|].
  cbn [seq display_position]. case_bool_decide as Hj.
  - f_equal. lia.
  - destruct i as [|i]; [exfalso; apply Hj; lia|].
    replace (j + S i)%nat with (S j + i)%nat by lia. rewrite IH by lia. done.
Qed.

(** C6, as amended.  Clicking the [i]-th child, when it is an element and
    [onCardClick] was given, ends with the call [onCardClick(i)]: the
    argument is the card's fixed index among the children and does not
    depend on the order.  It coincides with the card's position in the
    order while the order is the initial one. *)
Theorem click_reports_child_index (p : Props) (i : nat) (has_onClick : bool) :
  children p !! i = Some (ElementNode has_onClick) →
  has_onCardClick p = true →
  ∃ calls, rendered p !! i = Some (Some calls)
           ∧ last calls = Some (OnCardClick i)
           ∧ (∀ arg, OnCardClick arg ∈ calls → arg = i)
           ∧ display_position i (order (initial p)) = Some i.
Proof.
  intros Hi Hcb. unfold rendered. rewrite list_lookup_imap, Hi, Hcb. cbn.
  eexists. split; [done|]. split; [by rewrite last_snoc|]. split.
  - intros arg. rewrite elem_of_app, list_elem_of_singleton.
    intros [H | [= ->]]; [|done]. destruct has_onClick; [|by apply elem_of_nil in H].
    by apply list_elem_of_singleton in H.
  - apply (display_position_seq i 0). by apply lookup_lt_Some in Hi.
Qed.

Lemma click_reports_child_index_witness :
  ∃ calls, rendered (with_onCardClick (defaults 3)) !! 2%nat = Some (Some calls)
           ∧ last calls = Some (OnCardClick 2).
Proof.
  destruct (click_reports_child_index (with_onCardClick (defaults 3)) 2 false)
    as (calls & Hr & Hl & _); [reflexivity | reflexivity |].
  exists calls. split; [exact Hr | exact Hl].
Defined.

(** C6, as stated, fails: once the first rotation of three cards has
    completed the order is [1;2;0], so card 0 is displayed at position 2,
    yet clicking it calls [onCardClick(0)]. *)
Lemma click_argument_is_not_display_position :
  (order <$> (started (with_onCardClick (defaults 3))
                ≫= elapse (with_onCardClick (defaults 3)) 2350))
  = Ok [1; 2; 0]%nat
  ∧ display_position 0 [1; 2; 0]%nat = Some 2%nat
  ∧ rendered (with_onCardClick (defaults 3)) !! 0%nat = Some (Some [OnCardClick 0]).
Proof. split; [by vm_compute|]. split; by vm_compute. Qed.

(** ** Rotations *)

Lemma rotate_1_cons {A} (x : A) (l : list A) : rotate 1 (x :: l) = l ++ [x].
Proof.
  unfold rotate. destruct l as [|y l]; [reflexivity|].
  cbn [length]. rewrite Nat.mod_small by lia. reflexivity.
Qed.

Lemma rotate_rotate {A} (a b : nat) (l : list A) :
  rotate a (rotate b l) = rotate (a + b) l.
Proof.
  destruct (decide (length l = 0%nat)) as [Hl|Hl].
  { apply nil_length_inv in Hl as ->. unfold rotate.
    rewrite !drop_nil, !take_nil. cbn. by destruct a. }
  apply list_eq. intros i. destruct (decide (i < length l)%nat) as [Hi|Hi].
  - rewrite !lookup_rotate_r; rewrite ?length_rotate;
      [|done|apply rotate_nat_add_lt; lia|done].
    f_equal. unfold rotate_nat_add.
    rewrite Z2Nat.id by (apply Z.mod_pos; lia).
    rewrite Zplus_mod_idemp_r. f_equal. f_equal. lia.
  - rewrite !lookup_ge_None_2; rewrite ?length_rotate; [done|lia..].
Qed.

Lemma rotate_front {A} (m : nat) (l : list A) (front : A) (rest : list A) :
  rotate m l = front :: rest → rest ++ [front] = rotate (S m) l.
Proof. intros H. by rewrite <-(rotate_rotate 1 m), H, rotate_1_cons. Qed.

(** ** Frames, field by field *)

Lemma animate_refs e : refs (animate e) = refs e.
Proof. by rewrite animate_eq. Qed.

Lemma animate_intervals e : intervals (animate e) = intervals e.
Proof. by rewrite animate_eq. Qed.

Lemma animate_intervalRef e : intervalRef (animate e) = intervalRef e.
Proof. by rewrite animate_eq. Qed.

Lemma animate_tlRef e : tlRef (animate e) = tlRef e.
Proof. by rewrite animate_eq. Qed.

Lemma animate_listening e : listening (animate e) = listening e.
Proof. by rewrite animate_eq. Qed.

Lemma animate_timelines e :
  timelines (animate e) = map (fun tl => (tl_tick tl).1) (timelines e).
Proof. rewrite animate_eq. cbn. by rewrite map_map. Qed.

Lemma animate_order_eq e :
  order (animate e) =
    default (order e)
      (last_commit (concat (map (fun tl => (tl_tick tl).2) (timelines e)))).
Proof. rewrite animate_eq. cbn. by rewrite map_map. Qed.

Lemma tick_finished_map past :
  Forall (fun tl => finished tl = true) past →
  map (fun tl => (tl_tick tl).1) past = past
  ∧ concat (map (fun tl => (tl_tick tl).2) past) = [].
Proof.
  induction 1 as [|tl past Htl _ [IH1 IH2]]; [done|].
  cbn. rewrite tl_tick_frozen by auto. cbn. by rewrite IH1, IH2.
Qed.

Lemma elapse_succ p n (m : result Engine) :
  (m ≫= elapse p (S n)) = ((m ≫= elapse p n) ≫= tick p).
Proof.
  destruct m as [e|]; [|done]. cbn [mbind result_bind].
  revert e. induction n as [|n IH]; intros e.
  - cbn. by destruct (tick p e).
  - change (elapse p (S (S n)) e) with (tick p e ≫= elapse p (S n)).
    change (elapse p (S n) e) with (tick p e ≫= elapse p n).
    destruct (tick p e) as [e1|]; [|done]. cbn [mbind result_bind]. apply IH.
Qed.

(** ** An undisturbed run *)

Lemma initial_refs_lookup p i :
  TextNode ∉ children p → (i < length (children p))%nat →
  initial_refs p !! i = Some (Some i).
Proof.
  intros Hno Hi. unfold initial_refs. rewrite list_lookup_imap.
  apply lookup_lt_is_Some_2 in Hi as [c Hc]. rewrite Hc. cbn.
  destruct c; [done|]. exfalso. apply Hno. by eapply list_elem_of_lookup_2.
Qed.

(** The cycle that [swap] starts when every card has its element and the
    order is a rotation of the identity. *)
Lemma swap_full_cycle p e m :
  (2 ≤ length (children p))%nat →
  TextNode ∉ children p →
  refs e = initial_refs p →
  order e = rotate m (seq 0 (length (children p))) →
  ∃ tl, swap p e = Ok (new_timeline tl e)
        ∧ tl_time tl = 0
        ∧ tl_paused tl = false
        ∧ duration tl = cycle_ms p
        ∧ cycle_of tl (rotate (S m) (seq 0 (length (children p)))).
Proof.
  intros HN Hno Hrefs Ho.
  assert (length (order e) = length (children p)) as Hlen
    by (by rewrite Ho, length_rotate, length_seq).
  assert (length (refs e) = length (children p)) as Hrlen
    by (rewrite Hrefs; apply length_imap).
  assert (∀ idx, idx ∈ order e → refs e !! idx = Some (Some idx)) as Hpres.
  { intros idx. rewrite Ho, elem_of_rotate, elem_of_seq, Hrefs. intros ?.
    apply initial_refs_lookup; [done|lia]. }
  destruct (order e) as [|front rest] eqn:Hord; [cbn in Hlen; lia|].
  destruct rest as [|idx rest]; [cbn in Hlen; lia|].
  assert (Forall (fun i => (i < length (refs e))%nat) (idx :: rest)) as Hrest.
  { apply Forall_forall. intros i Hi. apply (lookup_lt_Some _ _ (Some i)), Hpres.
    by apply list_elem_of_further. }
  assert (refs e !! front = Some (Some front)) as Hf
    by apply Hpres, list_elem_of_here.
  destruct (swap_runs p e front (idx :: rest) front) as (tl & Hb & Hs);
    [done..|].
  destruct (build_spec p (refs e) front (idx :: rest) front Hrest)
    as (tl' & Hb' & Ht & Hp & Hcycle & _ & _ & _ & Hfull).
  { apply list_elem_of_lookup. eauto. }
  rewrite Hb in Hb'. injection Hb' as <-.
  exists tl. split; [done|]. split; [done|]. split; [done|]. split.
  - rewrite Hfull; [|by (apply Forall_forall; intros i Hi; exists i;
                         apply Hpres, list_elem_of_further)|done].
    unfold cycle_ms. cbn [length] in Hlen |- *.
    replace (Z.of_nat (S (length rest)) - 1) with (Z.of_nat (length (children p)) - 2)
      by lia. done.
  - by rewrite <-(rotate_front m _ front (idx :: rest)).
Qed.

Lemma rotate_0 {A} (l : list A) : rotate 0 l = l.
Proof.
  unfold rotate. rewrite Nat.Div0.mod_0_l. cbn. apply app_nil_r.
Qed.

Lemma cycle_ms_pos p : 0 < cycle_ms p.
Proof. pose proof (config_bounds p). unfold cycle_ms. lia. Qed.

Lemma steady_started p :
  (2 ≤ length (children p))%nat →
  TextNode ∉ children p →
  cycle_ms p < delay p →
  ∃ e, started p = Ok e ∧ Steady p 0 0 e.
Proof.
  intros HN Hno Hlt. pose proof (cycle_ms_pos p) as Hpos.
  destruct (swap_full_cycle p (initial p) 0) as (tl & Hs & Ht & Hp & Hd & Hcyc);
    [done|done|done|by rewrite rotate_0|].
  unfold started, mount. rewrite Hs. cbn [mbind result_bind].
  eexists. split; [done|].
  split.
  - lia.
  - rewrite decide_True by lia. cbn [Nat.add]. rewrite rotate_0.
    by destruct (pauseOnHover p).
  - by destruct (pauseOnHover p).
  - by destruct (pauseOnHover p).
  - exists [], tl. split; [by destruct (pauseOnHover p)|].
    split; [done|]. split; [done|]. split; [done|].
    split; [lia|]. split; [done|done].
Qed.

Lemma steady_tick p k r e :
  (2 ≤ length (children p))%nat →
  TextNode ∉ children p →
  cycle_ms p < delay p →
  Steady p k r e →
  ∃ e', tick p e = Ok e'
        ∧ if decide (r + 1 < delay p) then Steady p k (r + 1) e' else Steady p (S k) 0 e'.
Proof.
  intros HN Hno Hlt [Hr Ho Hrefs Hiv (past & tl & Htls & Hlen & Hfin & Hp & Ht & Hd & Hcyc)].
  pose proof (cycle_ms_pos p) as Hpos.
  destruct (tick_finished_map past Hfin) as [Hmap Hcbs].
  assert (timelines (animate e) = past ++ [(tl_tick tl).1]) as Htls1.
  { rewrite animate_timelines, Htls, map_app, Hmap. done. }
  assert (order (animate e) =
            rotate (k + (if decide (r + 1 < cycle_ms p) then 0 else 1))
                   (seq 0 (length (children p)))) as Ho1.
  { rewrite animate_order_eq, Htls, map_app, concat_app, Hcbs. cbn [map concat app].
    rewrite app_nil_r, (cycle_tick tl _ Hcyc), Hp, Ht, Hd, Ho.
    destruct (decide (r < cycle_ms p)), (decide (r + 1 < cycle_ms p));
      [rewrite decide_False by lia; done
      |rewrite decide_True by lia; done
      |lia
      |rewrite decide_False by lia; done]. }
  assert (tl_time (tl_tick tl).1 = Z.min (r + 1) (cycle_ms p)) as Ht1.
  { rewrite tl_tick_time, Hp. unfold finished. rewrite Hd, Ht. cbn [orb].
    case_bool_decide; lia. }
  unfold tick, run_timers. rewrite animate_intervals, Hiv.
  rewrite filter_cons, filter_nil. unfold iv_fires at 1. cbn [iv_elapsed map].
  unfold iv_tick, iv_fires. cbn [iv_id iv_elapsed].
  destruct (decide (r + 1 < delay p)) as [Hlt1 | Hge].
  - rewrite bool_decide_eq_false_2 by lia. rewrite decide_False by done.
    cbn [length swap_times]. eexists. split; [done|]. split; cbn.
    + lia.
    + done.
    + by rewrite animate_refs.
    + done.
    + exists past, (tl_tick tl).1. split; [done|]. split; [done|]. split; [done|].
      split; [by rewrite tl_tick_paused|]. split; [done|].
      split; [by rewrite tl_tick_duration|]. destruct Hcyc as (cs & Hcs & Hno').
      exists cs. rewrite tl_tick_duration, tl_tick_children. done.
  - rewrite bool_decide_eq_true_2 by lia. rewrite decide_True by done.
    cbn [length swap_times].
    set (e2 := set_intervals _ (animate e)).
    destruct (swap_full_cycle p e2 (S k)) as (tl2 & Hs & Ht2 & Hp2 & Hd2 & Hcyc2);
      [done|done| | |].
    { change (refs e2) with (refs (animate e)). by rewrite animate_refs. }
    { change (order e2) with (order (animate e)). rewrite Ho1.
      rewrite decide_False by lia. by rewrite Nat.add_1_r. }
    rewrite Hs. cbn [mbind result_bind]. eexists. split; [done|]. split; cbn.
    + lia.
    + rewrite decide_True by lia. rewrite Ho1, decide_False by lia.
      by rewrite Nat.add_0_r, Nat.add_1_r.
    + by rewrite animate_refs.
    + done.
    + exists (past ++ [(tl_tick tl).1]), tl2. split; [by rewrite Htls1|].
      split; [rewrite length_app; cbn; lia|]. split.
      * apply Forall_app. split; [done|]. apply Forall_singleton.
        unfold finished. rewrite tl_tick_duration, Ht1, Hd.
        apply bool_decide_eq_true_2. lia.
      * split; [done|]. split; [lia|]. split; [done|].
        by rewrite Nat.add_1_r.
Qed.

Lemma steady_completed p k r e :
  Steady p k r e →
  completed e = (k + (if decide (r < cycle_ms p)%Z then 0 else 1))%nat.
Proof.
  intros [Hr Ho Hrefs Hiv (past & tl & Htls & Hlen & Hfin & Hp & Ht & Hd & Hcyc)].
  unfold completed. rewrite Htls, filter_app, length_app, filter_cons, filter_nil.
  assert (filter (fun tl => finished tl = true) past = past) as ->.
  { clear Hlen Htls. induction Hfin as [|tl' past Htl' _ IH]; [done|].
    rewrite filter_cons, decide_True by done. by rewrite IH. }
  rewrite Hlen. f_equal. unfold finished. rewrite Hd, Ht.
  destruct (decide (r < cycle_ms p)).
  - rewrite decide_False; [done|]. rewrite bool_decide_eq_true. lia.
  - rewrite decide_True; [done|]. rewrite bool_decide_eq_true. lia.
Qed.

Lemma steady_run p (k r : nat) :
  (2 ≤ length (children p))%nat →
  TextNode ∉ children p →
  cycle_ms p < delay p →
  Z.of_nat r < delay p →
  ∃ e, (started p ≫= elapse p (k * Z.to_nat (delay p) + r)) = Ok e
       ∧ Steady p k (Z.of_nat r) e.
Proof.
  intros HN Hno Hlt. pose proof (cycle_ms_pos p) as Hpos.
  assert (∀ k r e,
            (started p ≫= elapse p (k * Z.to_nat (delay p) + r)) = Ok e →
            Steady p k (Z.of_nat r) e →
            Z.of_nat (S r) < delay p →
            ∃ e', (started p ≫= elapse p (k * Z.to_nat (delay p) + S r)) = Ok e'
                  ∧ Steady p k (Z.of_nat (S r)) e') as Hnext.
  { clear k r. intros k r e He Hst Hr.
    destruct (steady_tick p k _ e HN Hno Hlt Hst) as (e' & Hte & Hst').
    rewrite decide_True in Hst' by lia. exists e'. split.
    - rewrite <-plus_n_Sm, elapse_succ, He. done.
    - by replace (Z.of_nat (S r)) with (Z.of_nat r + 1) by lia. }
  revert r. induction k as [|k IHk]; intros r.
  - induction r as [|r IHr]; intros Hr.
    + destruct (steady_started p HN Hno Hlt) as (e & He & Hst).
      exists e. split; [|done]. cbn. by rewrite He.
    + destruct IHr as (e & He & Hst); [lia|]. by eapply Hnext.
  - induction r as [|r IHr]; intros Hr.
    + destruct (IHk (Z.to_nat (delay p) - 1)%nat) as (e & He & Hst); [lia|].
      destruct (steady_tick p k _ e HN Hno Hlt Hst) as (e' & Hte & Hst').
      rewrite decide_False in Hst' by lia. exists e'. split; [|done].
      replace (S k * Z.to_nat (delay p) + 0)%nat
        with (S (k * Z.to_nat (delay p) + (Z.to_nat (delay p) - 1)))%nat by lia.
      rewrite elapse_succ, He. done.
    + destruct IHr as (e & He & Hst); [lia|]. by eapply Hnext.
Qed.

(** ** Cycles one after the other *)

Lemma swap_calm p e :
  wf (length (children p)) e →
  swap p e = Ok e
  ∨ ∃ tl front rest,
      swap p e = Ok (new_timeline tl e)
      ∧ order e = front :: rest
      ∧ cycle_of tl (rest ++ [front])
      ∧ tl_time tl = 0 ∧ tl_paused tl = false ∧ 0 < duration tl ≤ cycle_ms p.
Proof.
  intros Hwf. pose proof (wf_bound _ e Hwf) as Hb.
  destruct (swap_cases p e Hb)
    as [Hs | (front & rest & elFront & tl & Ho & _ & Hf & Hbuild & Hs)]; [by left|].
  right. exists tl, front, rest. split; [done|]. split; [done|].
  rewrite Ho in Hb. apply Forall_cons in Hb as [_ Hrest].
  destruct (build_spec p (refs e) front rest elFront Hrest)
    as (tl' & Hb' & Ht & Hp & Hcyc & _ & _ & Hdur & _).
  { apply list_elem_of_lookup. eauto. }
  rewrite Hbuild in Hb'. injection Hb' as <-.
  split; [done|]. split; [done|]. split; [done|].
  pose proof (Permutation_length (wf_order _ e Hwf)) as Hlen.
  rewrite Ho, length_seq in Hlen. cbn [length] in Hlen.
  unfold cycle_ms. rewrite <-Hlen.
  replace (Z.of_nat (S (length rest)) - 2) with (Z.of_nat (length rest) - 1) by lia.
  done.
Qed.

Lemma lookup_alter_Some (f : Timeline → Timeline) (tls : list Timeline) (i j : nat) tl' :
  alter f i tls !! j = Some tl' →
  ∃ tl, tls !! j = Some tl ∧ tl' = if decide (i = j) then f tl else tl.
Proof.
  rewrite list_lookup_alter. case_decide as Hij; [subst j|eauto].
  rewrite fmap_Some. intros (tl & ? & ->). eauto.
Qed.

Lemma tl_tick_finished tl : finished tl = true → finished (tl_tick tl).1 = true.
Proof. intros H. by rewrite tl_tick_frozen by auto. Qed.

Lemma cycle_of_tick tl o : cycle_of tl o → cycle_of (tl_tick tl).1 o.
Proof.
  intros (cs & Hcs & Hno). exists cs. by rewrite tl_tick_duration, tl_tick_children.
Qed.

Lemma filter_finished_all (tls : list Timeline) :
  Forall (fun tl => finished tl = true) tls →
  filter (fun tl => finished tl = true) tls = tls.
Proof.
  induction 1 as [|tl tls Htl _ IH]; [done|].
  rewrite filter_cons, decide_True by done. by rewrite IH.
Qed.

Lemma completed_snoc e past tl :
  timelines e = past ++ [tl] →
  Forall (fun tl => finished tl = true) past →
  completed e = (length past + (if finished tl then 1 else 0))%nat.
Proof.
  intros Htls Hfin. unfold completed.
  rewrite Htls, filter_app, length_app, filter_finished_all by done.
  rewrite filter_cons, filter_nil. by destruct (finished tl).
Qed.

Lemma length_filter_alter (f : Timeline → Timeline) i (tls : list Timeline) :
  (∀ tl, finished (f tl) = finished tl) →
  length (filter (fun tl => finished tl = true) (alter f i tls))
  = length (filter (fun tl => finished tl = true) tls).
Proof.
  intros Hf. unfold alter. revert i.
  induction tls as [|tl tls IH]; intros i; [done|].
  destruct i as [|i]; simpl.
  - rewrite !filter_cons, Hf. by destruct (decide _).
  - rewrite !filter_cons. specialize (IH i).
    destruct (decide _); cbn [length]; by rewrite IH.
Qed.

Lemma serial_same p e e' :
  order e' = order e → tlRef e' = tlRef e → timelines e' = timelines e →
  Serial p e → Serial p e'.
Proof.
  intros Ho Hr Ht [? ? ?]. split; unfold completed in *; by rewrite ?Ho, ?Hr, ?Ht.
Qed.

Lemma serial_alter p e f i :
  (∀ tl, tl_children (f tl) = tl_children tl) →
  (∀ tl, tl_time (f tl) = tl_time tl) →
  Serial p e → Serial p (set_timelines (alter f i (timelines e)) e).
Proof.
  intros Hch Ht [Hlast Hcyc Ho].
  assert (∀ tl, duration (f tl) = duration tl) as Hd
    by (intros tl; unfold duration; by rewrite Hch).
  split; cbn.
  - rewrite length_alter. destruct (tlRef e); [done|]. by rewrite Hlast.
  - intros j tl' (tl & Htl & ->)%lookup_alter_Some.
    case_decide; [|by apply Hcyc].
    destruct (Hcyc j tl Htl) as (cs & Hcs & Hno). exists cs. by rewrite Hd, Hch.
  - rewrite Ho. unfold completed. cbn. rewrite length_filter_alter; [done|].
    intros tl. unfold finished. by rewrite Hd, Ht.
Qed.

Lemma serial_pause p e : Serial p e → Serial p (pause e).
Proof.
  intros Hs. unfold pause.
  apply (serial_same p (match tlRef e with
                        | Some i => set_timelines (alter tl_pause i (timelines e)) e
                        | None => e
                        end)).
  - unfold clearInterval. by destruct (intervalRef _).
  - unfold clearInterval. by destruct (intervalRef _).
  - unfold clearInterval. by destruct (intervalRef _).
  - destruct (tlRef e); [by apply serial_alter|done].
Qed.

Lemma serial_resume p e : Serial p e → Serial p (resume e).
Proof.
  intros Hs. unfold resume.
  apply (serial_same p (match tlRef e with
                        | Some i => set_timelines (alter tl_play i (timelines e)) e
                        | None => e
                        end)); [done..|].
  destruct (tlRef e); [by apply serial_alter|done].
Qed.

(** Under both invariants the timelines are finished ones followed by the
    one [tlRef] holds. *)
Lemma serial_split p paused e :
  Calm p paused e → Serial p e →
  (timelines e = [] ∧ tlRef e = None)
  ∨ ∃ past tl, timelines e = past ++ [tl]
               ∧ tlRef e = Some (length past)
               ∧ Forall (fun tl => finished tl = true) past.
Proof.
  intros Hcalm [Hlast _ _]. destruct (tlRef e) as [i|] eqn:Hi; [right|by left].
  destruct (timelines e) as [|tl past _] eqn:Htls using rev_ind; [done|].
  rewrite length_app in Hlast. cbn in Hlast.
  exists past, tl. split; [done|]. split; [f_equal; lia|].
  apply Forall_lookup. intros j tl' Hj.
  destruct (calm_timelines p paused e Hcalm j tl') as (_ & _ & [?|Hi']); [|done|].
  - rewrite Htls. by apply lookup_app_l_Some.
  - rewrite Hi in Hi'. injection Hi' as ->. apply lookup_lt_Some in Hj. lia.
Qed.

Lemma serial_animate p paused e :
  Calm p paused e → Serial p e → Serial p (animate e).
Proof.
  intros Hcalm Hser.
  destruct (serial_split p paused e Hcalm Hser)
    as [[Htls Href] | (past & tl & Htls & Href & Hfin)].
  { rewrite animate_frozen; [done|]. rewrite Htls. constructor. }
  destruct Hser as [Hlast Hcyc Ho].
  destruct (tick_finished_map past Hfin) as [Hmap Hcbs].
  assert (timelines (animate e) = past ++ [(tl_tick tl).1]) as Htls1.
  { rewrite animate_timelines, Htls, map_app, Hmap. done. }
  assert (cycle_of tl (rotate (S (length past)) (seq 0 (length (children p))))) as Hc.
  { apply Hcyc. rewrite Htls. by apply list_lookup_middle. }
  split.
  - rewrite animate_tlRef, animate_timelines, length_map, Href in *. done.
  - intros i tl'. rewrite animate_timelines.
    change (map ?f ?l) with (f <$> l). rewrite list_lookup_fmap_Some.
    intros (tl0 & -> & Hi). by apply cycle_of_tick, Hcyc.
  - rewrite (completed_snoc (animate e) past _ Htls1 Hfin).
    rewrite animate_order_eq, Htls, map_app, concat_app, Hcbs. cbn [map concat app].
    rewrite app_nil_r, (cycle_tick tl _ Hc), Ho, (completed_snoc e past tl Htls Hfin).
    unfold finished. rewrite tl_tick_duration, tl_tick_time. unfold finished.
    destruct (tl_paused tl); cbn [orb].
    { rewrite decide_False by by intros [? _]. done. }
    case_bool_decide as Hf; cbn [orb].
    { rewrite decide_False by (intros [_ ?]; lia).
      rewrite bool_decide_eq_true_2 by done. done. }
    destruct (decide _) as [[_ Hend]|Hnot].
    + rewrite bool_decide_eq_true_2 by lia. cbn. f_equal. lia.
    + rewrite bool_decide_eq_false_2; [done|]. intros ?. apply Hnot. split; [done|]. lia.
Qed.

Lemma serial_new_timeline p e tl front rest :
  Serial p e →
  Forall (fun tl => finished tl = true) (timelines e) →
  order e = front :: rest →
  cycle_of tl (rest ++ [front]) →
  finished tl = false →
  Serial p (new_timeline tl e).
Proof.
  intros [Hlast Hcyc Ho] Hfin Hord Hc Hnew.
  assert (completed e = length (timelines e)) as Hall
    by (unfold completed; by rewrite filter_finished_all).
  split; cbn.
  - rewrite length_app. cbn. lia.
  - intros i tl'. rewrite lookup_snoc_Some. intros [[_ Hi] | [-> <-]]; [by apply Hcyc|].
    rewrite <-Hall. erewrite <-rotate_front; [done|]. by rewrite <-Ho.
  - rewrite Ho. f_equal. rewrite Hall. unfold completed. cbn.
    rewrite filter_app, length_app, filter_finished_all by done.
    rewrite filter_cons, filter_nil, Hnew. rewrite decide_False by done. cbn. lia.
Qed.

(** A frame while the timer runs. *)
Lemma animate_running p e id r :
  Calm p false e →
  intervals e = [{| iv_id := id; iv_elapsed := r |}] →
  wf (length (children p)) (animate e)
  ∧ intervalRef (animate e) = Some id
  ∧ 0 ≤ r < delay p
  ∧ length (timelines (animate e)) = length (timelines e)
  ∧ ∀ i tl, timelines (animate e) !! i = Some tl →
      duration tl ≤ cycle_ms p ∧ 0 ≤ tl_time tl
      ∧ (finished tl = true ∨ tlRef e = Some i)
      ∧ (tlRef e = Some i →
         tl_paused tl = false ∧ Z.min (r + 1) (duration tl) ≤ tl_time tl).
Proof.
  intros [Hwf Hl Htls (id' & r' & Hiv & Href & Hr & Hcur)] Hiv'.
  rewrite Hiv in Hiv'. injection Hiv' as -> ->.
  split; [by apply wf_animate|]. split; [by rewrite animate_intervalRef|].
  split; [done|]. split; [by rewrite animate_timelines, length_map|].
  intros i tl'. rewrite animate_timelines.
  change (map ?f ?l) with (f <$> l). rewrite list_lookup_fmap_Some.
  intros (tl & -> & Hi). destruct (Htls i tl Hi) as (Hd & Ht & Hfin).
  rewrite tl_tick_duration. split; [done|]. split.
  { rewrite tl_tick_time. destruct (_ || _); lia. }
  split.
  { destruct Hfin as [Hfin|?]; [left; by apply tl_tick_finished | by right]. }
  intros Hi'. destruct (Hcur i tl Hi' Hi) as [Hp Hmin].
  rewrite tl_tick_paused, tl_tick_time, Hp. split; [done|].
  cbn [orb]. unfold finished. case_bool_decide; lia.
Qed.

(** A tick in which the timer does not fire. *)
Lemma calm_tick_quiet p e id r :
  Calm p false e →
  intervals e = [{| iv_id := id; iv_elapsed := r |}] →
  r + 1 < delay p →
  ∃ e', tick p e = Ok e'
        ∧ Calm p false e'
        ∧ intervals e' = [{| iv_id := id; iv_elapsed := r + 1 |}]
        ∧ length (timelines e') = length (timelines e)
        ∧ (Serial p e → Serial p e').
Proof.
  intros Hcalm Hiv Hlt.
  destruct (animate_running p e id r Hcalm Hiv) as (Hwf & Href & Hr & Hlen & Htls).
  unfold tick, run_timers. rewrite animate_intervals, Hiv.
  rewrite filter_cons, filter_nil. unfold iv_fires at 1. cbn [iv_elapsed map].
  unfold iv_tick, iv_fires. cbn [iv_id iv_elapsed].
  rewrite bool_decide_eq_false_2 by lia. rewrite decide_False by done.
  cbn [length swap_times]. eexists. split; [done|].
  split; [|split; [done|split; [done|]]].
  - split.
    + by apply (wf_same _ (animate e)).
    + cbn. rewrite animate_listening. apply Hcalm.
    + cbn. intros i tl Hi. destruct (Htls i tl Hi) as (? & ? & ? & _).
      by rewrite animate_tlRef.
    + exists id, (r + 1). cbn. split; [done|]. split; [done|]. split; [lia|].
      intros i tl. rewrite animate_tlRef. intros Hi Htl.
      by destruct (Htls i tl Htl) as (_ & _ & _ & ?); auto.
  - intros Hser. apply (serial_same p (animate e)); [done..|].
    by eapply serial_animate.
Qed.

(** A tick in which the timer fires: every earlier cycle has finished. *)
Lemma calm_tick_fire p e id r :
  cycle_ms p < delay p →
  Calm p false e →
  intervals e = [{| iv_id := id; iv_elapsed := r |}] →
  delay p ≤ r + 1 →
  ∃ e', tick p e = Ok e' ∧ Calm p false e' ∧ (Serial p e → Serial p e').
Proof.
  intros Hcyc Hcalm Hiv Hge. pose proof (cycle_ms_pos p) as Hpos.
  destruct (animate_running p e id r Hcalm Hiv) as (Hwf & Href & Hr & Hlen & Htls).
  unfold tick, run_timers. rewrite animate_intervals, Hiv.
  rewrite filter_cons, filter_nil. unfold iv_fires at 1. cbn [iv_elapsed map].
  unfold iv_tick, iv_fires. cbn [iv_id iv_elapsed].
  rewrite bool_decide_eq_true_2 by lia. rewrite decide_True by done.
  cbn [length swap_times].
  set (e2 := set_intervals _ (animate e)).
  assert (wf (length (children p)) e2) as Hwf2 by by apply (wf_same _ (animate e)).
  assert (Forall (fun tl => finished tl = true) (timelines e2)) as Hall.
  { apply Forall_lookup. intros i tl Htl.
    destruct (Htls i tl Htl) as (Hd & Ht & [?|Hi'] & Hcur); [done|].
    destruct (Hcur Hi') as [_ Hmin]. unfold finished. apply bool_decide_eq_true_2. lia. }
  assert (Serial p e → Serial p e2) as Hser2.
  { intros Hser. apply (serial_same p (animate e)); [done..|]. by eapply serial_animate. }
  destruct (swap_calm p e2 Hwf2)
    as [Hs | (tl2 & front & rest & Hs & Ho2 & Hc2 & Ht2 & Hp2 & Hd2)];
    rewrite Hs; cbn [mbind result_bind]; eexists; (split; [done|]).
  - split; [|done]. split; [done| | |].
    + cbn. rewrite animate_listening. apply Hcalm.
    + cbn. intros i tl Hi. destruct (Htls i tl Hi) as (? & ? & ? & _).
      by rewrite animate_tlRef.
    + exists id, 0. cbn. split; [done|]. split; [done|]. split; [lia|].
      intros i tl. rewrite animate_tlRef. intros Hi Htl.
      destruct (Htls i tl Htl) as (_ & ? & _ & Hcur).
      destruct (Hcur Hi) as [? ?]. split; [done|]. lia.
  - split.
    + split.
      * destruct (wf_swap p _ e2 Hwf2) as (e3 & Hs3 & Hwf3).
        rewrite Hs in Hs3. by injection Hs3 as <-.
      * cbn. rewrite animate_listening. apply Hcalm.
      * cbn. intros i tl. rewrite lookup_snoc_Some. rewrite Hlen.
        intros [[Hi Htl] | [-> <-]].
        -- destruct (Htls i tl Htl) as (Hd & Ht & _).
           split; [done|]. split; [done|]. left.
           rewrite Forall_lookup in Hall. by eapply Hall.
        -- rewrite <-Hlen. split; [lia|]. split; [lia|]. by right.
      * exists id, 0. cbn. split; [done|]. split; [done|]. split; [lia|].
        intros i tl [= <-]. rewrite lookup_snoc_Some.
        intros [[Hi _] | [_ <-]]; [lia|]. split; [done|]. lia.
    + intros Hser. eapply serial_new_timeline; [by apply Hser2|done..|].
      unfold finished. apply bool_decide_eq_false_2. lia.
Qed.

Lemma serial_initial p : Serial p (initial p).
Proof. split; cbn; [done| |by rewrite rotate_0]. intros i tl. by rewrite lookup_nil. Qed.

Lemma calm_started p :
  cycle_ms p < delay p →
  ∃ e, started p = Ok e ∧ Calm p false e ∧ Serial p e.
Proof.
  intros Hcyc. pose proof (cycle_ms_pos p) as Hpos.
  destruct (wf_started p) as (e & He & Hwf). exists e. split; [done|].
  unfold started, mount in He.
  destruct (swap_calm p (initial p) (wf_initial p))
    as [Hs | (tl & front & rest & Hs & Ho & Hc & Ht & Hp & Hd)];
    rewrite Hs in He; cbn [mbind result_bind] in He; injection He as <-.
  - split.
    + split; [done| | |].
      * by destruct (pauseOnHover p).
      * intros i tl. destruct (pauseOnHover p); cbn; by rewrite lookup_nil.
      * exists 0%nat, 0. destruct (pauseOnHover p); cbn;
          (split; [done|]; split; [done|]; split; [lia|]; done).
    + apply (serial_same p (initial p)); try by destruct (pauseOnHover p).
      apply serial_initial.
  - split.
    + split; [done| | |].
      * by destruct (pauseOnHover p).
      * intros i tl'. destruct (pauseOnHover p); cbn;
          (intros [-> <-]%list_lookup_singleton_Some;
           split; [lia|]; split; [lia|]; by right).
      * exists 0%nat, 0. destruct (pauseOnHover p); cbn;
          (split; [done|]; split; [done|]; split; [lia|];
           intros i tl' [= <-] [= <-]; split; [done|]; lia).
    + apply (serial_same p (new_timeline tl (initial p)));
        try by destruct (pauseOnHover p).
      eapply serial_new_timeline; [apply serial_initial|by constructor|done..|].
      unfold finished. apply bool_decide_eq_false_2. lia.
Qed.

Lemma calm_pause p e : Calm p false e → Calm p true (pause e).
Proof.
  intros [Hwf Hl Htls (id & r & Hiv & Href & Hr & Hcur)].
  split; [by apply wf_pause| | |].
  - unfold pause, clearInterval. by destruct (tlRef e); cbn; rewrite Href.
  - unfold pause, clearInterval. destruct (tlRef e) as [j|] eqn:Hj; cbn; rewrite Href; cbn;
      rewrite ?Hj.
    + intros i tl' (tl & Htl & ->)%lookup_alter_Some.
      destruct (Htls i tl Htl) as (? & ? & Hfin). rewrite ?Hj.
      case_decide; (split; [done|]; split; [done|]; destruct Hfin; auto).
    + intros i tl Htl. rewrite ?Hj.
      destruct (Htls i tl Htl) as (? & ? & [?|?]); [auto|done].
  - unfold pause, clearInterval. destruct (tlRef e) as [j|] eqn:Hj; cbn; rewrite Href; cbn;
      rewrite ?Hj.
    + rewrite Hiv. rewrite filter_cons, filter_nil. cbn. rewrite decide_False by auto.
      split; [done|]. intros i tl' [= <-] (tl & Htl & ->)%lookup_alter_Some.
      by rewrite decide_True.
    + rewrite Hiv. rewrite filter_cons, filter_nil. cbn. rewrite decide_False by auto.
      done.
Qed.

Lemma calm_resume p e : 0 < delay p → Calm p true e → Calm p false (resume e).
Proof.
  intros Hd [Hwf Hl Htls (Hiv & Hcur)].
  split; [by apply wf_resume| | |].
  - unfold resume. by destruct (tlRef e).
  - unfold resume. destruct (tlRef e) as [j|] eqn:Hj; cbn; rewrite ?Hj.
    + intros i tl' (tl & Htl & ->)%lookup_alter_Some.
      destruct (Htls i tl Htl) as (? & ? & Hfin). rewrite ?Hj.
      case_decide; (split; [done|]; split; [done|]; destruct Hfin; auto).
    + intros i tl Htl. rewrite ?Hj.
      destruct (Htls i tl Htl) as (? & ? & [?|?]); [auto|done].
  - exists (next_timer e), 0. unfold resume.
    destruct (tlRef e) as [j|] eqn:Hj; cbn; rewrite ?Hj.
    + rewrite Hiv. split; [done|]. split; [done|]. split; [lia|].
      intros i tl' [= <-] (tl & Htl & ->)%lookup_alter_Some.
      rewrite decide_True by done. cbn. split; [done|].
      destruct (Htls j tl Htl) as (? & ? & _). lia.
    + rewrite Hiv. split; [done|]. split; [done|]. split; [lia|]. done.
Qed.

(** While paused, a tick changes nothing. *)
Lemma calm_frozen p e : Calm p true e → tick p e = Ok e.
Proof.
  intros [Hwf Hl Htls (Hiv & Hcur)]. unfold tick.
  rewrite animate_frozen.
  - unfold run_timers. rewrite Hiv. cbn. by rewrite <-Hiv, set_intervals_same.
  - apply Forall_lookup. intros i tl Htl.
    destruct (Htls i tl Htl) as (_ & _ & [?|Hi]); [by right|]. left. by eapply Hcur.
Qed.

Lemma elapse_frozen p e n : tick p e = Ok e → elapse p n e = Ok e.
Proof. intros H. induction n as [|n IH]; [done|]. cbn [elapse]. by rewrite H. Qed.

Lemma calm_detach p paused e i :
  Calm p paused e → Calm p paused (set_refs (<[i := None]> (refs e)) e).
Proof.
  intros [Hwf Hl Htls Hmode]. split; [|done..].
  destruct Hwf. split; cbn; [done| |done]. by rewrite length_insert.
Qed.

Lemma calm_tick p paused e :
  cycle_ms p < delay p →
  Calm p paused e →
  ∃ e', tick p e = Ok e' ∧ Calm p paused e' ∧ (Serial p e → Serial p e').
Proof.
  intros Hcyc Hcalm. destruct paused.
  { exists e. split; [by apply calm_frozen|done]. }
  pose proof (calm_mode p false e Hcalm) as (id & r & Hiv & _).
  destruct (decide (r + 1 < delay p)).
  - destruct (calm_tick_quiet p e id r) as (e' & ? & ? & _ & _ & ?); [done..|]. eauto.
  - apply (calm_tick_fire p e id r); [done..|lia].
Qed.

Lemma calm_run p evs inside e :
  cycle_ms p < delay p →
  disciplined inside evs = true →
  Calm p (inside && pauseOnHover p) e →
  Serial p e →
  ∃ e', run p evs e = Ok e'
        ∧ Calm p (hovering inside evs && pauseOnHover p) e'
        ∧ Serial p e'.
Proof.
  intros Hcyc. pose proof (cycle_ms_pos p) as Hpos.
  revert inside e. induction evs as [|ev evs IH]; intros inside e Hd Hcalm Hser.
  { by exists e. }
  pose proof (calm_listening p _ e Hcalm) as Hl.
  destruct ev; cbn [disciplined hovering run step] in *; rewrite ?Hl.
  - destruct (calm_tick p _ e Hcyc Hcalm) as (e1 & -> & Hcalm1 & Hser1).
    cbn [mbind result_bind]. apply IH; auto.
  - apply andb_prop in Hd as [Hin Hd]. destruct inside; [done|].
    cbn [mbind result_bind]. apply IH; [done| |].
    + destruct (pauseOnHover p); [by apply calm_pause|done].
    + destruct (pauseOnHover p); [by apply serial_pause|done].
  - apply andb_prop in Hd as [Hin Hd]. destruct inside; [|done].
    cbn [mbind result_bind]. apply IH; [done| |].
    + destruct (pauseOnHover p); [apply calm_resume; [lia|done]|done].
    + destruct (pauseOnHover p); [by apply serial_resume|done].
  - cbn [mbind result_bind]. apply IH; [done| |].
    + by apply calm_detach.
    + by apply (serial_same p e).
  - done.
  - done.
Qed.

(** After a resume the timer needs its whole period before it fires. *)
Lemma calm_window p e (n : nat) :
  cycle_ms p < delay p →
  Calm p true e →
  Z.of_nat n < delay p →
  ∃ e1, elapse p n (resume e) = Ok e1
        ∧ Calm p false e1
        ∧ intervals e1 = [{| iv_id := next_timer e; iv_elapsed := Z.of_nat n |}]
        ∧ length (timelines e1) = length (timelines e).
Proof.
  intros Hcyc Hcalm. pose proof (cycle_ms_pos p) as Hpos.
  induction n as [|n IH]; intros Hn.
  - exists (resume e). split; [done|]. split; [apply calm_resume; [lia|done]|].
    destruct Hcalm as [_ _ _ (Hiv & _)]. unfold resume.
    destruct (tlRef e); cbn; rewrite Hiv, ?length_alter; done.
  - destruct IH as (e1 & He1 & Hcalm1 & Hiv1 & Hlen1); [lia|].
    destruct (calm_tick_quiet p e1 _ _ Hcalm1 Hiv1)
      as (e2 & He2 & Hcalm2 & Hiv2 & Hlen2 & _); [lia|].
    exists e2. split.
    + pose proof (elapse_succ p n (Ok (resume e))) as Hs.
      cbn [mbind result_bind] in Hs. rewrite Hs, He1. done.
    + split; [done|]. split; [|lia].
      rewrite Hiv2. do 2 f_equal. lia.
Qed.

(** C1, as amended.  Let one cycle's timeline ([cycle_ms]) be shorter than
    the timer period, so that cycles never overlap, and let the component
    stay mounted, with pointer events (if any) arriving alternately from
    pointer-enter on.  Then after any such run the order is the identity
    rotated left by the number of completed cycles (modulo N, as [rotate]
    does).  Cycles do complete: with at least two cards, all of them
    elements, and no other event, [k] periods and [r] milliseconds after
    mount their number is [k], or [k + 1] once the cycle in flight has
    reached its end. *)
Theorem rotation_by_completed_cycles (p : Props) (evs : list Event) (k r : nat) :
  cycle_ms p < delay p →
  disciplined false evs = true →
  (∃ e, (started p ≫= run p evs) = Ok e
        ∧ order e = rotate (completed e) (seq 0 (length (children p))))
  ∧ ((2 ≤ length (children p))%nat →
     TextNode ∉ children p →
     Z.of_nat r < delay p →
     ∃ e, (started p ≫= elapse p (k * Z.to_nat (delay p) + r)) = Ok e
          ∧ completed e = (if decide (Z.of_nat r < cycle_ms p) then k else S k)
          ∧ order e = rotate (completed e) (seq 0 (length (children p)))).
Proof.
  intros Hlt Hdisc. split.
  - destruct (calm_started p Hlt) as (e0 & He0 & Hcalm0 & Hser0).
    destruct (calm_run p evs false e0 Hlt Hdisc Hcalm0 Hser0) as (e & He & _ & Hser).
    exists e. split; [by rewrite He0|]. apply Hser.
  - intros HN Hno Hr.
    destruct (steady_run p k r HN Hno Hlt Hr) as (e & He & Hst).
    exists e. split; [done|].
    pose proof (steady_completed p k _ e Hst) as Hc.
    split.
    + rewrite Hc. destruct (decide _); lia.
    + rewrite Hc. apply (st_order p k _ e Hst).
Qed.

(** Three cards with the home page's props: the rotation started by the
    effect completes after 2350 ms and leaves [1;2;0]; one period later
    the next one has completed and the order is [2;0;1]. *)
Lemma rotation_by_completed_cycles_witness :
  ∃ e, (started (defaults 3) ≫= elapse (defaults 3) (1 * Z.to_nat 5000 + 2350)) = Ok e
       ∧ completed e = 2%nat
       ∧ order e = [2; 0; 1]%nat.
Proof.
  destruct (rotation_by_completed_cycles (defaults 3) [Tick; MouseEnter; Tick] 1 2350)
    as (_ & H).
  - vm_compute. reflexivity.
  - reflexivity.
  - destruct H as (e & He & Hc & Ho).
    + cbn. lia.
    + vm_compute. intros H.
      repeat (inversion H as [|? ? ? H']; subst; clear H; rename H' into H).
    + vm_compute. reflexivity.
    + exists e. split; [exact He|]. split; [exact Hc|]. rewrite Ho, Hc. reflexivity.
Defined.

(** C1, as stated, fails.  With 24 cards and the home page's props one
    cycle's timeline lasts 5500 ms, longer than the 5000 ms period.  The
    timer fires while the first cycle is still in flight and starts a second
    cycle from the same order, so after 10500 ms two cycles have completed
    but the order is the identity rotated by one. *)
Lemma overlapping_cycles_rotate_once :
  ∃ e, (started (defaults 24) ≫= elapse (defaults 24) (Z.to_nat 10500)) = Ok e
       ∧ cycle_ms (defaults 24) = 5500
       ∧ completed e = 2%nat
       ∧ order e = rotate 1 (seq 0 24)
       ∧ order e ≠ rotate (completed e) (seq 0 24).
Proof.
  eexists. split; [vm_compute; reflexivity|].
  split; [by vm_compute|]. split; [by vm_compute|]. split; by vm_compute.
Qed.

(** ** Hovering *)

(** C5, as amended.  Let the hover listeners be attached and let one
    cycle's timeline be shorter than the timer period.  Since the component
    was mounted let the effect neither have run again nor have been cleaned
    up, and let the pointer events have arrived alternately, beginning with
    pointer-enter, the last one being a pointer-enter.  Then (1) however
    many milliseconds [m] pass, the engine state, and with it the order,
    stays exactly as it is; (2) pointer-leave
    runs [resume], which arms a fresh timer with nothing elapsed: after
    [n] milliseconds, [n] below the period, that timer has run [n]
    milliseconds without firing and no timeline has been created; and
    (3) a pointer-enter at that moment runs [pause], after which the state
    is again unchanged by any number of milliseconds. *)
Theorem hover_pause_and_resume (p : Props) (evs : list Event) (n m : nat) :
  pauseOnHover p = true →
  cycle_ms p < delay p →
  disciplined false evs = true →
  hovering false evs = true →
  Z.of_nat n < delay p →
  ∃ e e1,
    (started p ≫= run p evs) = Ok e
    ∧ elapse p m e = Ok e
    ∧ step p e MouseLeave = Ok (resume e)
    ∧ elapse p n (resume e) = Ok e1
    ∧ intervals e1 = [{| iv_id := next_timer e; iv_elapsed := Z.of_nat n |}]
    ∧ length (timelines e1) = length (timelines e)
    ∧ step p e1 MouseEnter = Ok (pause e1)
    ∧ elapse p m (pause e1) = Ok (pause e1).
Proof.
  intros Hhover Hcyc Hdisc Hin Hn.
  destruct (calm_started p Hcyc) as (e0 & He0 & Hcalm0 & Hser0).
  destruct (calm_run p evs false e0 Hcyc Hdisc Hcalm0 Hser0) as (e & He & Hcalm & _).
  rewrite Hin, Hhover in Hcalm. cbn [andb] in Hcalm.
  destruct (calm_window p e n Hcyc Hcalm Hn) as (e1 & He1 & Hcalm1 & Hiv1 & Hlen1).
  exists e, e1. split; [by rewrite He0|].
  split; [by apply elapse_frozen, (calm_frozen p)|].
  split; [cbn; by rewrite (calm_listening p true e Hcalm), Hhover|].
  split; [done|]. split; [done|]. split; [done|].
  split; [cbn; by rewrite (calm_listening p false e1 Hcalm1), Hhover|].
  by apply elapse_frozen, (calm_frozen p), calm_pause.
Qed.

Lemma hover_pause_and_resume_witness :
  ∃ e e1,
    (started (with_hover (defaults 3))
       ≫= run (with_hover (defaults 3)) (replicate 1000 Tick ++ [MouseEnter])) = Ok e
    ∧ elapse (with_hover (defaults 3)) 3000 e = Ok e
    ∧ step (with_hover (defaults 3)) e MouseLeave = Ok (resume e)
    ∧ elapse (with_hover (defaults 3)) 4999 (resume e) = Ok e1
    ∧ intervals e1 = [{| iv_id := next_timer e; iv_elapsed := Z.of_nat 4999 |}]
    ∧ length (timelines e1) = length (timelines e)
    ∧ step (with_hover (defaults 3)) e1 MouseEnter = Ok (pause e1)
    ∧ elapse (with_hover (defaults 3)) 3000 (pause e1) = Ok (pause e1).
Proof.
  apply (hover_pause_and_resume (with_hover (defaults 3))
           (replicate 1000 Tick ++ [MouseEnter]) 4999 3000).
  - reflexivity.
  - vm_compute. reflexivity.
  - vm_compute. reflexivity.
  - vm_compute. reflexivity.
  - vm_compute. reflexivity.
Defined.

(** C5, as stated, fails.  With 24 cards the first cycle's timeline (5500
    ms) is still playing when the timer starts the second one at 5000 ms.
    A pointer-enter right after that pauses only the second timeline, the
    one [tlRef] holds; 500 ms later, while paused, the first timeline
    reaches its end and changes the order. *)
Lemma pause_misses_overlapping_cycle :
  ∃ e e',
    (started (with_hover (defaults 24))
       ≫= run (with_hover (defaults 24)) (replicate (Z.to_nat 5000) Tick ++ [MouseEnter])) = Ok e
    ∧ elapse (with_hover (defaults 24)) 500 e = Ok e'
    ∧ order e = seq 0 24
    ∧ order e' = rotate 1 (seq 0 24)
    ∧ order e' ≠ order e.
Proof.
  eexists. eexists. split; [vm_compute; reflexivity|].
  split; [vm_compute; reflexivity|].
  split; [by vm_compute|]. split; by vm_compute.
Qed.

(** The amended statement of C5 says nothing about a pointer-leave that
    arrives first (the pointer was inside when the listeners were
    attached).  There [resume] arms a second timer without clearing the
    first, the following [pause] clears only the second, and the first
    keeps rotating the cards while the pointer is inside. *)
Lemma leave_before_enter_keeps_a_timer :
  ∃ e e',
    (started (with_hover (defaults 3))
       ≫= run (with_hover (defaults 3)) [MouseLeave; MouseEnter]) = Ok e
    ∧ intervals e = [{| iv_id := 0; iv_elapsed := 0 |}]
    ∧ order e = [0; 1; 2]%nat
    ∧ elapse (with_hover (defaults 3)) (Z.to_nat 7350) e = Ok e'
    ∧ order e' = [1; 2; 0]%nat.
Proof.
  eexists. eexists. split; [vm_compute; reflexivity|].
  split; [by vm_compute|]. split; [by vm_compute|].
  split; [vm_compute; reflexivity|]. by vm_compute.
Qed.

(** The condition of C5 that the effect has not run again since the mount
    cannot be dropped.  The cleanup leaves the timeline of the first cycle
    playing and the re-run starts a new one, which [tlRef] then holds; a
    pointer-enter pauses only that one and clears the timer, and the first
    timeline changes the order when it ends, 2350 ms after mount, while
    the pointer is inside. *)
Lemma rerun_before_pause_keeps_a_cycle_running :
  ∃ e e',
    (started (with_hover (defaults 3))
       ≫= run (with_hover (defaults 3)) (replicate 100 Tick ++ [Rerun; MouseEnter])) = Ok e
    ∧ intervals e = []
    ∧ order e = [0; 1; 2]%nat
    ∧ elapse (with_hover (defaults 3)) 2250 e = Ok e'
    ∧ order e' = [1; 2; 0]%nat.
Proof.
  eexists. eexists. split; [vm_compute; reflexivity|].
  split; [by vm_compute|]. split; [by vm_compute|].
  split; [vm_compute; reflexivity|]. by vm_compute.
Qed.

(** ** The schedule of a cycle *)

Lemma promote_explicit p rfs rest i tl P :
  tl_labels tl !! "promote" = Some P →
  Forall (fun idx => (idx < length rfs)%nat) rest →
  promote p rfs rest i tl = Ok (tl_extend (promoted p rfs rest i P) tl).
Proof.
  intros HP Hrest. revert i tl HP.
  induction Hrest as [|idx rest Hidx Hrest IH]; intros i tl HP.
  { cbn [promote promoted]. f_equal. destruct tl. unfold tl_extend. cbn.
    by rewrite app_nil_r. }
  cbn [promote promoted]. apply lookup_lt_is_Some_2 in Hidx as [[el|] Hel]; rewrite Hel.
  - unfold tl_set, tl_to, tl_call. rewrite !tl_add_extend, !tl_extend_extend.
    cbn [resolve tl_extend tl_labels]. rewrite HP.
    change (default ?d (Some P)) with P. cbn [app].
    rewrite IH by exact HP. rewrite tl_extend_extend, !Z.add_0_r. reflexivity.
  - by apply IH.
Qed.

(** The timeline [build] returns, child by child. *)
Lemma build_explicit p rfs front rest elFront :
  Forall (fun idx => (idx < length rfs)%nat) rest →
  let c := config p in
  let P := durDrop c - durDrop c * promoteOverlap c / 100 in
  let R := P + durMove c * returnDelay c / 100 in
  let backSlot :=
    makeSlot (Z.of_nat (length rfs) - 1) (cardDistance p) (verticalDistance p)
      (Z.of_nat (length rfs)) in
  ∃ tl,
    build p rfs front rest elFront = Ok tl
    ∧ tl_labels tl !! "promote" = Some P
    ∧ tl_labels tl !! "return" = Some R
    ∧ tl_children tl =
        [ {| ch_start := 0; ch_dur := durDrop c; ch_act := To elFront (DropBy 500) (ease c) |} ]
        ++ promoted p rfs rest 0 P
        ++ [ {| ch_start := R; ch_dur := 0; ch_act := Call (CbSetZ elFront (slot_zIndex backSlot)) |};
             {| ch_start := R; ch_dur := durReturn c;
                ch_act := To elFront (MoveTo backSlot) (ease c) |};
             {| ch_start := R; ch_dur := 0; ch_act := Call (CbSetFront elFront false) |};
             commit_child (duration tl) (rest ++ [front]) ].
Proof.
  intros Hrest c P R backSlot.
  pose proof (config_bounds p) as (Hdrop & _).
  fold c in Hdrop.
  unfold build. fold c.
  set (tl2 := tl_addLabel _ _ _).
  assert (duration tl2 = durDrop c) as Hd2.
  { unfold duration, tl2. cbn. unfold child_end. cbn. lia. }
  assert (tl_labels tl2 !! "promote" = Some P) as Hl2.
  { unfold tl2, tl_addLabel. cbn [tl_labels]. rewrite lookup_insert_eq. f_equal.
    cbn [resolve]. change (duration (tl_to _ _ _ _ _ _)) with (duration tl2).
    rewrite Hd2. unfold P. lia. }
  rewrite (promote_explicit p rfs rest 0 tl2 P Hl2 Hrest). cbn [mbind result_bind].
  set (tl3 := tl_extend _ tl2).
  set (tl4 := tl_addLabel "return" _ tl3).
  assert (tl_labels tl4 !! "return" = Some R) as Hl4.
  { unfold tl4, tl_addLabel. cbn [tl_labels]. rewrite lookup_insert_eq. f_equal.
    cbn [resolve tl3 tl_extend tl_labels]. rewrite Hl2. done. }
  assert (tl_labels tl4 !! "promote" = Some P) as Hl4'.
  { unfold tl4, tl_addLabel. cbn [tl_labels]. by rewrite lookup_insert_ne. }
  unfold tl_call, tl_to. rewrite !tl_add_extend.
  cbn [resolve tl_extend tl_labels]. rewrite Hl4.
  change (default ?d (Some R)) with R.
  rewrite !tl_extend_extend. cbn [app].
  rewrite !Z.add_0_r.
  match goal with
  | |- context [tl_extend [?a; ?b; ?c'; ?d] tl4] =>
      set (c5 := a); set (c6 := b); set (c7 := c')
  end.
  set (D7 := duration (tl_extend [c5; c6; c7] tl4)).
  set (tl := tl_extend _ tl4).
  assert (duration tl = D7) as Hdur.
  { unfold tl. rewrite duration_tl_extend.
    change (span [c5; c6; c7; ?x]) with (span ([c5; c6; c7] ++ [x])).
    rewrite span_app. unfold D7. rewrite duration_tl_extend.
    change (span [?x]) with (Z.max (child_end x) 0).
    unfold child_end at 1. cbn [ch_start ch_dur].
    pose proof (span_nonneg [c5; c6; c7]). pose proof (span_nonneg (tl_children tl4)).
    unfold duration in *. lia. }
  exists tl. split; [done|]. split; [done|]. split; [done|].
  rewrite Hdur. reflexivity.
Qed.

Lemma filter_promoted_other p rfs rest i P el :
  (∀ idx, idx ∈ rest → rfs !! idx ≠ Some (Some el)) →
  filter (fun c => target (ch_act c) = Some el) (promoted p rfs rest i P) = [].
Proof.
  revert i. induction rest as [|idx rest IH]; intros i Hno; [done|].
  cbn [promoted].
  assert (∀ idx', idx' ∈ rest → rfs !! idx' ≠ Some (Some el)) as Hno'.
  { intros idx' H. apply Hno. by apply list_elem_of_further. }
  destruct (rfs !! idx) as [[el'|]|] eqn:Hel; [|by apply IH..].
  assert (el' ≠ el) as Hne.
  { intros ->. by apply (Hno idx); [apply list_elem_of_here|]. }
  rewrite filter_app, IH by done. rewrite app_nil_r.
  rewrite !filter_cons, filter_nil. cbn [target ch_act].
  rewrite !decide_False by congruence. done.
Qed.

Lemma filter_promoted_at p rfs rest i P (j idx : nat) el :
  NoDup rest →
  (∀ a b x, rfs !! a = Some (Some x) → rfs !! b = Some (Some x) → a = b) →
  rest !! j = Some idx →
  rfs !! idx = Some (Some el) →
  filter (fun c => target (ch_act c) = Some el) (promoted p rfs rest i P) =
    let slot :=
      makeSlot (i + Z.of_nat j) (cardDistance p) (verticalDistance p)
        (Z.of_nat (length rfs)) in
    [ {| ch_start := P; ch_dur := 0; ch_act := SetZ el (slot_zIndex slot) |};
      {| ch_start := P + (i + Z.of_nat j) * 150; ch_dur := durMove (config p);
         ch_act := To el (MoveTo slot) (ease (config p)) |};
      {| ch_start := P; ch_dur := 0;
         ch_act := Call (CbSetFront el (bool_decide (i + Z.of_nat j = 0))) |} ].
Proof.
  intros Hnd Hinj. revert i j. induction rest as [|idx' rest IH]; intros i j Hj Hel; [done|].
  apply NoDup_cons in Hnd as [Hfresh Hnd].
  destruct j as [|j]; cbn in Hj.
  - injection Hj as ->. cbn [promoted]. rewrite Hel. cbn zeta.
    rewrite filter_app, filter_promoted_other.
    + rewrite app_nil_r, !filter_cons, filter_nil. cbn [target ch_act].
      rewrite !decide_True by done. by rewrite !Z.add_0_r.
    + intros idx' Hin Hel'. apply Hfresh. by rewrite (Hinj _ _ _ Hel Hel').
  - assert (filter (fun c => target (ch_act c) = Some el) (promoted p rfs rest (i + 1) P)
            = filter (fun c => target (ch_act c) = Some el)
                (promoted p rfs (idx' :: rest) i P)) as <-.
    { cbn [promoted]. destruct (rfs !! idx') as [[el'|]|] eqn:Hel'; [|done..].
      assert (el' ≠ el) as Hne.
      { intros ->. apply Hfresh. rewrite (Hinj _ _ _ Hel' Hel).
        by eapply list_elem_of_lookup_2. }
      rewrite filter_app, !filter_cons, filter_nil. cbn [target ch_act].
      by rewrite !decide_False by congruence. }
    rewrite (IH Hnd (i + 1) j Hj Hel). cbn zeta.
    by replace (i + 1 + Z.of_nat j) with (i + Z.of_nat (S j)) by lia.
Qed.

Lemma refs_ok_inj e a b x :
  refs_ok e → refs e !! a = Some (Some x) → refs e !! b = Some (Some x) → a = b.
Proof. intros Hok Ha Hb. by rewrite <-(Hok _ _ Ha), <-(Hok _ _ Hb). Qed.

(** The timeline [swap] adds when the front card has its element, child by
    child. *)
Lemma swap_explicit p e front rest elFront :
  wf (length (children p)) e →
  order e = front :: rest →
  rest ≠ [] →
  refs e !! front = Some (Some elFront) →
  let c := config p in
  let N := Z.of_nat (length (children p)) in
  let P := durDrop c - durDrop c * promoteOverlap c / 100 in
  let R := P + durMove c * returnDelay c / 100 in
  let backSlot := makeSlot (N - 1) (cardDistance p) (verticalDistance p) N in
  NoDup (front :: rest)
  ∧ length (front :: rest) = length (children p)
  ∧ ∃ tl,
      swap p e = Ok (new_timeline tl e)
      ∧ tl_labels tl !! "promote" = Some P
      ∧ tl_labels tl !! "return" = Some R
      ∧ tl_children tl =
          [ {| ch_start := 0; ch_dur := durDrop c; ch_act := To elFront (DropBy 500) (ease c) |} ]
          ++ promoted p (refs e) rest 0 P
          ++ [ {| ch_start := R; ch_dur := 0;
                  ch_act := Call (CbSetZ elFront (slot_zIndex backSlot)) |};
               {| ch_start := R; ch_dur := durReturn c;
                  ch_act := To elFront (MoveTo backSlot) (ease c) |};
               {| ch_start := R; ch_dur := 0; ch_act := Call (CbSetFront elFront false) |};
               commit_child (duration tl) (rest ++ [front]) ].
Proof.
  intros Hwf Ho Hne Hf c N P R backSlot.
  pose proof (wf_bound _ _ Hwf) as Hb. rewrite Ho in Hb.
  apply Forall_cons in Hb as [_ Hrest].
  pose proof (wf_order _ _ Hwf) as Hperm. rewrite Ho in Hperm.
  split; [rewrite Hperm; apply NoDup_seq|].
  split; [by rewrite Hperm, length_seq|].
  destruct (swap_runs p e front rest elFront Ho Hne Hf Hrest) as (tl & Hb & Hs).
  destruct (build_explicit p (refs e) front rest elFront Hrest)
    as (tl' & Hb' & HP & HR & Hch).
  rewrite Hb in Hb'. injection Hb' as <-.
  exists tl. split; [done|]. split; [done|]. split; [done|].
  rewrite Hch. unfold backSlot, N. by rewrite (wf_refs _ _ Hwf).
Qed.

(** X1. The PROMOTE phase, card by card.  When [swap] starts a cycle, the
    card at position [j + 1] of the order (the [j]-th of the remaining
    cards), if its ref holds an element, gets exactly three children in the
    timeline: its [zIndex] is set to [N - j] at the label [promote], a
    tween of length [durMove] to slot [j] starts [150 * j] ms after that
    label, and [data-is-front] is set at the label, to [true] for [j = 0]
    only.  The label [promote] lies [durDrop * promoteOverlap] before the
    end of the DROP tween.  (The first two hypotheses hold in every state
    a mounted component reaches.) *)
Theorem promote_schedule (p : Props) (e : Engine) (front : nat) (rest : list nat)
  (elFront : Element) (j idx : nat) (el : Element) :
  wf (length (children p)) e →
  refs_ok e →
  order e = front :: rest →
  refs e !! front = Some (Some elFront) →
  rest !! j = Some idx →
  refs e !! idx = Some (Some el) →
  let c := config p in
  let P := durDrop c - durDrop c * promoteOverlap c / 100 in
  let slot :=
    makeSlot (Z.of_nat j) (cardDistance p) (verticalDistance p)
      (Z.of_nat (length (children p))) in
  ∃ tl,
    swap p e = Ok (new_timeline tl e)
    ∧ tl_labels tl !! "promote" = Some P
    ∧ children_for el tl =
        [ {| ch_start := P; ch_dur := 0;
             ch_act := SetZ el (Z.of_nat (length (children p)) - Z.of_nat j) |};
          {| ch_start := P + 150 * Z.of_nat j; ch_dur := durMove c;
             ch_act := To el (MoveTo slot) (ease c) |};
          {| ch_start := P; ch_dur := 0;
             ch_act := Call (CbSetFront el (bool_decide (j = 0%nat))) |} ].
Proof.
  intros Hwf Hok Ho Hf Hj Hel c P slot.
  assert (rest ≠ []) as Hne by (intros ->; done).
  destruct (swap_explicit p e front rest elFront Hwf Ho Hne Hf)
    as (Hnd & _ & tl & Hs & HP & _ & Hch).
  exists tl. split; [done|]. split; [done|].
  apply NoDup_cons in Hnd as [Hfresh Hnd].
  assert (elFront ≠ el) as Hneq.
  { intros ->. apply Hfresh. rewrite (refs_ok_inj e _ _ _ Hok Hf Hel).
    by eapply list_elem_of_lookup_2. }
  unfold children_for. rewrite Hch, !filter_app.
  rewrite (filter_promoted_at p (refs e) rest 0 _ j idx el Hnd
             (fun a b x => refs_ok_inj e a b x Hok) Hj Hel).
  rewrite !filter_cons, filter_nil. cbn [target ch_act commit_child].
  rewrite !decide_False by congruence. cbn [app]. cbn zeta.
  rewrite (wf_refs _ _ Hwf), !Z.add_0_l.
  replace (Z.of_nat j * 150) with (150 * Z.of_nat j) by lia.
  do 3 f_equal. do 3 f_equal.
  apply bool_decide_ext. lia.
Qed.

(** X2. The DROP and RETURN phases.  When [swap] starts a cycle the front
    card gets exactly four children in the timeline: the DROP tween from 0,
    and at the label [return] its [zIndex] set to 1, the tween of length
    [durReturn] to the last slot, and [data-is-front] set to [false].  The
    label [return] lies [durMove * returnDelay] after the label
    [promote]. *)
Theorem front_schedule (p : Props) (e : Engine) (front : nat) (rest : list nat)
  (elFront : Element) :
  wf (length (children p)) e →
  refs_ok e →
  order e = front :: rest →
  rest ≠ [] →
  refs e !! front = Some (Some elFront) →
  let c := config p in
  let N := Z.of_nat (length (children p)) in
  let R :=
    durDrop c - durDrop c * promoteOverlap c / 100 + durMove c * returnDelay c / 100 in
  ∃ tl,
    swap p e = Ok (new_timeline tl e)
    ∧ tl_labels tl !! "return" = Some R
    ∧ children_for elFront tl =
        [ {| ch_start := 0; ch_dur := durDrop c;
             ch_act := To elFront (DropBy 500) (ease c) |};
          {| ch_start := R; ch_dur := 0; ch_act := Call (CbSetZ elFront 1) |};
          {| ch_start := R; ch_dur := durReturn c;
             ch_act :=
               To elFront (MoveTo (makeSlot (N - 1) (cardDistance p) (verticalDistance p) N))
                 (ease c) |};
          {| ch_start := R; ch_dur := 0; ch_act := Call (CbSetFront elFront false) |} ].
Proof.
  intros Hwf Hok Ho Hne Hf c N R.
  destruct (swap_explicit p e front rest elFront Hwf Ho Hne Hf)
    as (Hnd & _ & tl & Hs & _ & HR & Hch).
  exists tl. split; [done|]. split; [done|].
  apply NoDup_cons in Hnd as [Hfresh Hnd].
  unfold children_for. rewrite Hch, !filter_app, filter_promoted_other.
  - rewrite !filter_cons, filter_nil. cbn [target ch_act commit_child app].
    rewrite !decide_True by done. rewrite decide_False by done.
    cbn [slot_zIndex makeSlot]. fold N. by replace (N - (N - 1)) with 1 by lia.
  - intros idx Hin Hel. apply Hfresh. by rewrite (refs_ok_inj e _ _ _ Hok Hf Hel).
Qed.

(** Where a timeline with the children of a timeline that [build]
    returned leaves the cards. *)
Lemma build_places p rfs front rest elFront tl0 tl (j idx : nat) el :
  build p rfs front rest elFront = Ok tl0 →
  tl_children tl = tl_children tl0 →
  Forall (fun idx => (idx < length rfs)%nat) rest →
  NoDup (front :: rest) →
  (∀ a b x, rfs !! a = Some (Some x) → rfs !! b = Some (Some x) → a = b) →
  rfs !! front = Some (Some elFront) →
  rest ≠ [] →
  S (length rest) = length rfs →
  (rest ++ [front]) !! j = Some idx →
  rfs !! idx = Some (Some el) →
  let N := Z.of_nat (length rfs) in
  slot_after el tl = Some (makeSlot (Z.of_nat j) (cardDistance p) (verticalDistance p) N)
  ∧ zIndex_after el tl = Some (N - Z.of_nat j)
  ∧ is_front_after el tl = Some (bool_decide (j = 0%nat)).
Proof.
  intros Hb Hsame Hrest Hnd Hinj Hf Hne Hlen Hj Hel N.
  destruct (build_explicit p rfs front rest elFront Hrest) as (tl' & Hb' & _ & _ & Hch).
  rewrite Hb in Hb'. injection Hb' as <-.
  apply NoDup_cons in Hnd as [Hfresh Hnd].
  unfold slot_after, zIndex_after, is_front_after, children_for.
  rewrite Hsame, Hch, !filter_app.
  destruct (decide (j < length rest)%nat) as [Hlt | Hge].
  - rewrite lookup_app_l in Hj by done.
    assert (elFront ≠ el) as Hneq.
    { intros ->. apply Hfresh. rewrite (Hinj _ _ _ Hf Hel).
      by eapply list_elem_of_lookup_2. }
    rewrite (filter_promoted_at p rfs rest 0 _ j idx el Hnd Hinj Hj Hel).
    rewrite !filter_cons, filter_nil. cbn [target ch_act commit_child].
    rewrite !decide_False by congruence. cbn [app]. cbn zeta.
    rewrite !Z.add_0_l. fold N.
    split; [done|]. split; [done|]. cbn. do 2 f_equal. apply bool_decide_ext. lia.
  - rewrite lookup_app_r in Hj by lia.
    destruct (j - length rest)%nat as [|?] eqn:Hd; [|done].
    injection Hj as <-. rewrite Hf in Hel. injection Hel as <-.
    assert (j = length rest) as -> by lia.
    rewrite filter_promoted_other.
    + rewrite !filter_cons, filter_nil. cbn [target ch_act commit_child app].
      rewrite !decide_True by done. rewrite decide_False by done.
      assert (Z.of_nat (length rest) = N - 1) as -> by (unfold N; lia).
      split; [done|]. split; [cbn; do 2 f_equal; lia|].
      cbn. do 2 f_equal. symmetry. apply bool_decide_eq_false_2.
      destruct rest; [done|]. cbn. lia.
    + intros idx Hin Hel. apply Hfresh. by rewrite (Hinj _ _ _ Hf Hel).
Qed.

(** X3. A cycle leaves every card where the new order has it.  Let [swap]
    start a cycle from the order [front :: rest].  For every position [j]
    of the order [rest ++ [front]] that the cycle's UPDATE assigns, the card
    at that position, if its ref holds an element, is left by the timeline
    in slot [j], with [zIndex] [N - j], and flagged as the front card
    exactly when [j = 0]. *)
Theorem cycle_places_cards_by_new_order (p : Props) (e : Engine) (front : nat)
  (rest : list nat) (elFront : Element) (j idx : nat) (el : Element) :
  wf (length (children p)) e →
  refs_ok e →
  order e = front :: rest →
  rest ≠ [] →
  refs e !! front = Some (Some elFront) →
  (rest ++ [front]) !! j = Some idx →
  refs e !! idx = Some (Some el) →
  let N := Z.of_nat (length (children p)) in
  ∃ tl,
    swap p e = Ok (new_timeline tl e)
    ∧ commit_child (duration tl) (rest ++ [front]) ∈ tl_children tl
    ∧ slot_after el tl = Some (makeSlot (Z.of_nat j) (cardDistance p) (verticalDistance p) N)
    ∧ zIndex_after el tl = Some (N - Z.of_nat j)
    ∧ is_front_after el tl = Some (bool_decide (j = 0%nat)).
Proof.
  intros Hwf Hok Ho Hne Hf Hj Hel N.
  destruct (swap_explicit p e front rest elFront Hwf Ho Hne Hf)
    as (Hnd & Hlen & tl & Hs & _ & _ & Hch).
  pose proof (wf_bound _ _ Hwf) as Hb. rewrite Ho in Hb.
  apply Forall_cons in Hb as [_ Hrest].
  destruct (swap_runs p e front rest elFront Ho Hne Hf Hrest) as (tl' & Hb & Hs').
  rewrite Hs in Hs'. injection Hs' as Htl. apply app_inv_head in Htl.
  injection Htl as <-.
  exists tl. split; [done|]. split.
  { rewrite Hch, !elem_of_app, !elem_of_cons. auto 10. }
  cbn [length] in Hlen.
  pose proof (build_places p (refs e) front rest elFront tl tl j idx el Hb eq_refl Hrest Hnd
                (fun a b x => refs_ok_inj e a b x Hok) Hf Hne) as H.
  rewrite (wf_refs _ _ Hwf) in H. by apply H.
Qed.

(** ** What [swap] and a tick leave alone *)

(** [swap] returns its argument or adds one timeline; it touches nothing
    else, whatever the state. *)
Lemma swap_frame p e e' :
  swap p e = Ok e' → e' = e ∨ ∃ tl, e' = new_timeline tl e.
Proof.
  unfold swap. case_bool_decide; [intros [= <-]; by left|].
  destruct (order e) as [|front rest]; [intros [= <-]; by left|].
  destruct (refs e !! front) as [[elFront|]|]; [|intros [= <-]; by left|done].
  destruct (build p (refs e) front rest elFront) as [tl|]; [|done].
  cbn. intros [= <-]. right. by exists tl.
Qed.

(** ** Missing elements *)

(** The PROMOTE loop schedules every remaining card that has its element,
    at the position the card has among all remaining cards. *)
Lemma elem_of_promoted p rfs rest i P (j idx : nat) el :
  rest !! j = Some idx →
  rfs !! idx = Some (Some el) →
  let slot :=
    makeSlot (i + Z.of_nat j) (cardDistance p) (verticalDistance p)
      (Z.of_nat (length rfs)) in
  {| ch_start := P; ch_dur := 0; ch_act := SetZ el (slot_zIndex slot) |}
    ∈ promoted p rfs rest i P
  ∧ {| ch_start := P + (i + Z.of_nat j) * 150; ch_dur := durMove (config p);
       ch_act := To el (MoveTo slot) (ease (config p)) |}
    ∈ promoted p rfs rest i P
  ∧ {| ch_start := P; ch_dur := 0;
       ch_act := Call (CbSetFront el (bool_decide (i + Z.of_nat j = 0))) |}
    ∈ promoted p rfs rest i P.
Proof.
  revert i j. induction rest as [|idx' rest IH]; intros i j Hj Hel; [done|].
  destruct j as [|j]; cbn in Hj.
  - injection Hj as ->. cbn [promoted]. rewrite Hel. cbn zeta.
    rewrite !Z.add_0_r, !elem_of_app, !elem_of_cons. auto 10.
  - destruct (IH (i + 1) j Hj Hel) as (H1 & H2 & H3).
    replace (i + 1 + Z.of_nat j) with (i + Z.of_nat (S j)) in H1, H2, H3 by lia.
    cbn [promoted]. destruct (rfs !! idx') as [[el'|]|]; [|done..].
    rewrite !elem_of_app. auto.
Qed.

(** C8. In a well-formed state [swap] never throws, whichever refs are
    null, and it leaves the order and the refs as they are; the resulting
    state is well-formed.  A null ref costs only the card it belongs to:
    whenever there are at least two cards and the front card has its
    element, [swap] adds the timeline of the cycle.  That timeline holds the
    DROP and RETURN tweens of the front card and, for every remaining card
    that has its element, the PROMOTE children of that card at its position
    [j] among the remaining cards (zIndex, the tween to slot [j] starting
    [150 j] ms after the label, the front flag); a card whose ref is null
    gets no child at all; and the timeline ends with the UPDATE that
    assigns the order with its front moved to the back.  Only with fewer
    than two cards, or when the element of the front card itself is
    missing, is the state returned as it was given. *)
Theorem swap_tolerates_missing_elements (p : Props) (n : nat) (e : Engine) :
  wf n e →
  let c := config p in
  let P := durDrop c - durDrop c * promoteOverlap c / 100 in
  let R := P + durMove c * returnDelay c / 100 in
  let slot i := makeSlot i (cardDistance p) (verticalDistance p) (Z.of_nat n) in
  ∃ e', swap p e = Ok e'
        ∧ order e' = order e
        ∧ refs e' = refs e
        ∧ wf n e'
        ∧ (∀ front rest elFront,
             order e = front :: rest → rest ≠ [] →
             refs e !! front = Some (Some elFront) →
             ∃ tl,
               e' = new_timeline tl e
               ∧ cycle_of tl (rest ++ [front])
               ∧ Forall (fun c => ∀ el, target (ch_act c) = Some el → Some el ∈ refs e)
                        (tl_children tl)
               ∧ {| ch_start := 0; ch_dur := durDrop c;
                    ch_act := To elFront (DropBy 500) (ease c) |} ∈ tl_children tl
               ∧ {| ch_start := R; ch_dur := durReturn c;
                    ch_act := To elFront (MoveTo (slot (Z.of_nat n - 1))) (ease c) |}
                   ∈ tl_children tl
               ∧ ∀ (j idx : nat) el,
                   rest !! j = Some idx → refs e !! idx = Some (Some el) →
                   {| ch_start := P; ch_dur := 0;
                      ch_act := SetZ el (Z.of_nat n - Z.of_nat j) |} ∈ tl_children tl
                   ∧ {| ch_start := P + 150 * Z.of_nat j; ch_dur := durMove c;
                        ch_act := To el (MoveTo (slot (Z.of_nat j))) (ease c) |}
                       ∈ tl_children tl
                   ∧ {| ch_start := P; ch_dur := 0;
                        ch_act := Call (CbSetFront el (bool_decide (j = 0%nat))) |}
                       ∈ tl_children tl)
        ∧ ((length (order e) < 2)%nat
           ∨ (∃ front rest, order e = front :: rest ∧ refs e !! front = Some None) →
           e' = e).
Proof.
  intros Hwf c P R slot. pose proof (wf_bound n e Hwf) as Hb.
  destruct (wf_swap p n e Hwf) as (e' & Hs & Hwf'). exists e'. split; [done|].
  destruct (swap_frame p e e' Hs) as [-> | [tl0 ->]]; (split; [done|]);
    (split; [done|]); (split; [done|]); (split; [|]).
  - (* the state came back unchanged: there was no cycle to run *)
    intros front rest elFront Ho Hne Hf. exfalso.
    rewrite Ho in Hb. apply Forall_cons in Hb as [_ Hrest].
    destruct (swap_runs p e front rest elFront Ho Hne Hf Hrest) as (tl & _ & Hs').
    rewrite Hs in Hs'.
    apply (f_equal (fun x => match x with
                             | Ok y => length (timelines y)
                             | TypeError => 0%nat
                             end)) in Hs'.
    cbn in Hs'. rewrite length_app in Hs'. cbn in Hs'. lia.
  - done.
  - intros front rest elFront Ho Hne Hf.
    rewrite Ho in Hb. apply Forall_cons in Hb as [_ Hrest].
    destruct (swap_runs p e front rest elFront Ho Hne Hf Hrest) as (tl & Hbuild & Hs').
    rewrite Hs in Hs'. injection Hs' as Htl. apply app_inv_head in Htl.
    injection Htl as ->.
    exists tl. split; [done|].
    destruct (build_unique p (refs e) front rest elFront tl) as (_ & _ & Hcyc & Htgt & _);
      [done| |done|].
    { apply list_elem_of_lookup. eauto. }
    split; [done|]. split; [done|].
    destruct (build_explicit p (refs e) front rest elFront Hrest)
      as (tl' & Hb' & _ & _ & Hch).
    rewrite Hbuild in Hb'. injection Hb' as <-.
    rewrite (wf_refs _ _ Hwf) in Hch. fold c P R in Hch.
    split; [rewrite Hch; apply list_elem_of_here|].
    split; [rewrite Hch, !elem_of_app, !elem_of_cons; auto 10|].
    intros j idx el Hj Hel.
    destruct (elem_of_promoted p (refs e) rest 0 P j idx el Hj Hel) as (H1 & H2 & H3).
    cbn zeta in H1, H2, H3. rewrite (wf_refs _ _ Hwf), !Z.add_0_l in H1, H2.
    rewrite !Z.add_0_l in H3. cbn [slot_zIndex makeSlot] in H1.
    replace (Z.of_nat j * 150) with (150 * Z.of_nat j) in H2 by lia.
    assert (bool_decide (Z.of_nat j = 0) = bool_decide (j = 0%nat)) as Hbd
      by (apply bool_decide_ext; lia).
    rewrite Hbd in H3.
    rewrite Hch, !elem_of_app. fold c in H2. auto 10.
  - intros [Hlt | (front & rest & Ho & Hf)]; exfalso.
    + rewrite (swap_short p e Hlt) in Hs.
      apply (f_equal (fun x => match x with
                               | Ok y => length (timelines y)
                               | TypeError => 0%nat
                               end)) in Hs.
      cbn in Hs. rewrite length_app in Hs. cbn in Hs. lia.
    + rewrite (swap_front_null p e front rest Ho Hf) in Hs.
      apply (f_equal (fun x => match x with
                               | Ok y => length (timelines y)
                               | TypeError => 0%nat
                               end)) in Hs.
      cbn in Hs. rewrite length_app in Hs. cbn in Hs. lia.
Qed.

(** Three cards, the element of the second one missing: the cycle runs,
    the third card is promoted to slot 1 (its position among the remaining
    cards), and the UPDATE will assign [1;2;0]. *)
Lemma swap_tolerates_missing_elements_witness :
  ∃ tl,
    swap (defaults 3) (set_refs [Some 0; None; Some 2]%nat (initial (defaults 3)))
      = Ok (new_timeline tl (set_refs [Some 0; None; Some 2]%nat (initial (defaults 3))))
    ∧ cycle_of tl [1; 2; 0]%nat
    ∧ {| ch_start := 350; ch_dur := 2000;
         ch_act := To 2%nat (MoveTo (makeSlot 1 (Qc_of_Z 60) (Qc_of_Z 70) 3))
                     "elastic.out(0.6,0.9)" |} ∈ tl_children tl
    ∧ Forall (fun c => target (ch_act c) ≠ Some 1%nat) (tl_children tl).
Proof.
  destruct (swap_tolerates_missing_elements (defaults 3) 3
              (set_refs [Some 0; None; Some 2]%nat (initial (defaults 3))))
    as (e' & Hs & _ & _ & _ & Hrun & _).
  - split; cbn; [done|done|done].
  - destruct (Hrun 0%nat [1; 2]%nat 0%nat) as (tl & -> & Hcyc & Htgt & _ & _ & Hrest);
      [reflexivity | discriminate | reflexivity |].
    exists tl. split; [exact Hs|]. split; [exact Hcyc|]. split.
    + destruct (Hrest 1%nat 2%nat 2%nat) as (_ & H & _); [reflexivity | reflexivity |].
      exact H.
    + eapply Forall_impl; [exact Htgt|]. cbn beta. intros ch H Heq.
      apply H in Heq. cbn in Heq.
      repeat (inversion Heq as [|? ? ? Heq']; subst; clear Heq; rename Heq' into Heq).
Defined.

Lemma swap_times_refs p k e e' : swap_times p k e = Ok e' → refs e' = refs e.
Proof.
  revert e. induction k as [|k IH]; intros e; cbn [swap_times].
  { by intros [= <-]. }
  destruct (swap p e) as [e1|] eqn:Hs; [|done]. cbn. intros H.
  rewrite (IH _ H). by destruct (swap_frame p e e1 Hs) as [-> | [tl ->]].
Qed.

Lemma tick_refs p e e' : tick p e = Ok e' → refs e' = refs e.
Proof.
  unfold tick, run_timers. intros H. apply swap_times_refs in H.
  by rewrite H, <-(animate_refs e).
Qed.

Lemma clearInterval_refs e : refs (clearInterval e) = refs e.
Proof. unfold clearInterval. by destruct (intervalRef e). Qed.

Lemma pause_refs e : refs (pause e) = refs e.
Proof. unfold pause. rewrite clearInterval_refs. by destruct (tlRef e). Qed.

Lemma resume_refs e : refs (resume e) = refs e.
Proof. unfold resume. by destruct (tlRef e). Qed.

Lemma cleanup_refs e : refs (cleanup e) = refs e.
Proof. unfold cleanup. by rewrite clearInterval_refs. Qed.

Lemma mount_refs p e e' : mount p e = Ok e' → refs e' = refs e.
Proof.
  unfold mount. destruct (swap p e) as [e1|] eqn:Hs; [|done]. cbn.
  intros [= <-].
  assert (refs e1 = refs e) as <-.
  { by destruct (swap_frame p _ e1 Hs) as [-> | [tl ->]]. }
  by destruct (pauseOnHover p).
Qed.

Lemma step_refs_ok p e ev e' : refs_ok e → step p e ev = Ok e' → refs_ok e'.
Proof.
  intros Hok. destruct ev; cbn [step].
  - intros H. apply tick_refs in H. unfold refs_ok. by rewrite H.
  - intros [= <-]. unfold refs_ok. destruct (listening e); [|done].
    by rewrite pause_refs.
  - intros [= <-]. unfold refs_ok. destruct (listening e); [|done].
    by rewrite resume_refs.
  - intros [= <-]. intros j el. cbn [refs set_refs].
    destruct (decide (i = j)) as [-> | Hne].
    + intros H. apply list_lookup_insert_Some in H as [(_ & ? & _) | (? & _)]; done.
    + rewrite list_lookup_insert_ne by done. apply Hok.
  - intros [= <-]. unfold refs_ok. by rewrite cleanup_refs.
  - intros H. apply mount_refs in H. unfold refs_ok. by rewrite H, cleanup_refs.
Qed.

Lemma run_refs_ok p evs e e' : refs_ok e → run p evs e = Ok e' → refs_ok e'.
Proof.
  revert e. induction evs as [|ev evs IH]; intros e Hok; cbn [run].
  { by intros [= <-]. }
  destruct (step p e ev) as [e1|] eqn:Hs; [|done]. cbn.
  apply IH. by eapply step_refs_ok.
Qed.

Lemma refs_ok_initial p : refs_ok (initial p).
Proof.
  intros i el. cbn. unfold initial_refs. rewrite list_lookup_imap.
  destruct (children p !! i) as [[]|]; cbn; congruence.
Qed.

(** Every state a mounted component reaches is well-formed and has
    [refs_ok]. *)
Lemma reachable_ok p evs e :
  (started p ≫= run p evs) = Ok e → wf (length (children p)) e ∧ refs_ok e.
Proof.
  intros H. destruct (wf_started p) as (e0 & He0 & Hwf0). rewrite He0 in H. cbn in H.
  destruct (wf_run p _ evs e0 Hwf0) as (e' & He' & Hwf). rewrite H in He'.
  injection He' as <-. split; [done|].
  apply (run_refs_ok p evs e0); [|done].
  apply mount_refs in He0. unfold refs_ok. rewrite He0. apply refs_ok_initial.
Qed.

Lemma promote_schedule_witness :
  ∃ tl,
    swap (defaults 3) (initial (defaults 3)) = Ok (new_timeline tl (initial (defaults 3)))
    ∧ tl_labels tl !! "promote" = Some 200
    ∧ children_for 2%nat tl =
        [ {| ch_start := 200; ch_dur := 0; ch_act := SetZ 2%nat 2 |};
          {| ch_start := 350; ch_dur := 2000;
             ch_act := To 2%nat (MoveTo (makeSlot 1 (Qc_of_Z 60) (Qc_of_Z 70) 3))
                         "elastic.out(0.6,0.9)" |};
          {| ch_start := 200; ch_dur := 0; ch_act := Call (CbSetFront 2%nat false) |} ].
Proof.
  destruct (promote_schedule (defaults 3) (initial (defaults 3)) 0%nat [1; 2]%nat
              0%nat 1%nat 2%nat 2%nat) as (tl & Hs & HP & Hc).
  - apply wf_initial.
  - apply refs_ok_initial.
  - reflexivity.
  - reflexivity.
  - reflexivity.
  - reflexivity.
  - exists tl. split; [exact Hs|]. split; [exact HP | exact Hc].
Defined.

Lemma front_schedule_witness :
  ∃ tl,
    swap (defaults 3) (initial (defaults 3)) = Ok (new_timeline tl (initial (defaults 3)))
    ∧ tl_labels tl !! "return" = Some 300
    ∧ children_for 0%nat tl =
        [ {| ch_start := 0; ch_dur := 2000;
             ch_act := To 0%nat (DropBy 500) "elastic.out(0.6,0.9)" |};
          {| ch_start := 300; ch_dur := 0; ch_act := Call (CbSetZ 0%nat 1) |};
          {| ch_start := 300; ch_dur := 2000;
             ch_act := To 0%nat (MoveTo (makeSlot 2 (Qc_of_Z 60) (Qc_of_Z 70) 3))
                         "elastic.out(0.6,0.9)" |};
          {| ch_start := 300; ch_dur := 0; ch_act := Call (CbSetFront 0%nat false) |} ].
Proof.
  destruct (front_schedule (defaults 3) (initial (defaults 3)) 0%nat [1; 2]%nat 0%nat)
    as (tl & Hs & HR & Hc).
  - apply wf_initial.
  - apply refs_ok_initial.
  - reflexivity.
  - discriminate.
  - reflexivity.
  - exists tl. split; [exact Hs|]. split; [exact HR | exact Hc].
Defined.

Lemma cycle_places_cards_by_new_order_witness :
  ∃ tl,
    swap (defaults 3) (initial (defaults 3)) = Ok (new_timeline tl (initial (defaults 3)))
    ∧ slot_after 0%nat tl = Some (makeSlot 2 (Qc_of_Z 60) (Qc_of_Z 70) 3)
    ∧ zIndex_after 0%nat tl = Some 1
    ∧ is_front_after 0%nat tl = Some false.
Proof.
  destruct (cycle_places_cards_by_new_order (defaults 3) (initial (defaults 3))
              0%nat [1; 2]%nat 0%nat 2%nat 0%nat 0%nat) as (tl & Hs & _ & H1 & H2 & H3).
  - apply wf_initial.
  - apply refs_ok_initial.
  - reflexivity.
  - discriminate.
  - reflexivity.
  - reflexivity.
  - reflexivity.
  - exists tl. split; [exact Hs|]. split; [exact H1|]. split; [exact H2 | exact H3].
Defined.

(** X4. The length of a cycle.  The timeline [swap] adds is never longer
    than [cycle_ms]: the latest of the end of DROP, the end of the PROMOTE
    tween of the last of the [N - 1] remaining cards, and the end of
    RETURN.  It has exactly that length when every remaining card has its
    element; a missing element can only shorten the cycle.  Every child of
    the timeline has ended when the playhead reaches the UPDATE, which is
    the last child and sits at the end of the timeline. *)
Theorem cycle_length (p : Props) (e : Engine) (front : nat) (rest : list nat)
  (elFront : Element) :
  wf (length (children p)) e →
  order e = front :: rest →
  rest ≠ [] →
  refs e !! front = Some (Some elFront) →
  ∃ tl,
    swap p e = Ok (new_timeline tl e)
    ∧ 0 < duration tl ≤ cycle_ms p
    ∧ (Forall (fun idx => ∃ el, refs e !! idx = Some (Some el)) rest →
       duration tl = cycle_ms p)
    ∧ last (tl_children tl) = Some (commit_child (duration tl) (rest ++ [front]))
    ∧ Forall (fun c => child_end c ≤ duration tl) (tl_children tl).
Proof.
  intros Hwf Ho Hne Hf.
  pose proof (wf_bound _ _ Hwf) as Hb. rewrite Ho in Hb.
  apply Forall_cons in Hb as [_ Hrest].
  pose proof (wf_order _ _ Hwf) as Hperm. rewrite Ho in Hperm.
  assert (length (front :: rest) = length (children p)) as Hlen.
  { by rewrite Hperm, length_seq. }
  cbn [length] in Hlen.
  destruct (swap_runs p e front rest elFront Ho Hne Hf Hrest) as (tl & Hb & Hs).
  destruct (build_spec p (refs e) front rest elFront Hrest)
    as (tl' & Hb' & _ & _ & (cs & Hcs & _) & _ & _ & Hdur & Hfull).
  { apply list_elem_of_lookup. eauto. }
  rewrite Hb in Hb'. injection Hb' as <-.
  assert (Z.of_nat (length rest) - 1 = Z.of_nat (length (children p)) - 2) as Hn by lia.
  rewrite Hn in Hdur, Hfull.
  exists tl. split; [done|]. split; [exact Hdur|]. split; [|split].
  - intros Hall. by apply Hfull.
  - by rewrite Hcs, last_snoc.
  - apply Forall_forall. intros c Hc. by apply span_elem.
Qed.

Lemma cycle_length_witness :
  ∃ tl,
    swap (defaults 3) (initial (defaults 3)) = Ok (new_timeline tl (initial (defaults 3)))
    ∧ duration tl = 2350.
Proof.
  destruct (cycle_length (defaults 3) (initial (defaults 3)) 0%nat [1; 2]%nat 0%nat)
    as (tl & Hs & _ & Hd & _).
  - apply wf_initial.
  - reflexivity.
  - discriminate.
  - reflexivity.
  - exists tl. split; [exact Hs|]. rewrite Hd; [reflexivity|].
    repeat constructor; eexists; reflexivity.
Defined.

(** ** When [swap] throws *)

Lemma promote_throws p rfs rest i tl :
  promote p rfs rest i tl = TypeError ↔ Exists (fun idx => rfs !! idx = None) rest.
Proof.
  revert i tl. induction rest as [|idx rest IH]; intros i tl; cbn [promote].
  { split; [done|]. by intros ?%Exists_nil. }
  rewrite Exists_cons. destruct (rfs !! idx) as [[el|]|] eqn:Hel.
  - rewrite IH. split; [by right | by intros [? | ?]].
  - rewrite IH. split; [by right | by intros [? | ?]].
  - split; [by left | done].
Qed.

(** X5. [swap] throws exactly when the order has at least two entries and
    names a card for which there is no ref at all: the front card, or,
    when the front card has its element, one of the others.  (A ref that
    is [null] never makes it throw, and when the front card's ref is
    [null] the others are not looked at.) *)
Theorem swap_throws_iff (p : Props) (e : Engine) :
  swap p e = TypeError ↔
    ∃ front rest,
      order e = front :: rest ∧ rest ≠ []
      ∧ (refs e !! front = None
         ∨ (∃ el, refs e !! front = Some (Some el))
           ∧ ∃ idx, idx ∈ rest ∧ refs e !! idx = None).
Proof.
  unfold swap. case_bool_decide as Hlen.
  { split; [done|]. intros (front & rest & Ho & Hne & _). rewrite Ho in Hlen.
    destruct rest; [done|]. cbn in Hlen. lia. }
  destruct (order e) as [|front rest] eqn:Ho; [cbn in Hlen; lia|].
  assert (rest ≠ []) as Hne by (intros ->; cbn in Hlen; lia).
  destruct (refs e !! front) as [[elFront|]|] eqn:Hf.
  - unfold build.
    match goal with |- context [promote p ?r ?x ?i ?t] =>
      pose proof (promote_throws p r x i t) as Hp;
      destruct (promote p r x i t) as [tl|] end; cbn [mbind result_bind].
    + split; [done|]. intros (front' & rest' & [= <- <-] & _ & [? | [_ (idx & Hin & Hidx)]]);
        [congruence|].
      assert (@Ok Timeline tl = TypeError) as [=]. apply Hp, Exists_exists. eauto.
    + split; [|done]. intros _. exists front, rest. split; [done|]. split; [done|].
      right. split; [eauto|]. apply Exists_exists, Hp. done.
  - split; [done|]. intros (front' & rest' & [= <- <-] & _ & [? | [[el ?] _]]); congruence.
  - split; [|done]. intros _. exists front, rest. auto.
Qed.

(** ** Mounting *)

Lemma initial_refs_0 p b :
  children p !! 0%nat = Some (ElementNode b) → initial_refs p !! 0%nat = Some (Some 0%nat).
Proof. intros H. unfold initial_refs. by rewrite list_lookup_imap, H. Qed.

(** X6. What the effect leaves behind when it first runs.  It never
    throws and does not touch the order.  It always arms the timer, also
    when there are fewer than two cards, and attaches the hover listeners
    exactly when [pauseOnHover] is set.  It starts a first cycle at once
    when there are at least two children and the first one is an element;
    with fewer than two children, or a first child that is not an element,
    it creates no timeline. *)
Theorem mount_starts_first_cycle (p : Props) :
  ∃ e,
    started p = Ok e
    ∧ order e = seq 0 (length (children p))
    ∧ intervals e = [{| iv_id := 0; iv_elapsed := 0 |}]
    ∧ intervalRef e = Some 0%nat
    ∧ listening e = pauseOnHover p
    ∧ ((2 ≤ length (children p))%nat →
       (∃ b, children p !! 0%nat = Some (ElementNode b)) →
       ∃ tl, timelines e = [tl] ∧ tlRef e = Some 0%nat
             ∧ tl_time tl = 0 ∧ tl_paused tl = false)
    ∧ ((length (children p) < 2)%nat ∨ children p !! 0%nat = Some TextNode →
       timelines e = [] ∧ tlRef e = None).
Proof.
  pose proof (wf_initial p) as Hwf. pose proof (wf_bound _ _ Hwf) as Hb.
  unfold started, mount.
  destruct (swap_cases p (initial p) Hb)
    as [Hs | (front & rest & elFront & tl & Ho & Hne & Hf & Hbuild & Hs)];
    rewrite Hs; cbn [mbind result_bind]; eexists; (split; [reflexivity|]).
  - split; [by destruct (pauseOnHover p)|]. split; [by destruct (pauseOnHover p)|].
    split; [by destruct (pauseOnHover p)|]. split; [by destruct (pauseOnHover p)|].
    split; [|by destruct (pauseOnHover p)].
    intros HN [b Hc]. exfalso.
    destruct (swap_runs p (initial p) 0%nat (seq 1 (length (children p) - 1)) 0%nat)
      as (tl & _ & Hs').
    + cbn. destruct (length (children p)); [lia|]. cbn. by rewrite Nat.sub_0_r.
    + destruct (length (children p)) as [|[|n]]; [lia|lia|done].
    + cbn. by eapply initial_refs_0.
    + apply Forall_forall. intros i Hi%elem_of_seq. cbn. unfold initial_refs.
      rewrite length_imap. lia.
    + rewrite Hs in Hs'.
      apply (f_equal (fun x => match x with
                               | Ok y => length (timelines y)
                               | TypeError => 0%nat
                               end)) in Hs'.
      cbn in Hs'. lia.
  - split; [by destruct (pauseOnHover p)|]. split; [by destruct (pauseOnHover p)|].
    split; [by destruct (pauseOnHover p)|]. split; [by destruct (pauseOnHover p)|].
    destruct (build_spec p (refs (initial p)) front rest elFront)
      as (tl' & Hb' & Ht & Hp & _).
    { rewrite Ho in Hb. by apply Forall_cons in Hb as [_ ?]. }
    { apply list_elem_of_lookup. eauto. }
    rewrite Hbuild in Hb'. injection Hb' as <-.
    split.
    + intros _ _. exists tl. by destruct (pauseOnHover p).
    + intros [Hlt | Htext]; exfalso.
      * cbn in Ho. apply (f_equal length) in Ho. rewrite length_seq in Ho.
        destruct rest; [done|]. cbn in Ho. lia.
      * cbn in Ho. destruct (length (children p)) eqn:Hn; [done|].
        cbn in Ho. injection Ho as <- _. cbn in Hf. unfold initial_refs in Hf.
        by rewrite list_lookup_imap, Htext in Hf.
Qed.

(** ** The timer *)

Lemma swap_all_elements p e :
  (2 ≤ length (children p))%nat →
  TextNode ∉ children p →
  wf (length (children p)) e →
  refs e = initial_refs p →
  ∃ tl, swap p e = Ok (new_timeline tl e).
Proof.
  intros HN Hno Hwf Hrefs.
  pose proof (wf_bound _ _ Hwf) as Hb.
  pose proof (wf_order _ _ Hwf) as Hperm.
  assert (length (order e) = length (children p)) as Hlen by (by rewrite Hperm, length_seq).
  destruct (order e) as [|front rest] eqn:Ho; [cbn in Hlen; lia|].
  apply Forall_cons in Hb as [Hfront Hrest].
  destruct (swap_runs p e front rest front) as (tl & _ & Hs); [done| | |done|by exists tl].
  - intros ->. cbn in Hlen. lia.
  - rewrite Hrefs. apply initial_refs_lookup; [done|].
    by rewrite <-(wf_refs _ _ Hwf).
Qed.

Lemma punctual_tick p k r e :
  (2 ≤ length (children p))%nat →
  TextNode ∉ children p →
  Punctual p k r e →
  ∃ e', tick p e = Ok e'
        ∧ if decide (r + 1 < delay p) then Punctual p k (r + 1) e'
          else Punctual p (S k) 0 e'.
Proof.
  intros HN Hno [Hwf Hrefs Hiv Hr Hcount].
  pose proof (wf_animate _ _ Hwf) as Hwf1.
  unfold tick, run_timers. rewrite animate_intervals, Hiv.
  rewrite filter_cons, filter_nil. unfold iv_fires at 1. cbn [iv_elapsed map].
  unfold iv_tick, iv_fires. cbn [iv_id iv_elapsed].
  destruct (decide (r + 1 < delay p)) as [Hlt | Hge].
  - rewrite bool_decide_eq_false_2 by lia. rewrite decide_False by done.
    cbn [length swap_times]. eexists. split; [done|]. split; cbn.
    + by apply (wf_same _ (animate e)).
    + by rewrite animate_refs.
    + done.
    + lia.
    + by rewrite animate_timelines, length_map.
  - rewrite bool_decide_eq_true_2 by lia. rewrite decide_True by done.
    cbn [length swap_times].
    set (e2 := set_intervals _ (animate e)).
    assert (wf (length (children p)) e2) as Hwf2 by (by apply (wf_same _ (animate e))).
    destruct (swap_all_elements p e2 HN Hno Hwf2) as (tl & Hs).
    { change (refs e2) with (refs (animate e)). by rewrite animate_refs. }
    rewrite Hs. cbn [mbind result_bind]. eexists. split; [done|].
    destruct (wf_swap p _ e2 Hwf2) as (e3 & Hs3 & Hwf3). rewrite Hs in Hs3.
    injection Hs3 as <-.
    split; cbn.
    + done.
    + by rewrite animate_refs.
    + done.
    + lia.
    + rewrite length_app, animate_timelines, length_map. cbn. lia.
Qed.

Lemma punctual_started p :
  (2 ≤ length (children p))%nat →
  TextNode ∉ children p →
  0 < delay p →
  ∃ e, started p = Ok e ∧ Punctual p 0 0 e.
Proof.
  intros HN Hno Hpos.
  destruct (swap_all_elements p (initial p) HN Hno (wf_initial p) eq_refl) as (tl & Hs).
  destruct (wf_started p) as (e & He & Hwf). exists e. split; [done|].
  unfold started, mount in He. rewrite Hs in He. cbn [mbind result_bind] in He.
  injection He as <-.
  split; [done|by destruct (pauseOnHover p)..|lia|by destruct (pauseOnHover p)].
Qed.

Lemma punctual_run p (k r : nat) :
  (2 ≤ length (children p))%nat →
  TextNode ∉ children p →
  Z.of_nat r < delay p →
  ∃ e, (started p ≫= elapse p (k * Z.to_nat (delay p) + r)) = Ok e
       ∧ Punctual p k (Z.of_nat r) e.
Proof.
  intros HN Hno.
  assert (∀ k r e,
            (started p ≫= elapse p (k * Z.to_nat (delay p) + r)) = Ok e →
            Punctual p k (Z.of_nat r) e →
            Z.of_nat (S r) < delay p →
            ∃ e', (started p ≫= elapse p (k * Z.to_nat (delay p) + S r)) = Ok e'
                  ∧ Punctual p k (Z.of_nat (S r)) e') as Hnext.
  { clear k r. intros k r e He Hst Hr.
    destruct (punctual_tick p k _ e HN Hno Hst) as (e' & Hte & Hst').
    rewrite decide_True in Hst' by lia. exists e'. split.
    - rewrite <-plus_n_Sm, elapse_succ, He. done.
    - by replace (Z.of_nat (S r)) with (Z.of_nat r + 1) by lia. }
  revert r. induction k as [|k IHk]; intros r.
  - induction r as [|r IHr]; intros Hr.
    + destruct (punctual_started p HN Hno) as (e & He & Hst); [lia|].
      exists e. split; [|done]. cbn. by rewrite He.
    + destruct IHr as (e & He & Hst); [lia|]. by eapply Hnext.
  - induction r as [|r IHr]; intros Hr.
    + destruct (IHk (Z.to_nat (delay p) - 1)%nat) as (e & He & Hst); [lia|].
      destruct (punctual_tick p k _ e HN Hno Hst) as (e' & Hte & Hst').
      rewrite decide_False in Hst' by lia. exists e'. split; [|done].
      replace (S k * Z.to_nat (delay p) + 0)%nat
        with (S (k * Z.to_nat (delay p) + (Z.to_nat (delay p) - 1)))%nat by lia.
      rewrite elapse_succ, He. done.
    + destruct IHr as (e & He & Hst); [lia|]. by eapply Hnext.
Qed.

(** X7. The timer starts a cycle every [delay] milliseconds.  With at
    least two children, all of them elements, and no other event, [k]
    periods and [r] milliseconds after mount the component has created
    exactly [k + 1] timelines: the one the effect starts at once and one per
    period, whether or not the cycle before has finished ([cycle_ms] may
    exceed [delay]).  One timer is armed, [r] milliseconds into its
    period. *)
Theorem timer_starts_cycle_every_period (p : Props) (k r : nat) :
  (2 ≤ length (children p))%nat →
  TextNode ∉ children p →
  Z.of_nat r < delay p →
  ∃ e, (started p ≫= elapse p (k * Z.to_nat (delay p) + r)) = Ok e
       ∧ length (timelines e) = S k
       ∧ intervals e = [{| iv_id := 0; iv_elapsed := Z.of_nat r |}].
Proof.
  intros HN Hno Hr. destruct (punctual_run p k r HN Hno Hr) as (e & He & Hpu).
  exists e. split; [done|]. split; [apply Hpu | apply Hpu].
Qed.

Lemma timer_starts_cycle_every_period_witness :
  ∃ e, (started (defaults 24) ≫= elapse (defaults 24) (2 * Z.to_nat 5000 + 100)) = Ok e
       ∧ length (timelines e) = 3%nat.
Proof.
  destruct (timer_starts_cycle_every_period (defaults 24) 2 100) as (e & He & Hn & _).
  - cbn. lia.
  - vm_compute. intros H.
    repeat (inversion H as [|? ? ? H']; subst; clear H; rename H' into H).
  - vm_compute. reflexivity.
  - exists e. split; [exact He | exact Hn].
Defined.

(** ** Timers under hover, re-runs and unmount *)

Lemma swap_timers p e e' :
  swap p e = Ok e' →
  intervals e' = intervals e ∧ intervalRef e' = intervalRef e
  ∧ listening e' = listening e ∧ next_timer e' = next_timer e
  ∧ order e' = order e.
Proof. intros Hs. by destruct (swap_frame p e e' Hs) as [-> | [tl ->]]. Qed.

Lemma swap_times_timers p k e e' :
  swap_times p k e = Ok e' →
  intervals e' = intervals e ∧ intervalRef e' = intervalRef e
  ∧ listening e' = listening e ∧ next_timer e' = next_timer e
  ∧ order e' = order e.
Proof.
  revert e. induction k as [|k IH]; intros e; cbn [swap_times].
  { by intros [= <-]. }
  destruct (swap p e) as [e1|] eqn:Hs; [|done]. cbn. intros H.
  destruct (IH _ H) as (-> & -> & -> & -> & ->). exact (swap_timers p e e1 Hs).
Qed.

Lemma tick_timers p e e' :
  tick p e = Ok e' →
  intervals e' = map (iv_tick p) (intervals e) ∧ intervalRef e' = intervalRef e
  ∧ listening e' = listening e.
Proof.
  unfold tick, run_timers. intros H.
  destruct (swap_times_timers p _ _ _ H) as (-> & -> & -> & _).
  cbn. by rewrite animate_intervals, animate_intervalRef, animate_listening.
Qed.

Lemma tidy_mount p e :
  wf (length (children p)) e →
  intervals e = [] →
  listening e = false →
  ∃ e', mount p e = Ok e' ∧ Tidy p false e'.
Proof.
  intros Hwf Hiv Hl. destruct (wf_mount p _ e Hwf) as (e' & Hm & Hwf').
  exists e'. split; [done|]. unfold mount in Hm.
  destruct (swap p e) as [e1|] eqn:Hs; [|done]. cbn in Hm.
  destruct (swap_timers p e e1 Hs) as (Hiv1 & _ & Hl1 & _).
  split; [done| |].
  - injection Hm as <-. destruct (pauseOnHover p); cbn; congruence.
  - exists (next_timer e1), 0. injection Hm as <-.
    destruct (pauseOnHover p); cbn; by rewrite Hiv1, Hiv.
Qed.

Lemma clearInterval_one e id r :
  intervals e = [{| iv_id := id; iv_elapsed := r |}] →
  intervalRef e = Some id →
  intervals (clearInterval e) = [].
Proof.
  intros Hiv Href. unfold clearInterval. rewrite Href. cbn. rewrite Hiv.
  rewrite filter_cons, filter_nil. by rewrite decide_False by (cbn; auto).
Qed.

Lemma clearInterval_none e : intervals e = [] → intervals (clearInterval e) = [].
Proof. intros Hiv. unfold clearInterval. destruct (intervalRef e); cbn; by rewrite ?Hiv. Qed.

Lemma tidy_cleanup p paused e :
  Tidy p paused e →
  wf (length (children p)) (cleanup e) ∧ intervals (cleanup e) = []
  ∧ listening (cleanup e) = false.
Proof.
  intros [Hwf Hl Ht]. split; [|split].
  - unfold cleanup. apply wf_clearInterval. by apply (wf_same _ e).
  - unfold cleanup. destruct paused.
    + by apply clearInterval_none.
    + destruct Ht as (id & r & Hiv & Href). by apply (clearInterval_one _ id r).
  - unfold cleanup, clearInterval. cbn. by destruct (intervalRef e).
Qed.

Lemma tidy_step p inside e ev :
  orderly inside [ev] = true →
  Tidy p (inside && pauseOnHover p) e →
  ∃ e', step p e ev = Ok e' ∧ Tidy p (hovering inside [ev] && pauseOnHover p) e'.
Proof.
  intros Hev [Hwf Hl Ht].
  destruct ev; cbn [orderly hovering] in *.
  - destruct (wf_tick p _ e Hwf) as (e' & Hte & Hwf'). exists e'. split; [done|].
    destruct (tick_timers p e e' Hte) as (Hiv & Href & Hl').
    split; [done|congruence|].
    destruct (inside && pauseOnHover p).
    + by rewrite Hiv, Ht.
    + destruct Ht as (id & r & Hiv0 & Href0). rewrite Hiv, Hiv0, Href. cbn. eauto.
  - destruct inside; [done|]. cbn [andb] in *. cbn [step]. eexists. split; [done|].
    rewrite Hl. destruct (pauseOnHover p) eqn:Hh.
    + split; [by apply wf_pause| |].
      * rewrite Hh, <-Hl. unfold pause.
        destruct (tlRef e); unfold clearInterval; cbn; by destruct (intervalRef e).
      * destruct Ht as (id & r & Hiv & Href). unfold pause.
        destruct (tlRef e); by apply (clearInterval_one _ id r).
    + split; [done|by rewrite Hh|exact Ht].
  - destruct inside; [|done]. cbn [andb] in *. cbn [step]. eexists. split; [done|].
    rewrite Hl. destruct (pauseOnHover p) eqn:Hh.
    + split; [by apply wf_resume| |].
      * rewrite Hh, <-Hl. unfold resume. by destruct (tlRef e).
      * exists (next_timer e), 0. unfold resume.
        destruct (tlRef e); cbn; by rewrite Ht.
    + split; [done|by rewrite Hh|]. exact Ht.
  - cbn [step]. eexists. split; [done|]. split; [|done|done].
    destruct Hwf as [? Hrefs ?]. split; [done| |done]. cbn. by rewrite length_insert.
  - done.
  - destruct inside; [done|]. cbn [andb] in *. cbn [step].
    destruct (tidy_cleanup p false e) as (Hwf1 & Hiv1 & Hl1); [by split|].
    apply tidy_mount; done.
Qed.

Lemma tidy_run p evs inside e :
  orderly inside evs = true →
  Tidy p (inside && pauseOnHover p) e →
  ∃ e', run p evs e = Ok e' ∧ Tidy p (hovering inside evs && pauseOnHover p) e'.
Proof.
  revert inside e. induction evs as [|ev evs IH]; intros inside e Hevs Ht.
  { exists e. by split. }
  assert (orderly inside [ev] = true ∧ orderly (hovering inside [ev]) evs = true)
    as [Hev Hevs'].
  { destruct ev, inside; cbn in *; try done; by rewrite ?andb_true_r. }
  destruct (tidy_step p inside e ev Hev Ht) as (e1 & Hs & Ht1).
  destruct (IH _ e1 Hevs' Ht1) as (e' & Hr & Ht').
  exists e'. cbn [run]. rewrite Hs. cbn [mbind result_bind]. split; [done|].
  assert (hovering inside (ev :: evs) = hovering (hovering inside [ev]) evs) as ->; [|done].
  by destruct ev.
Qed.

Lemma tidy_started p : ∃ e, started p = Ok e ∧ Tidy p false e.
Proof. apply tidy_mount; [apply wf_initial|done|done]. Qed.

(** X8. No timer leaks under the hover protocol.  Let pointer-enter and
    pointer-leave arrive alternately, beginning with pointer-enter, and let
    the effect run again (a dependency such as [theme] changes) only while
    the pointer is outside.  Then, whatever the props and however long the
    cycles are, the run does not throw and at every moment at most one
    timer is armed: none while a pointer-enter has paused the component,
    otherwise exactly the timer whose id [intervalRef] holds. *)
Theorem one_timer_under_hover_protocol (p : Props) (evs : list Event) :
  orderly false evs = true →
  ∃ e,
    (started p ≫= run p evs) = Ok e
    ∧ listening e = pauseOnHover p
    ∧ if hovering false evs && pauseOnHover p
      then intervals e = []
      else ∃ id r, intervals e = [{| iv_id := id; iv_elapsed := r |}]
                   ∧ intervalRef e = Some id.
Proof.
  intros Hevs. destruct (tidy_started p) as (e0 & He0 & Ht0).
  destruct (tidy_run p evs false e0 Hevs Ht0) as (e & He & [_ Hl Ht]).
  exists e. rewrite He0. cbn. done.
Qed.

Lemma one_timer_under_hover_protocol_witness :
  ∃ e,
    (started (with_hover (defaults 3))
       ≫= run (with_hover (defaults 3)) [Tick; MouseEnter; Tick; MouseLeave; Rerun; Tick])
    = Ok e
    ∧ ∃ id r, intervals e = [{| iv_id := id; iv_elapsed := r |}] ∧ intervalRef e = Some id.
Proof.
  destruct (one_timer_under_hover_protocol (with_hover (defaults 3))
              [Tick; MouseEnter; Tick; MouseLeave; Rerun; Tick])
    as (e & He & _ & Ht).
  - reflexivity.
  - exists e. split; [exact He | exact Ht].
Defined.

Lemma tick_no_timer p e : intervals e = [] → tick p e = Ok (animate e).
Proof.
  intros Hiv. unfold tick, run_timers. rewrite animate_intervals, Hiv. cbn.
  f_equal. rewrite <-(set_intervals_same (animate e)) at 2.
  by rewrite animate_intervals, Hiv.
Qed.

(** After the cleanup: no timer and no listener, so nothing but [Rerun]
    creates a timeline or arms a timer. *)
Lemma unmounted_run p evs e :
  intervals e = [] →
  listening e = false →
  Rerun ∉ evs →
  ∃ e', run p evs e = Ok e'
        ∧ intervals e' = [] ∧ listening e' = false
        ∧ length (timelines e') = length (timelines e)
        ∧ tlRef e' = tlRef e.
Proof.
  revert e. induction evs as [|ev evs IH]; intros e Hiv Hl Hno.
  { by exists e. }
  assert (Rerun ∉ evs) as Hno' by (intros ?; apply Hno; by apply list_elem_of_further).
  assert (∃ e1, step p e ev = Ok e1 ∧ intervals e1 = [] ∧ listening e1 = false
                ∧ length (timelines e1) = length (timelines e)
                ∧ tlRef e1 = tlRef e) as (e1 & Hs & Hiv1 & Hl1 & Hn1 & Href1).
  { destruct ev; cbn [step].
    - rewrite tick_no_timer by done. eexists. split; [done|].
      rewrite animate_intervals, animate_listening, animate_timelines, length_map,
        animate_tlRef. done.
    - rewrite Hl. by exists e.
    - rewrite Hl. by exists e.
    - eexists. split; [done|]. done.
    - eexists. split; [done|]. unfold cleanup.
      split; [by apply clearInterval_none|].
      unfold clearInterval. cbn. by destruct (intervalRef e).
    - exfalso. apply Hno, list_elem_of_here. }
  destruct (IH e1 Hiv1 Hl1 Hno') as (e' & Hr & ? & ? & ? & ?).
  exists e'. cbn [run]. rewrite Hs. cbn [mbind result_bind].
  split; [done|]. split; [done|]. split; [done|]. split; congruence.
Qed.

Lemma run_app p evs1 evs2 e :
  run p (evs1 ++ evs2) e = (run p evs1 e ≫= run p evs2).
Proof.
  revert e. induction evs1 as [|ev evs1 IH]; intros e; [done|].
  cbn [app run]. destruct (step p e ev) as [e1|]; [|done]. cbn [mbind result_bind].
  apply IH.
Qed.

(** X9. The cleanup cancels the timer for good.  After any run under the
    hover protocol, unmounting leaves no timer armed and no hover listener
    attached; whatever happens afterwards, short of the effect running
    again, no timer is armed and [swap] is never called: no timeline is
    created and [tlRef] keeps its value. *)
Theorem unmount_cancels_timer (p : Props) (evs evs' : list Event) :
  orderly false evs = true →
  Rerun ∉ evs' →
  ∃ e0 e,
    (started p ≫= run p evs) = Ok e0
    ∧ run p (Unmount :: evs') e0 = Ok e
    ∧ intervals e = []
    ∧ listening e = false
    ∧ length (timelines e) = length (timelines e0)
    ∧ tlRef e = tlRef e0.
Proof.
  intros Hevs Hno. destruct (tidy_started p) as (e00 & He00 & Ht00).
  destruct (tidy_run p evs false e00 Hevs Ht00) as (e0 & He0 & Ht0).
  destruct (tidy_cleanup p _ e0 Ht0) as (_ & Hiv & Hl).
  destruct (unmounted_run p evs' (cleanup e0) Hiv Hl Hno) as (e & He & ? & ? & Hn & Href).
  exists e0, e. rewrite He00. cbn [mbind result_bind run step].
  split; [done|]. split; [done|]. split; [done|]. split; [done|].
  split.
  - rewrite Hn. unfold cleanup, clearInterval. cbn. by destruct (intervalRef e0).
  - rewrite Href. unfold cleanup, clearInterval. cbn. by destruct (intervalRef e0).
Qed.

Lemma unmount_cancels_timer_witness :
  ∃ e0 e,
    (started (with_hover (defaults 3))
       ≫= run (with_hover (defaults 3)) [Tick; MouseEnter; Tick]) = Ok e0
    ∧ run (with_hover (defaults 3)) (Unmount :: replicate (Z.to_nat 6000) Tick ++ [MouseLeave; Tick]) e0
      = Ok e
    ∧ intervals e = []
    ∧ length (timelines e) = length (timelines e0).
Proof.
  destruct (unmount_cancels_timer (with_hover (defaults 3)) [Tick; MouseEnter; Tick]
              (replicate (Z.to_nat 6000) Tick ++ [MouseLeave; Tick]))
    as (e0 & e & He0 & He & Hiv & _ & Hn & _).
  - reflexivity.
  - intros H. apply elem_of_app in H as [H | H].
    + apply elem_of_replicate in H as [H _]. discriminate H.
    + repeat (inversion H as [|? ? ? H']; subst; clear H; rename H' into H).
  - exists e0, e. split; [exact He0|]. split; [exact He|]. split; [exact Hiv | exact Hn].
Defined.

(** One frame of a state without timers in which only the last timeline
    still runs. *)
Lemma coast_tick p e past tl o :
  intervals e = [] →
  timelines e = past ++ [tl] →
  Forall (fun tl => finished tl = true) past →
  tl_paused tl = false →
  cycle_of tl o →
  ∃ e', tick p e = Ok e'
        ∧ intervals e' = []
        ∧ timelines e' = past ++ [(tl_tick tl).1]
        ∧ order e' = if decide (tl_time tl + 1 = duration tl) then o else order e.
Proof.
  intros Hiv Htls Hfin Hp Hcyc.
  destruct (tick_finished_map past Hfin) as [Hmap Hcbs].
  rewrite tick_no_timer by done. eexists. split; [done|].
  split; [by rewrite animate_intervals|]. split.
  - by rewrite animate_timelines, Htls, map_app, Hmap.
  - rewrite animate_order_eq, Htls, map_app, concat_app, Hcbs. cbn [map concat app].
    rewrite app_nil_r, (cycle_tick tl _ Hcyc), Hp.
    destruct (decide (tl_time tl + 1 = duration tl)).
    + by rewrite decide_True.
    + rewrite decide_False; [done|]. by intros [_ ?].
Qed.

Lemma coast p (m : nat) e past tl o :
  intervals e = [] →
  timelines e = past ++ [tl] →
  Forall (fun tl => finished tl = true) past →
  tl_paused tl = false →
  cycle_of tl o →
  tl_time tl < duration tl ≤ tl_time tl + Z.of_nat m →
  ∃ e', elapse p m e = Ok e' ∧ intervals e' = [] ∧ order e' = o.
Proof.
  revert e tl. induction m as [|m IH]; intros e tl Hiv Htls Hfin Hp Hcyc Ht; [lia|].
  destruct (coast_tick p e past tl o Hiv Htls Hfin Hp Hcyc) as (e1 & Hte & Hiv1 & Htls1 & Ho1).
  cbn [elapse]. rewrite Hte. cbn [mbind result_bind].
  assert (tl_time (tl_tick tl).1 = tl_time tl + 1) as Ht1.
  { rewrite tl_tick_time, Hp. unfold finished. cbn [orb].
    rewrite bool_decide_eq_false_2; [done|lia]. }
  destruct (decide (tl_time tl + 1 = duration tl)) as [Hend | Hnot].
  - (* the cycle has ended: nothing moves any more *)
    assert (Forall (fun tl => tl_paused tl = true ∨ finished tl = true) (timelines e1))
      as Hfrozen.
    { rewrite Htls1. apply Forall_app. split.
      - eapply Forall_impl; [exact Hfin|]. auto.
      - apply Forall_singleton. right. unfold finished.
        rewrite tl_tick_duration, Ht1. apply bool_decide_eq_true_2. lia. }
    assert (tick p e1 = Ok e1) as Hfix.
    { rewrite tick_no_timer by done. by rewrite animate_frozen. }
    exists e1. split; [by apply elapse_frozen|]. done.
  - apply (IH e1 (tl_tick tl).1); try done.
    + by rewrite tl_tick_paused.
    + by apply cycle_of_tick.
    + rewrite tl_tick_duration, Ht1. lia.
Qed.

Lemma run_ticks p n e : run p (replicate n Tick) e = elapse p n e.
Proof.
  revert e. induction n as [|n IH]; intros e; [done|].
  cbn [replicate run elapse step]. destruct (tick p e); [|done]. apply IH.
Qed.

Lemma orderly_ticks n : orderly false (replicate n Tick) = true.
Proof. by induction n. Qed.

Lemma hovering_ticks n : hovering false (replicate n Tick) = false.
Proof. by induction n. Qed.

(** X10. The cleanup does not stop a cycle that is in flight.  Let an
    undisturbed component (at least two children, all elements, cycles
    shorter than the timer period) be unmounted [r] milliseconds into a
    period, while the cycle started [r] milliseconds before is still
    running.  The order at that moment is the identity rotated by the
    number [k] of periods; no timer remains, yet the timeline keeps
    playing, and once it has reached its end the order is the identity
    rotated by [k + 1]. *)
Theorem unmount_leaves_cycle_running (p : Props) (k r m : nat) :
  (2 ≤ length (children p))%nat →
  TextNode ∉ children p →
  cycle_ms p < delay p →
  Z.of_nat r < cycle_ms p ≤ Z.of_nat (r + m) →
  ∃ e0 e,
    (started p ≫= elapse p (k * Z.to_nat (delay p) + r)) = Ok e0
    ∧ order e0 = rotate k (seq 0 (length (children p)))
    ∧ (step p e0 Unmount ≫= elapse p m) = Ok e
    ∧ intervals e = []
    ∧ order e = rotate (S k) (seq 0 (length (children p))).
Proof.
  intros HN Hno Hlt Hr.
  destruct (steady_run p k r HN Hno Hlt) as (e0 & He0 & Hst); [lia|].
  destruct (tidy_started p) as (e00 & He00 & Ht00).
  destruct (tidy_run p (replicate (k * Z.to_nat (delay p) + r) Tick) false e00)
    as (e0' & He0' & Ht0); [apply orderly_ticks|done|].
  rewrite run_ticks in He0'. rewrite He00 in He0. cbn [mbind result_bind] in He0.
  rewrite He0 in He0'. injection He0' as <-.
  rewrite hovering_ticks in Ht0. cbn [andb] in Ht0.
  destruct (tidy_cleanup p _ e0 Ht0) as (_ & Hiv & _).
  destruct Hst as [_ Ho _ _ (past & tl & Htls & _ & Hfin & Hp & Ht & Hd & Hcyc)].
  destruct (coast p m (cleanup e0) past tl (rotate (k + 1) (seq 0 (length (children p)))))
    as (e & He & Hive & Hoe); try done.
  { rewrite <-Htls. unfold cleanup, clearInterval. cbn. by destruct (intervalRef e0). }
  { rewrite Hd, Ht. lia. }
  exists e0, e. rewrite He00. cbn [mbind result_bind step].
  split; [done|]. split.
  { rewrite Ho, decide_True by lia. by rewrite Nat.add_0_r. }
  split; [done|]. split; [done|]. by rewrite Hoe, Nat.add_1_r.
Qed.

Lemma unmount_leaves_cycle_running_witness :
  ∃ e0 e,
    (started (defaults 3) ≫= elapse (defaults 3) (1 * Z.to_nat 5000 + 1000)) = Ok e0
    ∧ order e0 = [1; 2; 0]%nat
    ∧ (step (defaults 3) e0 Unmount ≫= elapse (defaults 3) 1350) = Ok e
    ∧ intervals e = []
    ∧ order e = [2; 0; 1]%nat.
Proof.
  destruct (unmount_leaves_cycle_running (defaults 3) 1 1000 1350)
    as (e0 & e & He0 & Ho0 & He & Hiv & Ho).
  - cbn. lia.
  - vm_compute. intros H.
    repeat (inversion H as [|? ? ? H']; subst; clear H; rename H' into H).
  - vm_compute. reflexivity.
  - vm_compute. split; [reflexivity | discriminate].
  - exists e0, e. split; [exact He0|]. split; [exact Ho0|]. split; [exact He|].
    split; [exact Hiv | exact Ho].
Defined.

(** ** A front card without element *)

Lemma swap_times_front_null p k e front rest :
  order e = front :: rest → refs e !! front = Some None → swap_times p k e = Ok e.
Proof.
  intros Ho Hf. induction k as [|k IH]; [done|].
  cbn [swap_times]. by rewrite (swap_front_null p e front rest Ho Hf).
Qed.

(** X11. A front card without element blocks the rotation.  When the ref
    of the card at the front of the order is [null] and no timeline is in
    flight (each one has finished or is paused), time changes nothing but
    the timers: every firing of the timer finds the same front card and
    returns at once, so the order never advances and no timeline is
    created. *)
Theorem missing_front_stalls_rotation (p : Props) (e : Engine) (front : nat)
  (rest : list nat) (m : nat) :
  order e = front :: rest →
  refs e !! front = Some None →
  Forall (fun tl => tl_paused tl = true ∨ finished tl = true) (timelines e) →
  ∃ e', elapse p m e = Ok e'
        ∧ order e' = order e
        ∧ refs e' = refs e
        ∧ timelines e' = timelines e.
Proof.
  revert e. induction m as [|m IH]; intros e Ho Hf Hfrozen.
  { by exists e. }
  cbn [elapse]. unfold tick, run_timers. rewrite (animate_frozen e Hfrozen).
  rewrite (swap_times_front_null p _ _ front rest) by done.
  cbn [mbind result_bind].
  destruct (IH (set_intervals (map (iv_tick p) (intervals e)) e)) as (e' & He & ? & ? & ?);
    [done..|].
  by exists e'.
Qed.

Lemma missing_front_stalls_rotation_witness :
  ∃ e',
    elapse (defaults 3) (Z.to_nat 12000)
      (setInterval (set_refs [None; Some 1; Some 2]%nat (initial (defaults 3)))) = Ok e'
    ∧ order e' = [0; 1; 2]%nat
    ∧ timelines e' = [].
Proof.
  destruct (missing_front_stalls_rotation (defaults 3)
              (setInterval (set_refs [None; Some 1; Some 2]%nat (initial (defaults 3))))
              0%nat [1; 2]%nat (Z.to_nat 12000)) as (e' & He & Ho & _ & Ht).
  - reflexivity.
  - reflexivity.
  - constructor.
  - exists e'. split; [exact He|]. split; [exact Ho | exact Ht].
Defined.

(** ** The cards of [AboutSection] *)

Lemma callback_observed active entries :
  (active = AboutSection.Num 0 ∨ active = AboutSection.Num 1 ∨ active = AboutSection.Num 2) →
  Forall (fun entry => AboutSection.target entry ∈ AboutSection.observed) entries →
  AboutSection.callback active entries = AboutSection.Num 0
  ∨ AboutSection.callback active entries = AboutSection.Num 1
  ∨ AboutSection.callback active entries = AboutSection.Num 2.
Proof.
  intros Ha Hall. revert active Ha.
  induction Hall as [|entry entries Hentry _ IH]; intros active Ha; [done|].
  unfold AboutSection.callback. cbn [foldl]. apply IH.
  destruct (AboutSection.isIntersecting entry); [|done].
  unfold AboutSection.observed in Hentry.
  rewrite !elem_of_cons, elem_of_nil in Hentry.
  destruct Hentry as [-> | [-> | [-> | []]]]; vm_compute; auto.
Qed.

(** X12. One card in colour.  The observer reports only the cards it
    observes, and their [data-card-index] parses to 0, 1 or 2.  So, whatever
    batches it delivers, [activeCard] is 0, 1 or 2 (never [NaN]), and of
    the three cards exactly one, the card [activeCard], has the class
    [grayscale-0] while the other two have [grayscale]. *)
Theorem one_card_in_colour (batches : list (list AboutSection.Entry)) :
  Forall (Forall (fun entry => AboutSection.target entry ∈ AboutSection.observed)) batches →
  ∃ k : nat,
    deliveries batches = AboutSection.Num (Z.of_nat k)
    ∧ (k < 3)%nat
    ∧ card_filters (deliveries batches) =
        <[k := "grayscale-0"]> ["grayscale"; "grayscale"; "grayscale"].
Proof.
  intros Hall.
  assert (deliveries batches = AboutSection.Num 0
          ∨ deliveries batches = AboutSection.Num 1
          ∨ deliveries batches = AboutSection.Num 2) as H.
  { unfold deliveries. generalize AboutSection.initial
      (or_introl eq_refl : AboutSection.initial = AboutSection.Num 0 ∨
         AboutSection.initial = AboutSection.Num 1 ∨ AboutSection.initial = AboutSection.Num 2).
    induction Hall as [|batch batches Hbatch _ IH]; intros active Ha; [done|].
    cbn [foldl]. apply IH. by apply callback_observed. }
  destruct H as [-> | [-> | ->]];
    [exists 0%nat | exists 1%nat | exists 2%nat];
    (split; [reflexivity|]; split; [lia | reflexivity]).
Qed.

Lemma one_card_in_colour_witness :
  ∃ k : nat,
    deliveries [[AboutSection.enters AboutSection.card1];
                [AboutSection.leaves AboutSection.card1;
                 AboutSection.enters AboutSection.card2]]
      = AboutSection.Num (Z.of_nat k)
    ∧ card_filters
        (deliveries [[AboutSection.enters AboutSection.card1];
                     [AboutSection.leaves AboutSection.card1;
                      AboutSection.enters AboutSection.card2]])
      = <[k := "grayscale-0"]> ["grayscale"; "grayscale"; "grayscale"].
Proof.
  destruct (one_card_in_colour
              [[AboutSection.enters AboutSection.card1];
               [AboutSection.leaves AboutSection.card1; AboutSection.enters AboutSection.card2]])
    as (k & Hk & _ & Hf).
  - repeat constructor.
  - exists k. split; [exact Hk | exact Hf].
Defined.

(** ** [CursorFollow] *)

(** *** Rounding to the nearest double *)

Lemma pow2_pos k : (0 < pow2 k)%Q.
Proof. apply Qpower_0_lt. reflexivity. Qed.

Lemma pow2_add a b : (pow2 (a + b) == pow2 a * pow2 b)%Q.
Proof. apply Qpower_plus. discriminate. Qed.

Lemma pow2_le a b : a ≤ b → (pow2 a <= pow2 b)%Q.
Proof. intros H. apply Qpower_le_compat_l; [done|]. discriminate. Qed.

Lemma pow2_lt a b : a < b → (pow2 a < pow2 b)%Q.
Proof. intros H. apply Qpower_lt_compat_l; [done|]. reflexivity. Qed.

Lemma pow2_lt_inv a b : (pow2 a < pow2 b)%Q → a < b.
Proof.
  intros H. destruct (Z_lt_le_dec a b) as [|Hle]; [done|].
  apply pow2_le in Hle. lra.
Qed.

Lemma pow2_Z n : 0 ≤ n → (pow2 n == inject_Z (2 ^ n))%Q.
Proof. intros H. unfold pow2. by rewrite Zpower_Qpower. Qed.

Lemma floor_spec x : (inject_Z (Qfloor x) <= x < inject_Z (Qfloor x) + 1)%Q.
Proof.
  split; [apply Qfloor_le|].
  pose proof (Qlt_floor x) as H. rewrite inject_Z_plus in H. exact H.
Qed.

Lemma rne_cases x :
  (rne x = Qfloor x ∧ (x - inject_Z (Qfloor x) <= 1 # 2)%Q)
  ∨ (rne x = Qfloor x + 1 ∧ (1 # 2 <= x - inject_Z (Qfloor x))%Q).
Proof.
  unfold rne. destruct (Qcompare_spec (x - inject_Z (Qfloor x)) (1 # 2)) as [H | H | H].
  - destruct (Z.even (Qfloor x)); [left | right]; split; try done; lra.
  - left. split; [done|lra].
  - right. split; [done|lra].
Qed.

Lemma rne_Z n : rne (inject_Z n) = n.
Proof.
  unfold rne. rewrite Qfloor_Z.
  destruct (Qcompare_spec (inject_Z n - inject_Z n) (1 # 2)) as [H | H | H];
    [lra | done | lra].
Qed.

Lemma rne_mono x y : (x <= y)%Q → rne x ≤ rne y.
Proof.
  intros Hxy. pose proof (Qfloor_resp_le x y Hxy) as Hf.
  pose proof (floor_spec x) as [Hx1 Hx2]. pose proof (floor_spec y) as [Hy1 Hy2].
  destruct (Z.eq_dec (Qfloor x) (Qfloor y)) as [Heq | Hne].
  - unfold rne. rewrite <-Heq in *.
    destruct (Qcompare_spec (x - inject_Z (Qfloor x)) (1 # 2)) as [H | H | H];
      destruct (Qcompare_spec (y - inject_Z (Qfloor x)) (1 # 2)) as [H' | H' | H'];
      try destruct (Z.even (Qfloor x)); try lia; lra.
  - destruct (rne_cases x) as [[-> _] | [-> _]], (rne_cases y) as [[-> _] | [-> _]]; lia.
Qed.

Lemma rne_nonneg x : (0 <= x)%Q → 0 ≤ rne x.
Proof. intros H. rewrite <-(rne_Z 0). by apply rne_mono. Qed.

Lemma rne_double x : (0 <= x)%Q → (inject_Z (rne x) <= 2 * x)%Q.
Proof.
  intros Hx. pose proof (floor_spec x) as [Hx1 Hx2].
  assert (0 ≤ Qfloor x) as Hf.
  { rewrite <-(Qfloor_Z 0). by apply Qfloor_resp_le. }
  destruct (rne_cases x) as [[-> H] | [-> H]].
  - lra.
  - rewrite inject_Z_plus.
    assert (0 <= inject_Z (Qfloor x))%Q
      by (change 0%Q with (inject_Z 0); by rewrite <-Zle_Qle).
    change (inject_Z 1) with 1%Q. lra.
Qed.

Lemma log2_pow2 n :
  0 < n → (pow2 (Z.log2 n) <= inject_Z n < pow2 (Z.log2 n + 1))%Q.
Proof.
  intros Hn. destruct (Z.log2_spec n Hn) as [H1 H2].
  pose proof (Z.log2_nonneg n) as H0.
  rewrite !pow2_Z by lia. split.
  - by rewrite <-Zle_Qle.
  - rewrite <-Zlt_Qlt. exact H2.
Qed.

Lemma ilog2_spec a :
  (0 < a)%Q → (pow2 (ilog2 a) <= a < pow2 (ilog2 a + 1))%Q.
Proof.
  intros Ha. unfold ilog2.
  destruct a as [n d]. cbn [Qnum Qden].
  assert (0 < n) as Hn by (unfold Qlt in Ha; cbn in Ha; lia).
  destruct (log2_pow2 n Hn) as [Hn1 Hn2].
  destruct (log2_pow2 (Z.pos d) eq_refl) as [Hd1 Hd2].
  set (ln := Z.log2 n) in *. set (ld := Z.log2 (Z.pos d)) in *.
  set (N := inject_Z n) in *. set (D := inject_Z (Z.pos d)) in *.
  assert (0 < D)%Q as HD by (unfold D; change 0%Q with (inject_Z 0); by rewrite <-Zlt_Qlt).
  assert (n # d == N / D)%Q as Hq by apply Qmake_Qdiv.
  assert ((n # d) * D == N)%Q as Hmul.
  { rewrite Hq. field. lra. }
  set (a := (n # d)%Q) in *.
  assert (∀ k, (pow2 k * D <= N → pow2 k <= a)%Q) as Hle.
  { intros k H. rewrite <-Hmul in H. by apply Qmult_le_r in H. }
  assert (∀ k, (N < pow2 k * D → a < pow2 k)%Q) as Hlt.
  { intros k H. rewrite <-Hmul in H. by apply Qmult_lt_r in H. }
  assert (a < pow2 (ln - ld + 1))%Q as Hup.
  { apply Hlt. eapply Qlt_le_trans; [exact Hn2|].
    replace (ln + 1) with ((ln - ld + 1) + ld) by lia. rewrite pow2_add.
    apply Qmult_le_l; [apply pow2_pos | exact Hd1]. }
  destruct (Qle_bool (pow2 (ln - ld)) a) eqn:Hb.
  - apply Qle_bool_iff in Hb. split; [exact Hb | exact Hup].
  - assert (a < pow2 (ln - ld))%Q as Hlo.
    { apply Qnot_le_lt. intros H. apply Qle_bool_iff in H. congruence. }
    replace (ln - ld - 1 + 1) with (ln - ld) by lia. split; [|exact Hlo].
    apply Hle. eapply Qle_trans; [|exact Hn1].
    replace ln with ((ln - ld - 1) + (ld + 1)) at 2 by lia. rewrite pow2_add.
    apply Qmult_le_l; [apply pow2_pos | by apply Qlt_le_weak].
Qed.

Lemma ilog2_mono a b : (0 < a)%Q → (a <= b)%Q → ilog2 a ≤ ilog2 b.
Proof.
  intros Ha Hab. destruct (ilog2_spec a Ha) as [Ha1 _].
  destruct (ilog2_spec b) as [_ Hb2]; [lra|].
  assert (pow2 (ilog2 a) < pow2 (ilog2 b + 1))%Q as H by lra.
  apply pow2_lt_inv in H. lia.
Qed.

Lemma quantum_mono a b : (0 < a)%Q → (a <= b)%Q → quantum a ≤ quantum b.
Proof. intros Ha Hab. unfold quantum. pose proof (ilog2_mono a b Ha Hab). lia. Qed.

(** Rounding at the scale [2^q]. *)
Lemma at_scale_mono q a b : (a <= b)%Q → (at_scale q a <= at_scale q b)%Q.
Proof.
  intros Hab. unfold at_scale. apply Qmult_le_compat_r; [|apply Qlt_le_weak, pow2_pos].
  rewrite <-Zle_Qle. apply rne_mono. unfold Qdiv.
  apply Qmult_le_compat_r; [done|]. apply Qinv_le_0_compat, Qlt_le_weak, pow2_pos.
Qed.

Lemma at_scale_pow2 q k : q ≤ k → (at_scale q (pow2 k) == pow2 k)%Q.
Proof.
  intros Hqk. unfold at_scale.
  assert (pow2 k / pow2 q == inject_Z (2 ^ (k - q)))%Q as Hdiv.
  { rewrite <-pow2_Z by lia. replace k with ((k - q) + q) at 1 by lia.
    rewrite pow2_add. field. pose proof (pow2_pos q). lra. }
  assert (rne (pow2 k / pow2 q) = 2 ^ (k - q)) as ->.
  { rewrite <-(rne_Z (2 ^ (k - q))). unfold rne.
    assert (Qfloor (pow2 k / pow2 q) = Qfloor (inject_Z (2 ^ (k - q)))) as Hfl.
    { apply Z.le_antisymm; apply Qfloor_resp_le; rewrite Hdiv; apply Qle_refl. }
    rewrite Hfl. rewrite Hdiv. reflexivity. }
  rewrite <-pow2_Z by lia. rewrite <-pow2_add. by replace (k - q + q) with k by lia.
Qed.

Lemma at_scale_nonneg q a : (0 <= a)%Q → (0 <= at_scale q a)%Q.
Proof.
  intros Ha. unfold at_scale. apply Qmult_le_0_compat; [|apply Qlt_le_weak, pow2_pos].
  change 0%Q with (inject_Z 0). rewrite <-Zle_Qle. apply rne_nonneg.
  apply Qle_shift_div_l; [apply pow2_pos | lra].
Qed.

Lemma at_scale_double q a : (0 <= a)%Q → (at_scale q a <= 2 * a)%Q.
Proof.
  intros Ha. unfold at_scale. pose proof (pow2_pos q) as Hq.
  assert (0 <= a / pow2 q)%Q as Hdiv by (apply Qle_shift_div_l; [done | lra]).
  pose proof (rne_double _ Hdiv) as H.
  apply (Qmult_le_compat_r _ _ (pow2 q)) in H; [|lra].
  eapply Qle_trans; [exact H|]. apply Qle_lteq. right. field. lra.
Qed.

Lemma quantum_cases a :
  (quantum a = -1074 ∧ ilog2 a ≤ -1022) ∨ (quantum a = ilog2 a - 52 ∧ -1022 < ilog2 a).
Proof. unfold quantum. lia. Qed.

(** Rounding a positive number, across scales. *)
Lemma round_pos_mono a b :
  (0 < a)%Q → (a <= b)%Q →
  (at_scale (quantum a) a <= at_scale (quantum b) b)%Q.
Proof.
  intros Ha Hab. pose proof (quantum_mono a b Ha Hab) as Hq.
  destruct (Z.eq_dec (quantum a) (quantum b)) as [Heq | Hne].
  { rewrite Heq. by apply at_scale_mono. }
  assert (0 < b)%Q as Hb by lra.
  pose proof (ilog2_mono a b Ha Hab) as Hlog.
  destruct (ilog2_spec a Ha) as [_ Ha2]. destruct (ilog2_spec b Hb) as [Hb1 _].
  assert (quantum b = ilog2 b - 52 ∧ ilog2 a < ilog2 b ∧ quantum a < ilog2 b - 52)
    as (Hqb & Hlt & Hqa).
  { destruct (quantum_cases a) as [[? ?] | [? ?]], (quantum_cases b) as [[? ?] | [? ?]]; lia. }
  assert (pow2 (ilog2 a + 1) <= pow2 (ilog2 b))%Q as Hpow by (apply pow2_le; lia).
  eapply Qle_trans; [apply (at_scale_mono _ a (pow2 (ilog2 b))); lra|].
  rewrite at_scale_pow2 by lia.
  rewrite <-(at_scale_pow2 (quantum b) (ilog2 b)) by lia.
  by apply at_scale_mono.
Qed.

Lemma Qeq_bool_false x : Qeq_bool x 0 = false → ¬ (x == 0)%Q.
Proof. apply Qeq_bool_neq. Qed.

Lemma round64_pos x :
  (0 < x)%Q → (round64 x == at_scale (quantum (Qabs x)) (Qabs x))%Q.
Proof.
  intros Hx. unfold round64. destruct (Qeq_bool x 0) eqn:H0.
  { apply Qeq_bool_eq in H0. lra. }
  destruct (Qle_bool 0 x) eqn:Hle; [reflexivity|].
  exfalso. assert (0 <= x)%Q as H by lra. apply Qle_bool_iff in H. congruence.
Qed.

Lemma round64_neg x :
  (x < 0)%Q → (round64 x == - at_scale (quantum (Qabs x)) (Qabs x))%Q.
Proof.
  intros Hx. unfold round64. destruct (Qeq_bool x 0) eqn:H0.
  { apply Qeq_bool_eq in H0. lra. }
  destruct (Qle_bool 0 x) eqn:Hle; [|reflexivity].
  apply Qle_bool_iff in Hle. lra.
Qed.

Lemma round64_zero x : (x == 0)%Q → round64 x = 0%Q.
Proof. intros Hx. unfold round64. apply Qeq_bool_iff in Hx. by rewrite Hx. Qed.

Lemma round64_nonneg x : (0 <= x)%Q → (0 <= round64 x)%Q.
Proof.
  intros Hx. destruct (Qlt_le_dec 0 x) as [Hpos | Hle].
  - rewrite round64_pos by done. apply at_scale_nonneg, Qabs_nonneg.
  - rewrite round64_zero; lra.
Qed.

Lemma round64_nonpos x : (x <= 0)%Q → (round64 x <= 0)%Q.
Proof.
  intros Hx. destruct (Qlt_le_dec x 0) as [Hneg | Hle].
  - rewrite round64_neg by done.
    pose proof (at_scale_nonneg (quantum (Qabs x)) (Qabs x) (Qabs_nonneg x)). lra.
  - rewrite round64_zero; lra.
Qed.

Lemma round64_mono x y : (x <= y)%Q → (round64 x <= round64 y)%Q.
Proof.
  intros Hxy.
  destruct (Qlt_le_dec 0 x) as [Hx | Hx].
  - (* both positive *)
    rewrite (round64_pos x), (round64_pos y) by lra.
    apply round_pos_mono.
    + rewrite Qabs_pos; lra.
    + rewrite !Qabs_pos; lra.
  - destruct (Qlt_le_dec y 0) as [Hy | Hy].
    + (* both negative *)
      rewrite (round64_neg x), (round64_neg y) by lra.
      apply Qopp_le_compat. apply round_pos_mono.
      * rewrite Qabs_neg; lra.
      * rewrite !Qabs_neg; lra.
    + pose proof (round64_nonpos x Hx). pose proof (round64_nonneg y Hy). lra.
Qed.

Lemma round64_compat x y : (x == y)%Q → (round64 x == round64 y)%Q.
Proof.
  intros H. apply Qle_antisym; apply round64_mono; lra.
Qed.

Lemma round64_double x :
  ((0 <= x → round64 x <= 2 * x) ∧ (x <= 0 → 2 * x <= round64 x))%Q.
Proof.
  split; intros Hx.
  - destruct (Qlt_le_dec 0 x) as [Hpos | Hle].
    + rewrite round64_pos by done.
      pose proof (at_scale_double (quantum (Qabs x)) (Qabs x) (Qabs_nonneg x)) as H.
      assert (Qabs x == x)%Q as Habs by (apply Qabs_pos; lra). lra.
    + rewrite round64_zero; lra.
  - destruct (Qlt_le_dec x 0) as [Hneg | Hle].
    + rewrite round64_neg by done.
      pose proof (at_scale_double (quantum (Qabs x)) (Qabs x) (Qabs_nonneg x)) as H.
      assert (Qabs x == - x)%Q as Habs by (apply Qabs_neg; lra). lra.
    + rewrite round64_zero; lra.
Qed.

Lemma rne_compat x y : (x == y)%Q → rne x = rne y.
Proof. intros H. apply Z.le_antisymm; apply rne_mono; lra. Qed.

Lemma at_scale_multiple q' q n :
  q' ≤ q → (at_scale q' (inject_Z n * pow2 q) == inject_Z n * pow2 q)%Q.
Proof.
  intros Hq. unfold at_scale. pose proof (pow2_pos q') as Hpos.
  assert (pow2 q == inject_Z (2 ^ (q - q')) * pow2 q')%Q as Hsplit.
  { rewrite <-pow2_Z by lia. rewrite <-pow2_add. by replace (q - q' + q') with q by lia. }
  assert (inject_Z n * pow2 q / pow2 q' == inject_Z (n * 2 ^ (q - q')))%Q as Hdiv.
  { rewrite inject_Z_mult, Hsplit. field. lra. }
  rewrite (rne_compat _ _ Hdiv), rne_Z, inject_Z_mult, Hsplit. ring.
Qed.

Lemma ilog2_lt a k : (0 < a)%Q → (a < pow2 k)%Q → ilog2 a < k.
Proof.
  intros Ha Hk. destruct (ilog2_spec a Ha) as [H1 _].
  apply pow2_lt_inv. lra.
Qed.

Lemma ilog2_pow2 k : ilog2 (pow2 k) = k.
Proof.
  pose proof (pow2_pos k) as Hpos. destruct (ilog2_spec (pow2 k) Hpos) as [H1 H2].
  apply pow2_lt_inv in H2.
  destruct (Z_lt_le_dec k (ilog2 (pow2 k))) as [Hlt | Hle]; [|lia].
  apply pow2_lt in Hlt. lra.
Qed.

Lemma rpos_compat a b : (0 < a)%Q → (a == b)%Q → (rpos a == rpos b)%Q.
Proof.
  intros Ha Hab. unfold rpos.
  apply Qle_antisym; [apply (round_pos_mono a b) | apply (round_pos_mono b a)]; lra.
Qed.

Lemma rpos_pow2 k : -1074 ≤ k → (rpos (pow2 k) == pow2 k)%Q.
Proof.
  intros Hk. unfold rpos. apply at_scale_pow2.
  unfold quantum. rewrite ilog2_pow2. lia.
Qed.

Lemma quantum_floor a : -1074 ≤ quantum a.
Proof. unfold quantum. lia. Qed.

Lemma rpos_idem a :
  (0 < a)%Q → (rpos a == 0)%Q ∨ ((0 < rpos a)%Q ∧ (rpos (rpos a) == rpos a)%Q).
Proof.
  intros Ha. set (q := quantum a). set (e := ilog2 a). set (k := Z.max (e + 1) q).
  destruct (ilog2_spec a Ha) as [_ Hup]. fold e in Hup.
  assert (rpos a <= pow2 k)%Q as Hle.
  { unfold rpos. fold q. rewrite <-(at_scale_pow2 q k) by lia.
    apply at_scale_mono. pose proof (pow2_le (e + 1) k ltac:(lia)). lra. }
  assert (0 <= rpos a)%Q as H0 by (apply at_scale_nonneg; lra).
  destruct (Qlt_le_dec 0 (rpos a)) as [Hpos | Hzero]; [right | left; lra].
  split; [done|].
  destruct (Qlt_le_dec (rpos a) (pow2 k)) as [Hlt | Hge].
  - pose proof (ilog2_lt _ _ Hpos Hlt) as Hlog.
    assert (quantum (rpos a) ≤ q) as Hq.
    { unfold quantum in *. fold e in q. subst q k. lia. }
    change (at_scale (quantum (rpos a)) (inject_Z (rne (a / pow2 q)) * pow2 q)
            == inject_Z (rne (a / pow2 q)) * pow2 q)%Q.
    by apply at_scale_multiple.
  - assert (rpos a == pow2 k)%Q as Heq by lra.
    rewrite (rpos_compat _ _ Hpos Heq). rewrite Heq. apply rpos_pow2.
    pose proof (quantum_floor a). lia.
Qed.

Lemma round64_pos' x : (0 < x)%Q → (round64 x == rpos x)%Q.
Proof.
  intros Hx. rewrite round64_pos by done. apply rpos_compat.
  - rewrite Qabs_pos; lra.
  - apply Qabs_pos. lra.
Qed.

Lemma round64_neg' x : (x < 0)%Q → (round64 x == - rpos (- x))%Q.
Proof.
  intros Hx. rewrite round64_neg by done. apply Qopp_comp, rpos_compat.
  - rewrite Qabs_neg; lra.
  - apply Qabs_neg. lra.
Qed.

Lemma round64_opp x : (round64 (- x) == - round64 x)%Q.
Proof.
  destruct (Qlt_le_dec 0 x) as [Hpos | Hle].
  - rewrite (round64_neg' (- x)), (round64_pos' x) by lra.
    apply Qopp_comp, rpos_compat; [lra | ring].
  - destruct (Qlt_le_dec x 0) as [Hneg | Hge].
    + rewrite (round64_pos' (- x)), (round64_neg' x) by lra. ring.
    + rewrite (round64_zero x), (round64_zero (- x)); lra.
Qed.

Lemma round64_idem x : (round64 (round64 x) == round64 x)%Q.
Proof.
  assert (∀ a, (0 < a)%Q → (round64 (rpos a) == rpos a)%Q) as Hidem.
  { intros a Ha. destruct (rpos_idem a Ha) as [Hz | [Hpos Hi]].
    - rewrite round64_zero; lra.
    - by rewrite round64_pos'. }
  destruct (Qlt_le_dec 0 x) as [Hpos | Hle].
  - rewrite (round64_compat _ _ (round64_pos' x Hpos)), (round64_pos' x Hpos).
    by apply Hidem.
  - destruct (Qlt_le_dec x 0) as [Hneg | Hge].
    + rewrite (round64_compat _ _ (round64_neg' x Hneg)), (round64_neg' x Hneg).
      rewrite round64_opp. apply Qopp_comp, Hidem. lra.
    + rewrite (round64_zero x) by lra. reflexivity.
Qed.

Lemma round64_pow2 k : -1074 ≤ k → (round64 (pow2 k) == pow2 k)%Q.
Proof.
  intros Hk. rewrite round64_pos' by apply pow2_pos. by apply rpos_pow2.
Qed.

Lemma round64_bound k x :
  -1074 ≤ k → (- pow2 k <= x <= pow2 k)%Q → (- pow2 k <= round64 x <= pow2 k)%Q.
Proof.
  intros Hk [Hlo Hhi]. split.
  - rewrite <-(round64_pow2 k Hk) at 1. rewrite <-round64_opp. by apply round64_mono.
  - rewrite <-(round64_pow2 k Hk). by apply round64_mono.
Qed.

Lemma lerp_between c p t :
  (0 <= c <= 1 # 4)%Q → (round64 p == p)%Q → (round64 t == t)%Q →
  let d := round64 (t - p) in
  let m := round64 (d * c) in
  let r := round64 (p + m) in
  ((p <= t → 0 <= d <= 2 * (t - p) ∧ 0 <= m <= t - p ∧ p <= r <= t)
   ∧ (t <= p → 2 * (t - p) <= d <= 0 ∧ t - p <= m <= 0 ∧ t <= r <= p))%Q.
Proof.
  intros [Hc0 Hc1] Hp Ht d m r. split; intros Hpt.
  - assert (0 <= d <= 2 * (t - p))%Q as Hd.
    { split; [apply round64_nonneg; lra | apply round64_double; lra]. }
    assert (0 <= d * c <= (t - p) * (1 # 2))%Q as Hdc.
    { split; [apply Qmult_le_0_compat; lra|].
      apply Qle_trans with (d * (1 # 4))%Q; [|lra].
      rewrite (Qmult_comm d c), (Qmult_comm d (1 # 4)).
      apply Qmult_le_compat_r; lra. }
    assert (0 <= m <= t - p)%Q as Hm.
    { split; [apply round64_nonneg; lra|].
      eapply Qle_trans; [apply round64_double; lra | lra]. }
    split; [done|]. split; [done|]. split.
    + apply Qle_trans with (round64 p); [lra | apply round64_mono; lra].
    + apply Qle_trans with (round64 t); [apply round64_mono; lra | lra].
  - assert (2 * (t - p) <= d <= 0)%Q as Hd.
    { split; [apply round64_double; lra | apply round64_nonpos; lra]. }
    assert ((t - p) * (1 # 2) <= d * c <= 0)%Q as Hdc.
    { assert (0 <= (- d) * c <= (p - t) * (1 # 2))%Q as H.
      { split; [apply Qmult_le_0_compat; lra|].
        apply Qle_trans with ((- d) * (1 # 4))%Q; [|lra].
        rewrite (Qmult_comm (- d) c), (Qmult_comm (- d) (1 # 4)).
        apply Qmult_le_compat_r; lra. }
      assert ((- d) * c == - (d * c))%Q as Heq by ring. lra. }
    assert (t - p <= m <= 0)%Q as Hm.
    { split; [|apply round64_nonpos; lra].
      eapply Qle_trans; [|apply round64_double; lra]. lra. }
    split; [done|]. split; [done|]. split.
    + apply Qle_trans with (round64 t); [lra | apply round64_mono; lra].
    + apply Qle_trans with (round64 p); [apply round64_mono; lra | lra].
Qed.

Lemma moderate_spec (q : Qc) :
  Number.moderate (Number.Finite q)
  ↔ (round64 q == q)%Q ∧ (- pow2 1022 <= q <= pow2 1022)%Q.
Proof.
  unfold Number.moderate. rewrite andb_True, !Is_true_true.
  by rewrite Qeq_bool_iff, Qle_bool_iff, Qabs_Qle_condition.
Qed.

Lemma moderate_finite v : Number.moderate v → ∃ q, v = Number.Finite q.
Proof. destruct v; try done. by eexists. Qed.

Lemma le_spec (p q : Qc) : Number.le (Number.Finite p) (Number.Finite q) ↔ (p <= q)%Qc.
Proof. unfold Number.le. by rewrite Is_true_true, Qle_bool_iff. Qed.

Lemma pow2_succ k : (pow2 (k + 1) == 2 * pow2 k)%Q.
Proof. rewrite pow2_add. unfold pow2 at 2. change (2 ^ 1)%Q with 2%Q. ring. Qed.

Lemma of_Q_finite x :
  (- pow2 1023 <= round64 x <= pow2 1023)%Q →
  Number.of_Q x = Number.Finite (Q2Qc (round64 x)).
Proof.
  intros H. unfold Number.of_Q.
  destruct (Qle_bool (pow2 1024) (Qabs (round64 x))) eqn:Hb; [|done].
  apply Qle_bool_iff in Hb. apply Qabs_Qle_condition in H.
  pose proof (pow2_lt 1023 1024 ltac:(lia)). lra.
Qed.

Lemma Q2Qc_compat x y : (x == y)%Q → Q2Qc x = Q2Qc y.
Proof. intros H. apply Qc_is_canon. cbn [this Q2Qc]. by rewrite !Qred_correct. Qed.

Lemma speed_finite : CursorFollow.speed = Number.Finite (Q2Qc (round64 (15 # 100))).
Proof.
  unfold CursorFollow.speed. apply of_Q_finite.
  split; apply Qle_bool_iff; vm_compute; reflexivity.
Qed.

Lemma speed_small : (0 <= Q2Qc (round64 (15 # 100)) <= 1 # 4)%Q.
Proof. split; apply Qle_bool_iff; vm_compute; reflexivity. Qed.

(** One step from a position towards a target, both doubles of moderate
    size: the result is such a double again and lies between them. *)
Lemma approach_finite (p t : Qc) :
  Number.moderate (Number.Finite p) → Number.moderate (Number.Finite t) →
  ∃ r : Qc,
    CursorFollow.approach (Number.Finite p) (Number.Finite t) = Number.Finite r
    ∧ Number.moderate (Number.Finite r)
    ∧ ((p <= t → p <= r <= t) ∧ (t <= p → t <= r <= p))%Qc.
Proof.
  rewrite !moderate_spec. intros [Hp [Hp1 Hp2]] [Ht [Ht1 Ht2]].
  set (c := Q2Qc (round64 (15 # 100))).
  pose proof speed_small as Hc. fold c in Hc.
  pose proof (lerp_between c p t Hc Hp Ht) as Hlerp. cbn zeta in Hlerp.
  set (d := round64 (t - p)) in *. set (m := round64 (d * c)) in *.
  set (r := round64 (p + m)) in *.
  pose proof (pow2_succ 1022) as H23. change (1022 + 1) with 1023 in H23.
  pose proof (pow2_pos 1022) as HM.
  set (M := pow2 1022) in *. set (M2 := pow2 1023) in *.
  assert (- M2 <= d <= M2)%Q as Hd.
  { apply round64_bound; [lia | fold M2; lra]. }
  assert (- M2 <= m <= M2 ∧ - M <= r <= M ∧ (p <= t → p <= r <= t) ∧ (t <= p → t <= r <= p))%Q
    as (Hm & Hr & Hup & Hdown).
  { destruct Hlerp as [H1 H2].
    destruct (Qlt_le_dec p t) as [Hlt | Hge].
    - destruct H1 as (? & ? & ?); [lra|]. repeat split; try lra.
    - destruct H2 as (? & ? & ?); [lra|]. repeat split; try lra. }
  assert (round64 (Q2Qc d * c) == m)%Q as Hm'.
  { apply round64_compat. cbn [this Q2Qc]. by rewrite Qred_correct. }
  assert (round64 (p + Q2Qc (round64 (Q2Qc d * c))) == r)%Q as Hr'.
  { apply round64_compat. cbn [this Q2Qc]. by rewrite Qred_correct, Hm'. }
  exists (Q2Qc (round64 (p + Q2Qc (round64 (Q2Qc d * c))))).
  split; [|split].
  - unfold CursorFollow.approach. cbn [Number.sub]. rewrite of_Q_finite by done.
    rewrite speed_finite. fold c. fold d. cbn [Number.mul].
    rewrite of_Q_finite by (rewrite Hm'; done).
    cbn [Number.add]. rewrite of_Q_finite by (rewrite Hr'; fold M2; lra). done.
  - apply moderate_spec. cbn [this Q2Qc] in Hr' |- *.
    set (X := (p + Qred (round64 (Qred d * c)))%Q) in *.
    rewrite (round64_compat _ _ (Qred_correct (round64 X))), Qred_correct.
    split; [apply round64_idem | by rewrite Hr'].
  - unfold Qcle. cbn [this Q2Qc]. rewrite Qred_correct, Hr'. done.
Qed.

Lemma rne_near x : (- (1 # 2) <= inject_Z (rne x) - x <= 1 # 2)%Q.
Proof.
  pose proof (floor_spec x) as [H1 H2].
  destruct (rne_cases x) as [[-> H] | [-> H]].
  - lra.
  - rewrite inject_Z_plus. change (inject_Z 1) with 1%Q. lra.
Qed.

Lemma at_scale_near q a :
  (- ((1 # 2) * pow2 q) <= at_scale q a - a <= (1 # 2) * pow2 q)%Q.
Proof.
  pose proof (pow2_pos q) as Hq. pose proof (rne_near (a / pow2 q)) as [H1 H2].
  assert (at_scale q a - a == (inject_Z (rne (a / pow2 q)) - a / pow2 q) * pow2 q)%Q as ->.
  { unfold at_scale. field. lra. }
  split.
  - apply Qle_trans with (- (1 # 2) * pow2 q)%Q; [lra|].
    apply Qmult_le_compat_r; lra.
  - apply Qmult_le_compat_r; lra.
Qed.

(** The rounded number is within half a unit in the last place. *)
Lemma round64_near x :
  (Qabs (round64 x - x) <= (1 # 2) * pow2 (quantum (Qabs x)))%Q.
Proof.
  apply Qabs_Qle_condition.
  pose proof (at_scale_near (quantum (Qabs x)) (Qabs x)) as Hnear.
  pose proof (pow2_pos (quantum (Qabs x))) as Hq.
  destruct (Qlt_le_dec 0 x) as [Hpos | Hle].
  - pose proof (round64_pos x Hpos) as Hr.
    assert (Qabs x == x)%Q as Habs by (apply Qabs_pos; lra). lra.
  - destruct (Qlt_le_dec x 0) as [Hneg | Hge].
    + pose proof (round64_neg x Hneg) as Hr.
      assert (Qabs x == - x)%Q as Habs by (apply Qabs_neg; lra). lra.
    + rewrite (round64_zero x) by lra. lra.
Qed.

(** The rounded number is a multiple of the unit in the last place. *)
Lemma round64_grid x :
  ∃ m : Z, (round64 x == inject_Z m * pow2 (quantum (Qabs x)))%Q.
Proof.
  destruct (Qlt_le_dec 0 x) as [Hpos | Hle].
  - exists (rne (Qabs x / pow2 (quantum (Qabs x)))). by rewrite round64_pos.
  - destruct (Qlt_le_dec x 0) as [Hneg | Hge].
    + exists (- rne (Qabs x / pow2 (quantum (Qabs x)))).
      rewrite round64_neg by done. unfold at_scale. rewrite inject_Z_opp. ring.
    + exists 0. rewrite (round64_zero x) by lra. ring.
Qed.

(** Some roundings: the literals 0.15 and 0.1; a tie goes to the even
    neighbour; below [2^-1022] the spacing stays [2^-1074]; and the largest
    finite double is [2^1024 - 2^971]. *)
Lemma round64_examples :
  (round64 (15 # 100) == 5404319552844595 # 36028797018963968)%Q
  ∧ (round64 (1 # 10) == 3602879701896397 # 36028797018963968)%Q
  ∧ (round64 (inject_Z (2 ^ 53 + 1)) == inject_Z (2 ^ 53))%Q
  ∧ (round64 (inject_Z (2 ^ 53 + 3)) == inject_Z (2 ^ 53 + 4))%Q
  ∧ (round64 (inject_Z 3 * pow2 (-1075)) == pow2 (-1073))%Q
  ∧ (round64 (pow2 (-1075)) == 0)%Q
  ∧ Number.of_Q (pow2 1024 - pow2 971 + pow2 969)
    = Number.Finite (Q2Qc (pow2 1024 - pow2 971))
  ∧ Number.of_Q (pow2 1024 - pow2 970) = Number.PosInfinity
  ∧ Number.of_Q (- (pow2 1024 - pow2 970)) = Number.NegInfinity.
Proof.
  repeat split; try (apply Qeq_bool_iff; vm_compute; reflexivity);
    try (vm_compute; reflexivity).
Qed.

(** *** The animation *)

(** Equality of numbers by evaluation. *)
Ltac number_eq :=
  vm_compute; repeat first [reflexivity | apply Qc_is_canon; reflexivity | f_equal].

Lemma le_refl_moderate v : Number.moderate v → Number.le v v.
Proof.
  intros Hv. destruct (moderate_finite v Hv) as [q ->].
  apply le_spec, Qcle_refl.
Qed.

Lemma le_trans_moderate a b c :
  Number.moderate a → Number.moderate b → Number.moderate c →
  Number.le a b → Number.le b c → Number.le a c.
Proof.
  intros Ha Hb Hc.
  destruct (moderate_finite a Ha) as [p ->], (moderate_finite b Hb) as [q ->],
    (moderate_finite c Hc) as [r ->].
  rewrite !le_spec. apply Qcle_trans.
Qed.

(** One step towards the target, for doubles of moderate size. *)
Lemma approach_between position target :
  Number.moderate position → Number.moderate target →
  Number.moderate (CursorFollow.approach position target)
  ∧ (Number.le position target →
     Number.le position (CursorFollow.approach position target)
     ∧ Number.le (CursorFollow.approach position target) target)
  ∧ (Number.le target position →
     Number.le target (CursorFollow.approach position target)
     ∧ Number.le (CursorFollow.approach position target) position)
  ∧ (position = target → CursorFollow.approach position target = position).
Proof.
  intros Hp Ht.
  destruct (moderate_finite _ Hp) as [p ->], (moderate_finite _ Ht) as [t ->].
  destruct (approach_finite p t Hp Ht) as (r & -> & Hr & Hup & Hdown).
  split; [done|]. rewrite !le_spec. split; [done|]. split; [done|].
  intros [= ->]. f_equal. apply Qcle_antisym; apply Hup, Qcle_refl.
Qed.

(** The same for any number of steps towards a target that stays. *)
Lemma iter_approach_between position target (n : nat) :
  Number.moderate position → Number.moderate target →
  let r := Nat.iter n (fun v => CursorFollow.approach v target) position in
  Number.moderate r
  ∧ (Number.le position target → Number.le position r ∧ Number.le r target)
  ∧ (Number.le target position → Number.le target r ∧ Number.le r position).
Proof.
  intros Hp Ht. induction n as [|n (Hr & Hup & Hdown)]; cbn zeta.
  { cbn [Nat.iter]. split; [done|]. split; intros H; split; try done;
      by apply le_refl_moderate. }
  cbn [Nat.iter nat_rect]. fold (Nat.iter n (fun v => CursorFollow.approach v target) position).
  set (r := Nat.iter n (fun v => CursorFollow.approach v target) position) in *.
  destruct (approach_between r target Hr Ht) as (Hm & Hup' & Hdown' & _).
  split; [done|]. split; intros H.
  - destruct (Hup H) as [H1 H2]. destruct (Hup' H2) as [H3 H4].
    split; [|done]. by apply (le_trans_moderate _ r).
  - destruct (Hdown H) as [H1 H2]. destruct (Hdown' H1) as [H3 H4].
    split; [done|]. by apply (le_trans_moderate _ r).
Qed.

(** With one request pending, a frame is one call of [animate]. *)
Lemma frame_one s id :
  CursorFollow.frames s = [id] →
  CursorFollow.frame s =
    {| CursorFollow.positionRef :=
         {| CursorFollow.x :=
              CursorFollow.approach (CursorFollow.x (CursorFollow.positionRef s))
                (CursorFollow.x (CursorFollow.targetRef s));
            CursorFollow.y :=
              CursorFollow.approach (CursorFollow.y (CursorFollow.positionRef s))
                (CursorFollow.y (CursorFollow.targetRef s)) |};
       CursorFollow.targetRef := CursorFollow.targetRef s;
       CursorFollow.animationRef := Some (CursorFollow.next_frame s);
       CursorFollow.transform :=
         Some {| CursorFollow.x :=
                   CursorFollow.approach (CursorFollow.x (CursorFollow.positionRef s))
                     (CursorFollow.x (CursorFollow.targetRef s));
                 CursorFollow.y :=
                   CursorFollow.approach (CursorFollow.y (CursorFollow.positionRef s))
                     (CursorFollow.y (CursorFollow.targetRef s)) |};
       CursorFollow.frames := [CursorFollow.next_frame s];
       CursorFollow.next_frame := S (CursorFollow.next_frame s);
       CursorFollow.listening := CursorFollow.listening s |}.
Proof. intros H. unfold CursorFollow.frame. rewrite H. reflexivity. Qed.

(** While the pointer rests, [n] frames are [n] steps on each axis. *)
Lemma frames_run s (n : nat) :
  length (CursorFollow.frames s) = 1%nat →
  let s' := CursorFollow.run (replicate n CursorFollow.Frame) s in
  length (CursorFollow.frames s') = 1%nat
  ∧ CursorFollow.targetRef s' = CursorFollow.targetRef s
  ∧ CursorFollow.x (CursorFollow.positionRef s') =
      Nat.iter n (fun v => CursorFollow.approach v (CursorFollow.x (CursorFollow.targetRef s)))
        (CursorFollow.x (CursorFollow.positionRef s))
  ∧ CursorFollow.y (CursorFollow.positionRef s') =
      Nat.iter n (fun v => CursorFollow.approach v (CursorFollow.y (CursorFollow.targetRef s)))
        (CursorFollow.y (CursorFollow.positionRef s)).
Proof.
  revert s. induction n as [|n IH]; intros s Hs; [done|].
  destruct (CursorFollow.frames s) as [|id [|? ?]] eqn:Hf; try done.
  cbn zeta. cbn [replicate CursorFollow.run foldl CursorFollow.step].
  rewrite (frame_one s id Hf).
  match goal with |- context [foldl CursorFollow.step ?s1 _] =>
    destruct (IH s1 eq_refl) as (H1 & H2 & H3 & H4) end.
  unfold CursorFollow.run in *. cbn [CursorFollow.targetRef CursorFollow.positionRef
    CursorFollow.x CursorFollow.y] in *.
  rewrite H3, H4, !Nat.iter_succ_r. done.
Qed.

(** The doubles the code holds after two frames towards the point
    (20, 40). *)
Lemma two_frames_in_doubles :
  CursorFollow.positionRef
    (CursorFollow.run
       [CursorFollow.MouseMove (Number.Finite (Qc_of_Z 20)) (Number.Finite (Qc_of_Z 40));
        CursorFollow.Frame; CursorFollow.Frame]
       CursorFollow.started)
  = {| CursorFollow.x := Number.Finite (Q2Qc (6248744482976563 # 1125899906842624));
       CursorFollow.y := Number.Finite (Q2Qc (6248744482976563 # 562949953421312)) |}.
Proof. number_eq. Qed.

(** Next to the target a step can round to nothing: from the double just
    below 400 the cursor does not move. *)
Lemma cursor_rests_next_to_target :
  CursorFollow.approach (Number.Finite (Q2Qc (7036874417766399 # 17592186044416)))
    (Number.Finite (Qc_of_Z 400))
  = Number.Finite (Q2Qc (7036874417766399 # 17592186044416)).
Proof. number_eq. Qed.

(** Without a bound on the size of the numbers a step can overshoot: the
    difference of the largest finite double and its negative is infinite,
    and so is the position after the step. *)
Lemma approach_overshoots_on_overflow :
  CursorFollow.approach (Number.Finite (Q2Qc (- (pow2 1024 - pow2 971))))
    (Number.Finite (Q2Qc (pow2 1024 - pow2 971)))
  = Number.PosInfinity
  ∧ Number.le Number.PosInfinity (Number.Finite (Q2Qc (pow2 1024 - pow2 971))) = false.
Proof. split; vm_compute; reflexivity. Qed.

(** X13. The cursor keeps approaching the pointer.  While one request of
    [animate] is pending (as it is throughout the life of the component),
    the pointer rests, and position and target are doubles of absolute
    value at most [2^1022], on each axis the position after [n] frames
    lies between the starting position and the target, and after [k]
    further frames between that position and the target: the cursor moves
    towards the target or stays, and never moves back or past it.  The
    positions stay doubles of that kind, the target is left as it is and
    one request is pending again.  (Arithmetic is that of doubles; the
    distance need not shrink in a fixed proportion, and next to the target
    the cursor can stay where it is.) *)
Theorem cursor_keeps_approaching (s : CursorFollow.State) (n k : nat) :
  length (CursorFollow.frames s) = 1%nat →
  Number.moderate (CursorFollow.x (CursorFollow.positionRef s)) →
  Number.moderate (CursorFollow.y (CursorFollow.positionRef s)) →
  Number.moderate (CursorFollow.x (CursorFollow.targetRef s)) →
  Number.moderate (CursorFollow.y (CursorFollow.targetRef s)) →
  let s1 := CursorFollow.run (replicate n CursorFollow.Frame) s in
  let s2 := CursorFollow.run (replicate k CursorFollow.Frame) s1 in
  let px := CursorFollow.x (CursorFollow.positionRef s) in
  let py := CursorFollow.y (CursorFollow.positionRef s) in
  let tx := CursorFollow.x (CursorFollow.targetRef s) in
  let ty := CursorFollow.y (CursorFollow.targetRef s) in
  let px1 := CursorFollow.x (CursorFollow.positionRef s1) in
  let py1 := CursorFollow.y (CursorFollow.positionRef s1) in
  let px2 := CursorFollow.x (CursorFollow.positionRef s2) in
  let py2 := CursorFollow.y (CursorFollow.positionRef s2) in
  length (CursorFollow.frames s2) = 1%nat
  ∧ CursorFollow.targetRef s2 = CursorFollow.targetRef s
  ∧ Number.moderate px2 ∧ Number.moderate py2
  ∧ (Number.le px tx → Number.le px px1 ∧ Number.le px1 px2 ∧ Number.le px2 tx)
  ∧ (Number.le tx px → Number.le tx px2 ∧ Number.le px2 px1 ∧ Number.le px1 px)
  ∧ (Number.le py ty → Number.le py py1 ∧ Number.le py1 py2 ∧ Number.le py2 ty)
  ∧ (Number.le ty py → Number.le ty py2 ∧ Number.le py2 py1 ∧ Number.le py1 py).
Proof.
  intros Hs Hpx Hpy Htx Hty s1 s2 px py tx ty px1 py1 px2 py2.
  destruct (frames_run s n Hs) as (Hs1 & Ht1 & Hx1 & Hy1). fold s1 in Hs1, Ht1, Hx1, Hy1.
  destruct (frames_run s1 k Hs1) as (Hs2 & Ht2 & Hx2 & Hy2). fold s2 in Hs2, Ht2, Hx2, Hy2.
  rewrite Ht1 in Hx2, Hy2. fold px tx px1 in Hx1. fold py ty py1 in Hy1.
  fold px1 tx px2 in Hx2. fold py1 ty py2 in Hy2.
  destruct (iter_approach_between px tx n Hpx Htx) as (Hmx1 & Hupx1 & Hdownx1).
  destruct (iter_approach_between py ty n Hpy Hty) as (Hmy1 & Hupy1 & Hdowny1).
  rewrite <-Hx1 in Hmx1, Hupx1, Hdownx1. rewrite <-Hy1 in Hmy1, Hupy1, Hdowny1.
  destruct (iter_approach_between px1 tx k Hmx1 Htx) as (Hmx2 & Hupx2 & Hdownx2).
  destruct (iter_approach_between py1 ty k Hmy1 Hty) as (Hmy2 & Hupy2 & Hdowny2).
  rewrite <-Hx2 in Hmx2, Hupx2, Hdownx2. rewrite <-Hy2 in Hmy2, Hupy2, Hdowny2.
  split; [done|]. split; [by rewrite Ht2|]. split; [done|]. split; [done|].
  split; [|split; [|split]]; intros H.
  - destruct (Hupx1 H) as [H1 H2]. destruct (Hupx2 H2) as [H3 H4]. done.
  - destruct (Hdownx1 H) as [H1 H2]. destruct (Hdownx2 H1) as [H3 H4]. done.
  - destruct (Hupy1 H) as [H1 H2]. destruct (Hupy2 H2) as [H3 H4]. done.
  - destruct (Hdowny1 H) as [H1 H2]. destruct (Hdowny2 H1) as [H3 H4]. done.
Qed.

Lemma cursor_keeps_approaching_witness :
  CursorFollow.x
    (CursorFollow.positionRef
       (CursorFollow.run (replicate 2 CursorFollow.Frame)
          (CursorFollow.handleMouseMove (Number.Finite (Qc_of_Z 400))
             (Number.Finite (Qc_of_Z 200)) CursorFollow.started)))
  = Number.Finite (Qc_of_Z 111)
  ∧ Number.le (Number.Finite (Qc_of_Z 111))
      (CursorFollow.x
         (CursorFollow.positionRef
            (CursorFollow.run (replicate 3 CursorFollow.Frame)
               (CursorFollow.run (replicate 2 CursorFollow.Frame)
                  (CursorFollow.handleMouseMove (Number.Finite (Qc_of_Z 400))
                     (Number.Finite (Qc_of_Z 200)) CursorFollow.started)))))
  ∧ Number.le
      (CursorFollow.x
         (CursorFollow.positionRef
            (CursorFollow.run (replicate 3 CursorFollow.Frame)
               (CursorFollow.run (replicate 2 CursorFollow.Frame)
                  (CursorFollow.handleMouseMove (Number.Finite (Qc_of_Z 400))
                     (Number.Finite (Qc_of_Z 200)) CursorFollow.started)))))
      (Number.Finite (Qc_of_Z 400)).
Proof.
  destruct (cursor_keeps_approaching
              (CursorFollow.handleMouseMove (Number.Finite (Qc_of_Z 400))
                 (Number.Finite (Qc_of_Z 200)) CursorFollow.started) 2 3)
    as (_ & _ & _ & _ & Hx & _).
  - reflexivity.
  - vm_compute. exact I.
  - vm_compute. exact I.
  - vm_compute. exact I.
  - vm_compute. exact I.
  - destruct Hx as (_ & H1 & H2); [vm_compute; exact I|].
    assert (CursorFollow.x
              (CursorFollow.positionRef
                 (CursorFollow.run (replicate 2 CursorFollow.Frame)
                    (CursorFollow.handleMouseMove (Number.Finite (Qc_of_Z 400))
                       (Number.Finite (Qc_of_Z 200)) CursorFollow.started)))
            = Number.Finite (Qc_of_Z 111)) as Heq
      by number_eq.
    split; [exact Heq|]. split; [rewrite <-Heq; exact H1 | exact H2].
Defined.

(** X14. The cursor never overshoots.  For a position and a target that
    are doubles of absolute value at most [2^1022], one call of [animate]
    puts the position, on each axis, between the old position and the
    target (inclusive), and the new position is such a double again; when
    the position is the target it stays there; and the inline transform is
    set to the new position.  The target is not touched. *)
Theorem animate_never_overshoots (s : CursorFollow.State) :
  Number.moderate (CursorFollow.x (CursorFollow.positionRef s)) →
  Number.moderate (CursorFollow.y (CursorFollow.positionRef s)) →
  Number.moderate (CursorFollow.x (CursorFollow.targetRef s)) →
  Number.moderate (CursorFollow.y (CursorFollow.targetRef s)) →
  let s' := CursorFollow.animate s in
  let px := CursorFollow.x (CursorFollow.positionRef s) in
  let py := CursorFollow.y (CursorFollow.positionRef s) in
  let tx := CursorFollow.x (CursorFollow.targetRef s) in
  let ty := CursorFollow.y (CursorFollow.targetRef s) in
  let px' := CursorFollow.x (CursorFollow.positionRef s') in
  let py' := CursorFollow.y (CursorFollow.positionRef s') in
  ((Number.le px tx → Number.le px px' ∧ Number.le px' tx)
   ∧ (Number.le tx px → Number.le tx px' ∧ Number.le px' px)
   ∧ (Number.le py ty → Number.le py py' ∧ Number.le py' ty)
   ∧ (Number.le ty py → Number.le ty py' ∧ Number.le py' py))
  ∧ Number.moderate px' ∧ Number.moderate py'
  ∧ (CursorFollow.positionRef s = CursorFollow.targetRef s →
     CursorFollow.positionRef s' = CursorFollow.positionRef s)
  ∧ CursorFollow.transform s' = Some (CursorFollow.positionRef s')
  ∧ CursorFollow.targetRef s' = CursorFollow.targetRef s.
Proof.
  intros Hpx Hpy Htx Hty. cbn zeta.
  cbn [CursorFollow.animate CursorFollow.requestAnimationFrame
    CursorFollow.positionRef CursorFollow.targetRef CursorFollow.transform
    CursorFollow.x CursorFollow.y].
  destruct (approach_between _ _ Hpx Htx) as (Hmx & Hupx & Hdownx & Hfixx).
  destruct (approach_between _ _ Hpy Hty) as (Hmy & Hupy & Hdowny & Hfixy).
  split; [done|]. split; [done|]. split; [done|]. split; [|done].
  intros Heq. destruct (CursorFollow.positionRef s) as [px py].
  destruct (CursorFollow.targetRef s) as [tx ty].
  cbn [CursorFollow.x CursorFollow.y] in *. injection Heq as -> ->.
  f_equal; [by apply Hfixx | by apply Hfixy].
Qed.

Lemma animate_never_overshoots_witness :
  CursorFollow.positionRef
    (CursorFollow.animate
       (CursorFollow.handleMouseMove (Number.Finite (Qc_of_Z 400))
          (Number.Finite (Qc_of_Z 200)) CursorFollow.started))
  = {| CursorFollow.x := Number.Finite (Qc_of_Z 60);
       CursorFollow.y := Number.Finite (Qc_of_Z 30) |}
  ∧ Number.le
      (CursorFollow.x
         (CursorFollow.positionRef
            (CursorFollow.animate
               (CursorFollow.handleMouseMove (Number.Finite (Qc_of_Z 400))
                  (Number.Finite (Qc_of_Z 200)) CursorFollow.started))))
      (Number.Finite (Qc_of_Z 400))
  ∧ CursorFollow.transform
      (CursorFollow.animate
         (CursorFollow.handleMouseMove (Number.Finite (Qc_of_Z 400))
            (Number.Finite (Qc_of_Z 200)) CursorFollow.started))
    = Some
        (CursorFollow.positionRef
           (CursorFollow.animate
              (CursorFollow.handleMouseMove (Number.Finite (Qc_of_Z 400))
                 (Number.Finite (Qc_of_Z 200)) CursorFollow.started))).
Proof.
  destruct (animate_never_overshoots
              (CursorFollow.handleMouseMove (Number.Finite (Qc_of_Z 400))
                 (Number.Finite (Qc_of_Z 200)) CursorFollow.started))
    as ((Hx & _) & _ & _ & _ & Htr & _).
  - vm_compute. exact I.
  - vm_compute. exact I.
  - vm_compute. exact I.
  - vm_compute. exact I.
  - destruct Hx as [_ H2]; [vm_compute; exact I|].
    split; [number_eq|].
    split; [exact H2 | exact Htr].
Defined.

Lemma cursor_alive_run evs s id :
  CursorFollow.Unmount ∉ evs →
  CursorFollow.frames s = [id] →
  CursorFollow.animationRef s = Some id →
  id ≠ 0%nat →
  (id < CursorFollow.next_frame s)%nat →
  CursorFollow.listening s = true →
  ∃ id',
    CursorFollow.frames (CursorFollow.run evs s) = [id']
    ∧ CursorFollow.animationRef (CursorFollow.run evs s) = Some id'
    ∧ id' ≠ 0%nat
    ∧ CursorFollow.listening (CursorFollow.run evs s) = true.
Proof.
  revert s id. induction evs as [|ev evs IH]; intros s id Hno Hf Ha Hid Hnext Hl.
  { exists id. done. }
  assert (CursorFollow.Unmount ∉ evs) as Hno'
    by (intros ?; apply Hno; by apply list_elem_of_further).
  unfold CursorFollow.run. cbn [foldl]. destruct ev; cbn [CursorFollow.step].
  - rewrite Hl. by apply (IH _ id).
  - rewrite (frame_one s id Hf). apply (IH _ (CursorFollow.next_frame s)); try done.
    + cbn. lia.
    + cbn. lia.
  - exfalso. apply Hno, list_elem_of_here.
Qed.

Lemma cursor_stopped_run evs s :
  CursorFollow.frames s = [] →
  CursorFollow.listening s = false →
  CursorFollow.frames (CursorFollow.run evs s) = []
  ∧ CursorFollow.listening (CursorFollow.run evs s) = false
  ∧ CursorFollow.positionRef (CursorFollow.run evs s) = CursorFollow.positionRef s
  ∧ CursorFollow.targetRef (CursorFollow.run evs s) = CursorFollow.targetRef s
  ∧ CursorFollow.transform (CursorFollow.run evs s) = CursorFollow.transform s.
Proof.
  revert s. induction evs as [|ev evs IH]; intros s Hf Hl; [done|].
  unfold CursorFollow.run. cbn [foldl]. destruct ev; cbn [CursorFollow.step].
  - rewrite Hl. by apply IH.
  - unfold CursorFollow.frame. rewrite Hf. cbn [foldl].
    destruct (IH {| CursorFollow.positionRef := CursorFollow.positionRef s;
                    CursorFollow.targetRef := CursorFollow.targetRef s;
                    CursorFollow.animationRef := CursorFollow.animationRef s;
                    CursorFollow.transform := CursorFollow.transform s;
                    CursorFollow.frames := [];
                    CursorFollow.next_frame := CursorFollow.next_frame s;
                    CursorFollow.listening := CursorFollow.listening s |})
      as (? & ? & ? & ? & ?); done.
  - destruct (IH (CursorFollow.cleanup s)) as (? & ? & ? & ? & ?); try done.
    cbn. rewrite Hf. by destruct (CursorFollow.animationRef s) as [id|]; [case_bool_decide|].
Qed.

(** X15. One request of [animate] at a time, and none after the cleanup.
    From the moment the effect has run, through any pointer moves and
    frames, the browser holds exactly one request of [animate], and
    [animationRef] holds its id; the mousemove listener is attached.  The
    cleanup cancels that request and removes the listener, so from then on
    frames and pointer moves change neither position, target nor the
    cursor's transform. *)
Theorem cursor_cleanup_stops_animation (evs evs' : list CursorFollow.Event) :
  CursorFollow.Unmount ∉ evs →
  let s := CursorFollow.run evs CursorFollow.started in
  let s' := CursorFollow.run (CursorFollow.Unmount :: evs') s in
  (∃ id, CursorFollow.frames s = [id] ∧ CursorFollow.animationRef s = Some id)
  ∧ CursorFollow.listening s = true
  ∧ CursorFollow.frames s' = []
  ∧ CursorFollow.listening s' = false
  ∧ CursorFollow.positionRef s' = CursorFollow.positionRef s
  ∧ CursorFollow.targetRef s' = CursorFollow.targetRef s
  ∧ CursorFollow.transform s' = CursorFollow.transform s.
Proof.
  intros Hno s s'.
  destruct (cursor_alive_run evs CursorFollow.started 1%nat Hno)
    as (id & Hf & Ha & Hid & Hl); [done|done|done|cbn; lia|done|].
  fold s in Hf, Ha, Hl.
  split; [by exists id|]. split; [done|].
  destruct (cursor_stopped_run evs' (CursorFollow.cleanup s)) as (? & ? & ? & ? & ?).
  - cbn. rewrite Ha, Hf. rewrite bool_decide_eq_false_2 by done.
    rewrite filter_cons, filter_nil. by rewrite decide_False by auto.
  - done.
  - unfold s', CursorFollow.run. cbn [foldl CursorFollow.step].
    unfold CursorFollow.run in *. done.
Qed.

Lemma cursor_cleanup_stops_animation_witness :
  CursorFollow.frames
    (CursorFollow.run
       [CursorFollow.MouseMove (Number.Finite (Qc_of_Z 400)) (Number.Finite (Qc_of_Z 200));
               CursorFollow.Frame;
        CursorFollow.Unmount; CursorFollow.Frame; CursorFollow.MouseMove (Number.Finite 0) (Number.Finite 0)]
       CursorFollow.started) = [].
Proof.
  destruct (cursor_cleanup_stops_animation
              [CursorFollow.MouseMove (Number.Finite (Qc_of_Z 400)) (Number.Finite (Qc_of_Z 200));
               CursorFollow.Frame]
              [CursorFollow.Frame; CursorFollow.MouseMove (Number.Finite 0) (Number.Finite 0)]) as (_ & _ & Hf & _).
  - intros H. repeat (inversion H as [|? ? ? H']; subst; clear H; rename H' into H).
  - exact Hf.
Defined.

(** ** [ImageModal] *)

(** After a commit the only keydown listener is the closure of that
    commit's effect, present exactly when the modal is open. *)
Lemma commit_settled m isOpen :
  (ImageModal.keydown (ImageModal.doc m) = []
   ∨ ∃ h, ImageModal.pending m = Some h ∧ ImageModal.keydown (ImageModal.doc m) = [h]) →
  let m' := ImageModal.commit m isOpen in
  ImageModal.pending m' = Some (ImageModal.next_run m)
  ∧ ImageModal.next_run m' = S (ImageModal.next_run m)
  ∧ ImageModal.keydown (ImageModal.doc m') = (if isOpen then [ImageModal.next_run m] else [])
  ∧ (isOpen = true → ImageModal.overflow (ImageModal.doc m') = Some "hidden")
  ∧ (isOpen = false →
     ImageModal.overflow (ImageModal.doc m') =
       match ImageModal.pending m with
       | Some _ => Some "unset"
       | None => ImageModal.overflow (ImageModal.doc m)
       end).
Proof.
  intros Hk. cbn zeta.
  assert (ImageModal.keydown (ImageModal.run_cleanup m) = []) as Hclean.
  { unfold ImageModal.run_cleanup.
    destruct Hk as [Hk | (h & Hp & Hk)].
    - destruct (ImageModal.pending m); cbn; by rewrite Hk.
    - rewrite Hp. cbn. rewrite Hk, filter_cons, filter_nil.
      by rewrite decide_False by auto. }
  unfold ImageModal.commit. cbn [ImageModal.pending ImageModal.next_run ImageModal.doc].
  split; [done|]. split; [done|].
  unfold ImageModal.effect. destruct isOpen; cbn.
  - rewrite Hclean. done.
  - split; [done|]. split; [done|]. intros _. unfold ImageModal.run_cleanup.
    by destruct (ImageModal.pending m).
Qed.

Lemma commits_settled (opens : list bool) :
  let m := foldl ImageModal.commit ImageModal.fresh opens in
  ImageModal.next_run m = length opens
  ∧ (ImageModal.keydown (ImageModal.doc m) = []
     ∨ ∃ h, ImageModal.pending m = Some h ∧ ImageModal.keydown (ImageModal.doc m) = [h])
  ∧ (opens = [] ∨ ∃ h, ImageModal.pending m = Some h).
Proof.
  induction opens as [|isOpen opens IH] using rev_ind.
  { cbn. auto. }
  cbn zeta in *. rewrite foldl_app. cbn [foldl].
  destruct IH as (Hn & Hk & _).
  destruct (commit_settled _ isOpen Hk) as (Hp & Hn' & Hk' & _).
  rewrite Hn', Hn, length_app. cbn [length]. split; [lia|]. split.
  - rewrite Hk'. destruct isOpen; [right|by left]. eexists. by rewrite Hp.
  - right. eauto.
Qed.

(** X16. The Escape listener and the scroll lock follow [isOpen].  After
    any series of commits in which the effect ran, ending with one for
    [isOpen], the document has exactly one keydown listener of the modal
    when the modal is open and none when it is closed (earlier closures
    have been removed by their cleanups); [body.style.overflow] is
    ['hidden'] exactly when the modal is open, and it is ['unset'] once the
    modal has been closed after an earlier commit.  A key press calls
    [onClose] once when the modal is open and the key is Escape, otherwise
    not at all.  Unmounting removes the listener and leaves ['unset']. *)
Theorem modal_listener_follows_isOpen (opens : list bool) (isOpen : bool) :
  let m := foldl ImageModal.commit ImageModal.fresh (opens ++ [isOpen]) in
  ImageModal.keydown (ImageModal.doc m) = (if isOpen then [length opens] else [])
  ∧ ImageModal.pending m = Some (length opens)
  ∧ (ImageModal.overflow (ImageModal.doc m) = Some "hidden" ↔ isOpen = true)
  ∧ (isOpen = false → opens ≠ [] → ImageModal.overflow (ImageModal.doc m) = Some "unset")
  ∧ (∀ key, ImageModal.keypress key m =
            if isOpen && bool_decide (key = "Escape") then 1%nat else 0%nat)
  ∧ ImageModal.doc (ImageModal.unmount m) =
      {| ImageModal.keydown := []; ImageModal.overflow := Some "unset" |}.
Proof.
  cbn zeta. rewrite foldl_app. cbn [foldl].
  destruct (commits_settled opens) as (Hn & Hk & Hopens). cbn zeta in *.
  set (m0 := foldl ImageModal.commit ImageModal.fresh opens) in *.
  destruct (commit_settled m0 isOpen Hk) as (Hp & _ & Hk' & Hopen & Hclosed).
  cbn zeta in *. rewrite Hn in Hp, Hk'.
  split; [done|]. split; [done|]. split; [|split; [|split]].
  - split.
    + intros Hov. destruct isOpen; [done|]. rewrite (Hclosed eq_refl) in Hov.
      destruct Hopens as [-> | [h Hh]].
      * by cbn in Hov.
      * by rewrite Hh in Hov.
    + apply Hopen.
  - intros -> Hne. rewrite (Hclosed eq_refl).
    destruct Hopens as [-> | [h ->]]; done.
  - intros key. unfold ImageModal.keypress, ImageModal.handleEscape. rewrite Hk'.
    destruct isOpen; by case_bool_decide.
  - unfold ImageModal.unmount, ImageModal.run_cleanup.
    cbn [ImageModal.doc ImageModal.pending]. rewrite Hp. unfold ImageModal.cleanup.
    rewrite Hk'. f_equal. destruct isOpen; [|done].
    rewrite filter_cons, filter_nil. by rewrite decide_False by auto.
Qed.

(** X17. What a click on the open modal does.  A click calls [onClose]
    at most once.  It does so when its target is the backdrop, one of the
    two close buttons, or the icon inside the second; a click anywhere else
    in the window (header, title, the yellow and green dots, the picture)
    calls nothing, because the window stops the propagation to the
    backdrop.  The result does not depend on the bound used for the walk
    towards the root once it covers the depth of the tree. *)
Theorem click_closes_once (n : ImageModal.Node) :
  ImageModal.click n =
    match n with
    | ImageModal.Backdrop | ImageModal.CloseDot
    | ImageModal.CloseButton | ImageModal.CloseIcon => 1%nat
    | _ => 0%nat
    end
  ∧ ∀ depth, (5 ≤ depth)%nat → ImageModal.bubble depth n = ImageModal.click n.
Proof.
  split; [by destruct n|].
  intros depth Hd. do 5 (destruct depth as [|depth]; [lia|]).
  destruct n; reflexivity.
Qed.

(** ** The home page *)

Lemma home_run_snoc evs ev s :
  Home.run (evs ++ [ev]) s = Home.step (Home.run evs s) ev.
Proof. unfold Home.run. by rewrite foldl_app. Qed.

Lemma home_toggles_snoc evs ev :
  Home.toggles (evs ++ [ev]) =
    (Home.toggles evs + match ev with Home.ToggleTheme => 1 | _ => 0 end)%nat.
Proof.
  induction evs as [|ev' evs IH]; [by destruct ev|].
  cbn [app Home.toggles]. destruct ev'; rewrite IH; lia.
Qed.

(** The modal of the page is settled for [isOpen]. *)
Lemma home_settled evs :
  let s := Home.run evs Home.mounted in
  ∃ h, ImageModal.pending (Home.modal s) = Some h
       ∧ ImageModal.keydown (ImageModal.doc (Home.modal s)) =
           (if Home.isOpen s then [h] else [])
       ∧ (ImageModal.overflow (ImageModal.doc (Home.modal s)) = Some "hidden"
          ↔ Home.isOpen s = true).
Proof.
  assert (∀ s,
    (∃ h, ImageModal.pending (Home.modal s) = Some h
          ∧ (ImageModal.keydown (ImageModal.doc (Home.modal s)) = []
             ∨ ImageModal.keydown (ImageModal.doc (Home.modal s)) = [h])) →
    ∃ h, ImageModal.pending (Home.modal (Home.commit s)) = Some h
         ∧ ImageModal.keydown (ImageModal.doc (Home.modal (Home.commit s))) =
             (if Home.isOpen s then [h] else [])
         ∧ (ImageModal.overflow (ImageModal.doc (Home.modal (Home.commit s))) = Some "hidden"
            ↔ Home.isOpen s = true)) as Hcommit.
  { intros s (h0 & Hp0 & Hk0).
    destruct (commit_settled (Home.modal s) (Home.isOpen s)) as (Hp & _ & Hk & Ho & Hc).
    { destruct Hk0; [by left | right; eauto]. }
    cbn zeta in *. exists (ImageModal.next_run (Home.modal s)).
    cbn [Home.commit Home.modal]. split; [done|]. split; [done|].
    destruct (Home.isOpen s); [by split; auto|].
    rewrite (Hc eq_refl), Hp0. done. }
  induction evs as [|ev evs IH] using rev_ind.
  { cbn. exists 0%nat. split; [done|]. split; [done|]. done. }
  cbn zeta in *. rewrite home_run_snoc. set (s := Home.run evs Home.mounted) in *.
  destruct IH as (h & Hp & Hk & Ho).
  assert (∃ h, ImageModal.pending (Home.modal s) = Some h
               ∧ (ImageModal.keydown (ImageModal.doc (Home.modal s)) = []
                  ∨ ImageModal.keydown (ImageModal.doc (Home.modal s)) = [h])) as Hpre.
  { exists h. split; [done|]. rewrite Hk. destruct (Home.isOpen s); auto. }
  assert (∀ v, Home.isOpen (Home.setModalImage v s) = bool_decide (is_Some v)
               ∧ ∃ h, ImageModal.pending (Home.modal (Home.setModalImage v s)) = Some h
                 ∧ ImageModal.keydown (ImageModal.doc (Home.modal (Home.setModalImage v s))) =
                     (if Home.isOpen (Home.setModalImage v s) then [h] else [])
                 ∧ (ImageModal.overflow (ImageModal.doc (Home.modal (Home.setModalImage v s)))
                      = Some "hidden"
                    ↔ Home.isOpen (Home.setModalImage v s) = true)) as Hset.
  { intros v. unfold Home.setModalImage.
    destruct v as [img|], (Home.modalImage s) as [img0|] eqn:Hm.
    - split; [done|].
      match goal with |- context [Home.commit ?s0] => apply (Hcommit s0) end. exact Hpre.
    - split; [done|].
      match goal with |- context [Home.commit ?s0] => apply (Hcommit s0) end. exact Hpre.
    - split; [done|].
      match goal with |- context [Home.commit ?s0] => apply (Hcommit s0) end. exact Hpre.
    - split; [unfold Home.isOpen; by rewrite Hm|]. exists h. done. }
  destruct ev; cbn [Home.step].
  - unfold Home.toggleTheme. cbn [Home.theme_effect Home.modal Home.isOpen Home.modalImage].
    match goal with |- context [Home.commit ?s0] =>
      change (Home.modalImage s) with (Home.modalImage s0); apply (Hcommit s0) end.
    exact Hpre.
  - apply Hset.
  - case_bool_decide; [apply Hset | by exists h].
  - destruct (_ && _); [apply Hset | by exists h].
Qed.

(** X18. The modal of the home page.  In every state the page reaches
    through theme toggles, clicks on screenshots, key presses and clicks
    on the modal: the document has one keydown listener of the modal while
    an image is selected and none otherwise, and [body.style.overflow] is
    ['hidden'] exactly while an image is selected.  Pressing Escape then
    leaves no image selected; any other key changes nothing; a click on a
    screenshot selects that image. *)
Theorem home_modal_follows_selection (evs : list Home.Event) :
  let s := Home.run evs Home.mounted in
  length (ImageModal.keydown (ImageModal.doc (Home.modal s))) =
    (if Home.isOpen s then 1%nat else 0%nat)
  ∧ (ImageModal.overflow (ImageModal.doc (Home.modal s)) = Some "hidden"
     ↔ Home.isOpen s = true)
  ∧ Home.modalImage (Home.step s (Home.KeyDown "Escape")) = None
  ∧ (∀ key, key ≠ "Escape" → Home.step s (Home.KeyDown key) = s)
  ∧ (∀ img, Home.modalImage (Home.step s (Home.ClickScreenshot img)) = Some img).
Proof.
  cbn zeta. destruct (home_settled evs) as (h & Hp & Hk & Ho). cbn zeta in *.
  set (s := Home.run evs Home.mounted) in *.
  split; [rewrite Hk; by destruct (Home.isOpen s)|]. split; [done|].
  split; [|split].
  - cbn [Home.step]. unfold ImageModal.keypress, ImageModal.handleEscape.
    rewrite (bool_decide_eq_true_2 ("Escape" = "Escape")) by done. rewrite Hk.
    unfold Home.onClose, Home.setModalImage, Home.isOpen in *.
    destruct (Home.modalImage s) as [img|] eqn:Hm.
    + rewrite bool_decide_eq_true_2 by (cbn; lia). done.
    + rewrite bool_decide_eq_false_2 by (cbn; lia). done.
  - intros key Hkey. cbn [Home.step]. unfold ImageModal.keypress, ImageModal.handleEscape.
    rewrite (bool_decide_eq_false_2 (key = "Escape")) by done.
    by rewrite bool_decide_eq_false_2 by lia.
  - intros img. cbn [Home.step]. unfold Home.setModalImage.
    by destruct (Home.modalImage s).
Qed.

(** X19. The theme of the home page.  The theme starts as ['dark'] and
    every toggle flips it between ['dark'] and ['light'], so it is
    ['dark'] exactly after an even number of toggles, whatever else
    happens in between; [body.className] is always the theme and the
    body's background is black for ['dark'] and white for ['light']. *)
Theorem theme_follows_toggles (evs : list Home.Event) :
  let s := Home.run evs Home.mounted in
  Home.theme s = (if Nat.even (Home.toggles evs) then "dark" else "light")
  ∧ Home.className s = Some (Home.theme s)
  ∧ Home.backgroundColor s =
      Some (if Nat.even (Home.toggles evs) then "black" else "white").
Proof.
  induction evs as [|ev evs IH] using rev_ind; [done|].
  cbn zeta in *. rewrite home_run_snoc, home_toggles_snoc.
  set (s := Home.run evs Home.mounted) in *. destruct IH as (Ht & Hc & Hb).
  assert (∀ v, Home.theme (Home.setModalImage v s) = Home.theme s
               ∧ Home.className (Home.setModalImage v s) = Home.className s
               ∧ Home.backgroundColor (Home.setModalImage v s) = Home.backgroundColor s)
    as Hset.
  { intros v. unfold Home.setModalImage. by destruct v, (Home.modalImage s). }
  destruct ev; cbn [Home.step].
  - rewrite Nat.add_1_r, Nat.even_succ, <-Nat.negb_even.
    cbn [Home.toggleTheme Home.theme_effect Home.commit Home.theme Home.className
           Home.backgroundColor].
    rewrite Ht. by destruct (Nat.even (Home.toggles evs)).
  - rewrite Nat.add_0_r. destruct (Hset (Some img)) as (-> & -> & ->). done.
  - rewrite Nat.add_0_r. case_bool_decide; [|done]. unfold Home.onClose.
    destruct (Hset None) as (-> & -> & ->). done.
  - rewrite Nat.add_0_r. destruct (_ && _); [|done]. unfold Home.onClose.
    destruct (Hset None) as (-> & -> & ->). done.
Qed.

(** ** Where the cards rest *)

Lemma rotate_perm {A} (m : nat) (l : list A) : rotate m l ≡ₚ l.
Proof. unfold rotate. by rewrite (comm (++)), take_drop. Qed.

Lemma swap_built p e e' :
  TextNode ∉ children p →
  refs e = initial_refs p →
  swap p e = Ok e' →
  e' = e ∨ ∃ tl, e' = new_timeline tl e ∧ built p (order e) tl.
Proof.
  intros Hno Hrefs. unfold swap. case_bool_decide as Hlen; [intros [= <-]; by left|].
  destruct (order e) as [|front rest] eqn:Ho; [intros [= <-]; by left|].
  destruct (refs e !! front) as [[elFront|]|] eqn:Hf; [|intros [= <-]; by left|done].
  assert (elFront = front) as ->.
  { rewrite Hrefs in Hf. by apply (refs_ok_initial p front elFront). }
  destruct (build p (refs e) front rest front) as [tl|] eqn:Hb; [|done].
  cbn. intros [= <-]. right. exists tl. split; [done|].
  exists front, rest, tl. split; [done|]. split; [|by rewrite <-Hrefs].
  intros ->. cbn in Hlen. lia.
Qed.

Lemma built_tick p o tl : built p o tl → built p o (tl_tick tl).1.
Proof.
  intros (front & rest & tl0 & ? & ? & ? & ?). exists front, rest, tl0.
  by rewrite tl_tick_children.
Qed.

Lemma steady_built_tick p k r e e' :
  (2 ≤ length (children p))%nat →
  TextNode ∉ children p →
  cycle_ms p < delay p →
  Steady p k r e →
  tick p e = Ok e' →
  (∀ i tl, timelines e !! i = Some tl →
           built p (rotate i (seq 0 (length (children p)))) tl) →
  ∀ i tl, timelines e' !! i = Some tl →
          built p (rotate i (seq 0 (length (children p)))) tl.
Proof.
  intros HN Hno Hlt Hst Htick Hinv.
  destruct (steady_tick p k r e HN Hno Hlt Hst) as (e'' & Htick' & Hst').
  rewrite Htick in Htick'. injection Htick' as <-.
  pose proof (cycle_ms_pos p) as Hpos.
  assert (∀ i tl, timelines (animate e) !! i = Some tl →
                  built p (rotate i (seq 0 (length (children p)))) tl) as Hinv1.
  { intros i tl. rewrite animate_timelines, list_lookup_fmap.
    destruct (timelines e !! i) as [tl0|] eqn:Hi; [|done]. cbn. intros [= <-].
    by apply built_tick, Hinv. }
  destruct Hst as [Hr _ Hrefs Hiv (past & tl0 & Htls & Hlen & _)].
  unfold tick, run_timers in Htick. rewrite animate_intervals, Hiv in Htick.
  rewrite filter_cons, filter_nil in Htick. unfold iv_fires at 1 in Htick.
  cbn [iv_elapsed map] in Htick.
  unfold iv_tick, iv_fires in Htick. cbn [iv_id iv_elapsed] in Htick.
  destruct (decide (r + 1 < delay p)) as [Hlt1 | Hge].
  - rewrite bool_decide_eq_false_2 in Htick by lia. rewrite decide_False in Htick by done.
    cbn [length swap_times] in Htick. injection Htick as <-. exact Hinv1.
  - rewrite bool_decide_eq_true_2 in Htick by lia. rewrite decide_True in Htick by done.
    cbn [length swap_times] in Htick.
    match type of Htick with context [swap p ?x] => set (e2 := x) in * end.
    destruct (swap p e2) as [e3|] eqn:Hs; [|done]. cbn in Htick. injection Htick as ->.
    destruct Hst' as [_ Ho' _ _ (past' & tl' & Htls' & Hlen' & _)].
    rewrite decide_True in Ho' by lia. rewrite Nat.add_0_r in Ho'.
    assert (length (timelines e2) = S k) as Hn2.
    { change (timelines e2) with (timelines (animate e)).
      rewrite animate_timelines, length_map, Htls, length_app. cbn. lia. }
    destruct (swap_built p e2 e' Hno) as [-> | (tl & -> & Hb)]; [|done| |].
    + change (refs e2) with (refs (animate e)). by rewrite animate_refs.
    + rewrite Htls', length_app in Hn2. cbn in Hn2. lia.
    + cbn [order new_timeline] in Ho'. rewrite Ho' in Hb.
      intros i tl1. cbn [timelines new_timeline]. intros Hi.
      apply lookup_app_Some in Hi as [Hi | [Hge' Hi]].
      * by apply Hinv1.
      * rewrite Hn2 in Hge', Hi.
        destruct (i - S k)%nat as [|?] eqn:Hd; [|done]. injection Hi as <-.
        by replace i with (S k) by lia.
Qed.

Lemma built_run p (n : nat) e :
  (2 ≤ length (children p))%nat →
  TextNode ∉ children p →
  cycle_ms p < delay p →
  (started p ≫= elapse p n) = Ok e →
  ∀ i tl, timelines e !! i = Some tl →
          built p (rotate i (seq 0 (length (children p)))) tl.
Proof.
  intros HN Hno Hlt. pose proof (cycle_ms_pos p) as Hpos.
  revert e. induction n as [|n IH]; intros e He.
  - destruct (started p) as [e0|] eqn:He0; [|done]. cbn in He. injection He as ->.
    unfold started, mount in He0.
    destruct (swap p (initial p)) as [e1|] eqn:Hs; [|done]. cbn in He0.
    assert (timelines e = timelines e1) as ->.
    { injection He0 as <-. by destruct (pauseOnHover p). }
    destruct (swap_built p (initial p) e1 Hno eq_refl Hs) as [-> | (tl & -> & Hb)].
    + by intros i tl.
    + intros [|i] tl1; [|done]. cbn. intros [= <-]. by rewrite rotate_0.
  - rewrite elapse_succ in He.
    destruct (started p ≫= elapse p n) as [e1|] eqn:He1; [|done].
    cbn [mbind result_bind] in He.
    destruct (steady_run p (n / Z.to_nat (delay p)) (n mod Z.to_nat (delay p)) HN Hno Hlt)
      as (e1' & He1' & Hst).
    { pose proof (Nat.mod_upper_bound n (Z.to_nat (delay p))). lia. }
    assert (n / Z.to_nat (delay p) * Z.to_nat (delay p) + n mod Z.to_nat (delay p) = n)%nat
      as Hn.
    { pose proof (Nat.div_mod_eq n (Z.to_nat (delay p))). lia. }
    rewrite Hn, He1 in He1'. injection He1' as <-.
    by eapply steady_built_tick; [..|apply IH].
Qed.

(** X20. At rest the cards are where the order says.  Let the component
    run undisturbed (at least two children, all of them elements, cycles
    shorter than the timer period) and look at it once the cycle of the
    current period has finished.  Then every timeline has finished, and the
    last one has left each card in the slot of its position in the order:
    the card at position [j] is in slot [j], with [zIndex] [N - j], and is
    flagged as the front card exactly when [j = 0]. *)
Theorem cards_rest_where_order_says (p : Props) (k r : nat) :
  (2 ≤ length (children p))%nat →
  TextNode ∉ children p →
  cycle_ms p < delay p →
  cycle_ms p ≤ Z.of_nat r < delay p →
  let N := Z.of_nat (length (children p)) in
  ∃ e tl,
    (started p ≫= elapse p (k * Z.to_nat (delay p) + r)) = Ok e
    ∧ last (timelines e) = Some tl
    ∧ Forall (fun tl => finished tl = true) (timelines e)
    ∧ ∀ j idx, order e !! j = Some idx →
        slot_after idx tl = Some (makeSlot (Z.of_nat j) (cardDistance p) (verticalDistance p) N)
        ∧ zIndex_after idx tl = Some (N - Z.of_nat j)
        ∧ is_front_after idx tl = Some (bool_decide (j = 0%nat)).
Proof.
  intros HN Hno Hlt Hr N.
  destruct (steady_run p k r HN Hno Hlt) as (e & He & Hst); [lia|].
  pose proof (built_run p _ e HN Hno Hlt He) as Hinv.
  destruct Hst as [_ Ho Hrefs _ (past & tl & Htls & Hlen & Hfin & _ & Ht & Hd & _)].
  rewrite decide_False in Ho by lia.
  exists e, tl. split; [done|]. split; [by rewrite Htls, last_snoc|]. split.
  { rewrite Htls. apply Forall_app. split; [done|]. apply Forall_singleton.
    unfold finished. rewrite Hd, Ht. apply bool_decide_eq_true_2. lia. }
  destruct (Hinv k tl) as (front & rest & tl0 & Hrot & Hne & Hb & Hch).
  { rewrite Htls, lookup_app_r by lia. by rewrite Hlen, Nat.sub_diag. }
  pose proof (rotate_front _ _ _ _ Hrot) as Hnext. rewrite <-Nat.add_1_r, <-Ho in Hnext.
  assert (length (front :: rest) = length (children p)) as Hlen'.
  { by rewrite <-Hrot, length_rotate, length_seq. }
  assert (length (initial_refs p) = length (children p)) as Hrl
    by (unfold initial_refs; apply length_imap).
  assert (∀ idx, idx ∈ front :: rest → initial_refs p !! idx = Some (Some idx)) as Hpres.
  { intros idx. rewrite <-Hrot, elem_of_rotate, elem_of_seq. intros ?.
    apply initial_refs_lookup; [done|lia]. }
  intros j idx Hj. rewrite <-Hnext in Hj.
  pose proof (build_places p (initial_refs p) front rest front tl0 tl j idx idx Hb Hch) as H.
  rewrite Hrl in H. apply H; clear H.
  - apply Forall_forall. intros i Hi. rewrite <-Hrl.
    apply (lookup_lt_Some _ _ (Some i)), Hpres. by apply list_elem_of_further.
  - rewrite <-Hrot, rotate_perm. apply NoDup_seq.
  - intros a b x Ha Hb'. by eapply (refs_ok_inj (initial p)); [apply refs_ok_initial|..].
  - apply Hpres, list_elem_of_here.
  - done.
  - cbn [length] in Hlen'. lia.
  - done.
  - apply Hpres. apply list_elem_of_lookup_2 in Hj.
    apply elem_of_app in Hj as [Hj | Hj%list_elem_of_singleton].
    + by apply list_elem_of_further.
    + subst. apply list_elem_of_here.
Qed.

Lemma cards_rest_where_order_says_witness :
  ∃ e tl,
    (started (defaults 3) ≫= elapse (defaults 3) (1 * Z.to_nat 5000 + 3000)) = Ok e
    ∧ last (timelines e) = Some tl
    ∧ order e = [2; 0; 1]%nat
    ∧ slot_after 2%nat tl = Some (makeSlot 0 (Qc_of_Z 60) (Qc_of_Z 70) 3)
    ∧ zIndex_after 2%nat tl = Some 3
    ∧ is_front_after 2%nat tl = Some true.
Proof.
  destruct (cards_rest_where_order_says (defaults 3) 1 3000) as (e & tl & He & Hl & _ & H).
  - cbn. lia.
  - vm_compute. intros H.
    repeat (inversion H as [|? ? ? H']; subst; clear H; rename H' into H).
  - vm_compute. reflexivity.
  - vm_compute. split; [discriminate | reflexivity].
  - assert (order e = [2; 0; 1]%nat) as Ho.
    { vm_compute in He. injection He as <-. reflexivity. }
    exists e, tl. split; [exact He|]. split; [exact Hl|]. split; [exact Ho|].
    apply (H 0%nat 2%nat). rewrite Ho. reflexivity.
Defined.

(** ** The length of a cycle, by preset *)

Lemma cycle_ms_formula p :
  cycle_ms p =
    (if bool_decide (easing p = "elastic")
     then if bool_decide (Z.of_nat (length (children p)) ≤ 2) then 2300
          else 2200 + 150 * (Z.of_nat (length (children p)) - 2)
     else if bool_decide (Z.of_nat (length (children p)) ≤ 3) then 1400
          else 1240 + 150 * (Z.of_nat (length (children p)) - 2)).
Proof.
  unfold cycle_ms, config. destruct (bool_decide (easing p = "elastic")).
  - cbn [durDrop durMove durReturn promoteOverlap returnDelay].
    change (2000 * 90 / 100) with 1800. change (2000 * 5 / 100) with 100.
    case_bool_decide; lia.
  - cbn [durDrop durMove durReturn promoteOverlap returnDelay].
    change (800 * 45 / 100) with 360. change (800 * 20 / 100) with 160.
    case_bool_decide; lia.
Qed.

(** X21. How long a cycle is.  The timeline the effect starts for [N]
    cards, all of them elements, lasts 2300 ms for [N = 2] and
    [2200 + 150 (N - 2)] ms beyond when the easing is ['elastic']; with any
    other easing it lasts 1400 ms for [N ≤ 3] and [1240 + 150 (N - 2)] ms
    beyond.  With the props of the home page (elastic, a period of
    5000 ms) that is shorter than the timer period exactly when there are
    at most 20 cards. *)
Theorem cycle_duration_by_preset (p : Props) :
  (2 ≤ length (children p))%nat →
  TextNode ∉ children p →
  let N := Z.of_nat (length (children p)) in
  ∃ e tl,
    started p = Ok e
    ∧ timelines e = [tl]
    ∧ duration tl = cycle_ms p
    ∧ duration tl =
        (if bool_decide (easing p = "elastic")
         then if bool_decide (N ≤ 2) then 2300 else 2200 + 150 * (N - 2)
         else if bool_decide (N ≤ 3) then 1400 else 1240 + 150 * (N - 2))
    ∧ ∀ n, cycle_ms (defaults n) < delay (defaults n) ↔ (n ≤ 20)%nat.
Proof.
  intros HN Hno N.
  destruct (swap_full_cycle p (initial p) 0 HN Hno eq_refl) as (tl & Hs & _ & _ & Hd & _).
  { by rewrite rotate_0. }
  unfold started, mount. rewrite Hs. cbn [mbind result_bind].
  eexists _, tl. split; [reflexivity|]. split; [by destruct (pauseOnHover p)|].
  split; [done|]. split; [rewrite Hd; apply cycle_ms_formula|].
  intros n. rewrite cycle_ms_formula. cbn [easing defaults delay children].
  rewrite bool_decide_eq_true_2 by done. rewrite length_replicate.
  case_bool_decide; lia.
Qed.

Lemma cycle_duration_by_preset_witness :
  ∃ e tl,
    started (defaults 24) = Ok e
    ∧ timelines e = [tl]
    ∧ duration tl = 5500.
Proof.
  destruct (cycle_duration_by_preset (defaults 24)) as (e & tl & He & Ht & _ & Hd & _).
  - cbn. lia.
  - vm_compute. intros H.
    repeat (inversion H as [|? ? ? H']; subst; clear H; rename H' into H).
  - exists e, tl. split; [exact He|]. split; [exact Ht|]. rewrite Hd. reflexivity.
Defined.

(** ** The observer of [AboutSection] *)

Lemma elem_of_unobserve_refs refs observing t :
  t ∈ unobserve_refs refs observing ↔ t ∈ observing ∧ Some t ∉ refs.
Proof.
  revert observing. induction refs as [|r refs IH]; intros observing.
  { cbn. rewrite elem_of_nil. tauto. }
  unfold unobserve_refs in *. cbn [foldl]. rewrite IH, not_elem_of_cons.
  destruct r as [t'|].
  - unfold unobserve. rewrite list_elem_of_filter. split.
    + intros [[? ?] ?]. split; [done|]. split; [congruence|done].
    + intros [? [? ?]]. split; [|done]. split; [congruence|done].
  - split; [intros [? ?]; by repeat split | tauto].
Qed.

Lemma elem_of_observe_refs refs observing t :
  t ∈ observe_refs refs observing ↔ t ∈ observing ∨ Some t ∈ refs.
Proof.
  revert observing. induction refs as [|r refs IH]; intros observing.
  { cbn. rewrite elem_of_nil. tauto. }
  unfold observe_refs in *. cbn [foldl]. rewrite IH, elem_of_cons.
  destruct r as [t'|].
  - unfold observe. destruct (decide (t' ∈ observing)) as [Hin | Hout].
    + split; [tauto|]. intros [? | [[= ->] | ?]]; auto.
    + rewrite elem_of_app, list_elem_of_singleton. split.
      * intros [[? | ->] | ?]; auto.
      * intros [? | [[= ->] | ?]]; auto.
  - split; [tauto|]. intros [? | [? | ?]]; auto. done.
Qed.

(** X22. What the cleanup of the observer effect unobserves.  The effect
    observes exactly the nodes the three refs hold when it runs.  The
    cleanup reads the refs again: it unobserves exactly the nodes they hold
    at that moment.  So with unchanged refs nothing stays observed, whereas
    a node whose ref has been cleared in the meantime stays observed. *)
Theorem cleanup_unobserves_what_refs_hold
  (refs refs' : list (option AboutSection.Target)) (t : AboutSection.Target) :
  (t ∈ observe_refs refs [] ↔ Some t ∈ refs)
  ∧ (t ∈ unobserve_refs refs' (observe_refs refs []) ↔ Some t ∈ refs ∧ Some t ∉ refs')
  ∧ unobserve_refs refs (observe_refs refs []) = []
  ∧ unobserve_refs (replicate (length refs) None) (observe_refs refs []) = observe_refs refs [].
Proof.
  split; [|split; [|split]].
  - rewrite elem_of_observe_refs, elem_of_nil. tauto.
  - rewrite elem_of_unobserve_refs, elem_of_observe_refs, elem_of_nil. tauto.
  - apply elem_of_nil_inv. intros t'.
    rewrite elem_of_unobserve_refs, elem_of_observe_refs, elem_of_nil. tauto.
  - generalize (observe_refs refs []). induction (length refs) as [|n IH]; [done|].
    intros observing. unfold unobserve_refs in *. cbn. apply IH.
Qed.

(** ** When the effect runs again *)

Lemma elem_of_place p rfs pl :
  pl ∈ place p rfs ↔
    ∃ i, rfs !! i = Some (Some (pl_el pl))
         ∧ pl_slot pl =
             makeSlot (Z.of_nat i) (cardDistance p) (verticalDistance p)
               (Z.of_nat (length rfs))
         ∧ pl_front pl = bool_decide (i = 0%nat).
Proof.
  unfold place. rewrite list_elem_of_omap. split.
  - intros (r & Hr & Hid). cbn in Hid. subst r.
    apply list_elem_of_lookup in Hr as [i Hi]. rewrite list_lookup_imap in Hi.
    destruct (rfs !! i) as [[el|]|] eqn:Hel; [|done..]. cbn in Hi.
    injection Hi as <-. exists i. done.
  - intros (i & Hi & Hs & Hf). exists (Some pl). split; [|done].
    apply list_elem_of_lookup. exists i. rewrite list_lookup_imap, Hi. cbn.
    do 2 f_equal. destruct pl as [el s b]. cbn in *. by subst.
Qed.

Lemma effect_mount p e :
  effect p e = (fun e' => (place p (refs e), e')) <$> mount p e.
Proof. unfold effect. by destruct (mount p e). Qed.

(** X23. When the effect runs again it places the cards by child index
    and keeps the order.  Let a dependency of the effect change (the theme,
    say) while the order is [front :: rest], with at least two cards, and
    the front card has its element.  The cleanup runs and then the effect
    body.  Its placement loop puts every card in the slot of its index
    among the children: the card at the front of the order is placed
    exactly once, in slot [front], and the card the loop flags as the front
    card is child 0.  The order is not reset: the state is the one the
    re-run of the effect yields in the engine, its order is still
    [front :: rest], and the cycle that starts at once is a cycle from that
    order: the new timeline, which [tlRef] holds, begins with the DROP of
    the card [front] and ends with the UPDATE that assigns
    [rest ++ [front]]. *)
Theorem rerun_places_by_child_index (p : Props) (e : Engine) (front : nat)
  (rest : list nat) (el : Element) :
  wf (length (children p)) e →
  refs_ok e →
  order e = front :: rest →
  rest ≠ [] →
  refs e !! front = Some (Some el) →
  ∃ placed e' tl,
    effect p (cleanup e) = Ok (placed, e')
    ∧ step p e Rerun = Ok e'
    ∧ order e' = front :: rest
    ∧ refs e' = refs e
    ∧ (∀ pl, pl ∈ placed ∧ pl_el pl = el ↔
         pl = {| pl_el := el;
                 pl_slot :=
                   makeSlot (Z.of_nat front) (cardDistance p) (verticalDistance p)
                     (Z.of_nat (length (children p)));
                 pl_front := bool_decide (front = 0%nat) |})
    ∧ (∀ pl, pl ∈ placed → pl_front pl = bool_decide (pl_el pl = 0%nat))
    ∧ timelines e' = timelines e ++ [tl]
    ∧ tlRef e' = Some (length (timelines e))
    ∧ tl_time tl = 0
    ∧ tl_paused tl = false
    ∧ head (tl_children tl) =
        Some {| ch_start := 0; ch_dur := durDrop (config p);
                ch_act := To el (DropBy 500) (ease (config p)) |}
    ∧ cycle_of tl (rest ++ [front]).
Proof.
  intros Hwf Hok Ho Hne Hf.
  assert (wf (length (children p)) (cleanup e)) as Hwf1.
  { unfold cleanup. apply wf_clearInterval. by apply (wf_same _ e). }
  assert (order (cleanup e) = front :: rest) as Ho1.
  { rewrite <-Ho. unfold cleanup, clearInterval. cbn. by destruct (intervalRef e). }
  assert (timelines (cleanup e) = timelines e) as Ht1.
  { unfold cleanup, clearInterval. cbn. by destruct (intervalRef e). }
  pose proof (cleanup_refs e) as Hr1.
  pose proof (wf_bound _ _ Hwf1) as Hb. rewrite Ho1 in Hb.
  apply Forall_cons in Hb as [_ Hrest].
  destruct (swap_runs p (cleanup e) front rest el Ho1 Hne) as (tl & Hbuild & Hs);
    [by rewrite Hr1|done|].
  destruct (build_spec p (refs (cleanup e)) front rest el Hrest)
    as (tl' & Hb' & Htime & Hpaused & Hcyc & _).
  { apply list_elem_of_lookup. exists front. by rewrite Hr1. }
  rewrite Hbuild in Hb'. injection Hb' as <-.
  destruct (build_explicit p (refs (cleanup e)) front rest el Hrest)
    as (tl' & Hb' & _ & _ & Hch).
  rewrite Hbuild in Hb'. injection Hb' as <-.
  rewrite effect_mount. cbn [step]. unfold mount. rewrite Hs.
  cbn [mbind result_bind fmap result_fmap].
  eexists _, _, tl. split; [reflexivity|]. split; [reflexivity|].
  split; [by destruct (pauseOnHover p)|].
  split; [rewrite <-Hr1; by destruct (pauseOnHover p)|].
  rewrite Hr1. split; [|split].
  - intros pl. rewrite elem_of_place, (wf_refs _ _ Hwf). split.
    + intros [(i & Hi & Hslot & Hfront) Hel]. rewrite Hel in Hi.
      assert (i = front) as -> by (by eapply refs_ok_inj).
      destruct pl as [el' s b]. cbn in *. by subst.
    + intros ->. cbn. split; [|done]. by exists front.
  - intros pl (i & Hi & _ & Hfront)%elem_of_place. rewrite Hfront.
    by rewrite (Hok _ _ Hi).
  - split; [rewrite <-Ht1; by destruct (pauseOnHover p)|].
    split; [rewrite <-Ht1; by destruct (pauseOnHover p)|].
    split; [done|]. split; [done|]. split; [by rewrite Hch|done].
Qed.

Lemma rerun_places_by_child_index_witness :
  ∃ placed e' tl,
    effect (defaults 3)
      (cleanup (set_order (rotate 1 (seq 0 3)) (initial (defaults 3)))) = Ok (placed, e')
    ∧ order e' = [1; 2; 0]%nat
    ∧ timelines e' = [tl]
    ∧ cycle_of tl [2; 0; 1]%nat.
Proof.
  destruct (rerun_places_by_child_index (defaults 3)
              (set_order (rotate 1 (seq 0 3)) (initial (defaults 3)))
              1%nat [2; 0]%nat 1%nat)
    as (placed & e' & tl & He & _ & Ho & _ & _ & _ & Ht & _ & _ & _ & _ & Hc).
  - split; [apply rotate_perm | reflexivity | constructor].
  - apply (refs_ok_initial (defaults 3)).
  - reflexivity.
  - discriminate.
  - reflexivity.
  - exists placed, e', tl. split; [exact He|]. split; [exact Ho|].
    split; [exact Ht | exact Hc].
Defined.
